(** * cashupp: the cryptographic core (secp.cpp, b_dhke.cpp, keys.cpp)

    A shallow embedding of the C++ sources of the blind Diffie-Hellman key
    exchange, its DLEQ proof, hash-to-curve and the version-aware key
    derivation, together with the properties the specification states
    about them.

    - [std::vector<uint8_t>] is [list byte], [std::string] is [string],
      [cpp_int] is [Z];
    - a C++ function that may throw returns a [result];
    - [std::unordered_map<cpp_int, T>] is [gmap Z T]; where the code
      iterates over such a map the iteration order is an explicit list;
    - libsecp256k1 and OpenSSL are not part of the repository: they are
      the interfaces [Secp256k1] and [OpenSSL] below. *)

From Stdlib Require Import ZArith List Lia Znumtheory Zpow_facts Zdivisibility.
From Stdlib Require Import Permutation Sorted.
From Stdlib Require Import Decimal DecimalNat.
From Stdlib Require Import Strings.String Strings.Ascii Strings.Byte DecimalString.
From stdpp Require Import gmap strings list sorting.
Import ListNotations.

Local Open Scope string_scope.
Local Open Scope Z_scope.

(** ** Exceptions and results *)

(** The exception classes the sources throw (all derive from
    [std::exception]); [out_of_range] comes from [std::stoul]/[std::stoi]. *)
Inductive exn : Type :=
| invalid_argument (what : string)
| runtime_error (what : string)
| out_of_range (what : string).

Inductive result (A : Type) : Type :=
| Ok (a : A)
| Throw (e : exn).
Arguments Ok {A} a.
Arguments Throw {A} e.

#[global] Instance result_ret : MRet result := fun A a => Ok a.

#[global] Instance result_bind : MBind result := fun A B k m =>
  match m with
  | Ok a => k a
  | Throw e => Throw e
  end.

Definition returns {A : Type} (m : result A) : Prop := exists a, m = Ok a.

(** ** Bytes *)

#[global] Instance byte_eq_dec : EqDecision byte.
Proof.
  intros x y. destruct (Byte.eqb x y) eqn:E.
  - left. apply Byte.byte_dec_bl, E.
  - right. intros Heq. apply Byte.byte_dec_lb in Heq. congruence.
Defined.

Definition Z_of_byte (b : byte) : Z := Z.of_N (Byte.to_N b).

(** [static_cast<uint8_t>(v)]: the low eight bits of [v]. *)
Definition byte_of_Z (v : Z) : byte :=
  match Byte.of_N (Z.to_N (v mod 256)) with
  | Some b => b
  | None => x00
  end.

(** The big-endian accumulation loop
    [for (i...) v = (v << 8) + data[i];] started from [acc]. *)
Definition be_accumulate (acc : Z) (data : list byte) : Z :=
  fold_left (fun v b => Z.shiftl v 8 + Z_of_byte b) data acc.

Definition be_int (data : list byte) : Z := be_accumulate 0 data.

(** The serialisation loop
    [for (i = 31; i >= 0; --i) { out[i] = temp & 0xFF; temp >>= 8; }]
    run for [len] positions. *)
Fixpoint be_bytes (len : nat) (temp : Z) : list byte :=
  match len with
  | O => []
  | S k => be_bytes k (Z.shiftr temp 8) ++ [byte_of_Z (Z.land temp 255)]
  end.

(** ** secp.cpp: constants and utilities *)

Module secp256k1_const.
Definition CURVE_ORDER : Z :=
  0xFFFFFFFFFFFFFFFFFFFFFFFFFFFFFFFEBAAEDCE6AF48A03BBFD25E8CD0364141.

Definition GENERATOR_POINT : list byte :=
  [x02; x79; xbe; x66; x7e; xf9; xdc; xbb; xac; x55; xa0; x62;
   x95; xce; x87; x0b; x07; x02; x9b; xfc; xdb; x2d; xce; x28;
   xd9; x59; xf2; x81; x5b; x16; xf8; x17; x98].

Definition FIELD_PRIME : Z :=
  0xFFFFFFFFFFFFFFFFFFFFFFFFFFFFFFFFFFFFFFFFFFFFFFFFFFFFFFFEFFFFFC2F.
End secp256k1_const.
Import secp256k1_const.

Module secp_utils.

(** Value of one hexadecimal digit, either case. *)
Definition hex_digit (c : ascii) : option Z :=
  let n := Z.of_N (N_of_ascii c) in
  if (48 <=? n) && (n <=? 57) then Some (n - 48)
  else if (97 <=? n) && (n <=? 102) then Some (n - 87)
  else if (65 <=? n) && (n <=? 70) then Some (n - 55)
  else None.

Definition is_space (c : ascii) : bool :=
  let n := Z.of_N (N_of_ascii c) in
  (n =? 32) || ((9 <=? n) && (n <=? 13)).

(** [istringstream s(chunk); s >> std::hex >> byte;] for a chunk of at
    most two characters and [unsigned int byte]: leading white space is
    skipped, one sign is accepted, then as many hexadecimal digits as
    there are; when no digit is read the extraction fails and stores
    zero; a minus sign negates in [unsigned int]. *)
Definition stream_hex (c1 : ascii) (c2 : option ascii) : Z :=
  let digit2 := match c2 with Some c => hex_digit c | None => None end in
  match hex_digit c1 with
  | Some d1 =>
      match digit2 with
      | Some d2 => 16 * d1 + d2
      | None => d1
      end
  | None =>
      match digit2 with
      | Some d2 =>
          if is_space c1 then d2
          else if Ascii.eqb c1 "+" then d2
          else if Ascii.eqb c1 "-" then (- d2) mod 2 ^ 32
          else 0
      | None => 0
      end
  end.

(** The loop [for (i = 0; i < len; i += 2)] over two-character chunks. *)
Fixpoint hex_chunks (s : string) : list byte :=
  match s with
  | EmptyString => []
  | String c1 EmptyString => [byte_of_Z (stream_hex c1 None)]
  | String c1 (String c2 rest) =>
      byte_of_Z (stream_hex c1 (Some c2)) :: hex_chunks rest
  end.

Definition hex_to_bytes (hex : string) : list byte :=
  let clean_hex :=
    if String.eqb (substring 0 2 hex) "0x" || String.eqb (substring 0 2 hex) "0X"
    then substring 2 (String.length hex - 2) hex
    else hex in
  let clean_hex :=
    if negb (Nat.eqb (String.length clean_hex mod 2) 0)
    then "0" ++ clean_hex
    else clean_hex in
  hex_chunks clean_hex.

(** One digit of [std::hex] output (lowercase). *)
Definition hex_char (d : Z) : ascii :=
  ascii_of_N (Z.to_N (if d <? 10 then 48 + d else 87 + d)).

(** [oss << setfill('0') << setw(2) << std::hex << static_cast<int>(byte)]. *)
Definition hex_of_byte (b : byte) : string :=
  String (hex_char (Z_of_byte b / 16)) (String (hex_char (Z_of_byte b mod 16)) "").

Fixpoint bytes_to_hex (bytes : list byte) : string :=
  match bytes with
  | [] => ""
  | b :: rest => hex_of_byte b ++ bytes_to_hex rest
  end.

Definition is_valid_private_key (value : Z) : bool :=
  (value >? 0) && (value <? CURVE_ORDER).

End secp_utils.

(** ** secp.cpp: PrivateKey *)

Record PrivateKey : Type := mkPrivateKey { private_key_ : Z }.

Module PrivateKey_.
Import secp_utils.

Definition validate_key (k : PrivateKey) : result unit :=
  if negb (is_valid_private_key (private_key_ k))
  then Throw (invalid_argument "Private key must be in range [1, curve_order)")
  else Ok tt.

(** [PrivateKey(const vector<uint8_t>& key_data)] *)
Definition of_bytes (key_data : list byte) : result PrivateKey :=
  if negb (Nat.eqb (List.length key_data) 32)
  then Throw (invalid_argument "Private key must be exactly 32 bytes")
  else
    let k := mkPrivateKey (be_int key_data) in
    _ ← validate_key k; Ok k.

(** [PrivateKey(const cpp_int& key_value)] *)
Definition of_int (key_value : Z) : result PrivateKey :=
  let k := mkPrivateKey key_value in
  _ ← validate_key k; Ok k.

(** [PrivateKey(const string& hex_string)] *)
Definition of_hex (hex_string : string) : result PrivateKey :=
  let key_data := hex_to_bytes hex_string in
  if negb (Nat.eqb (List.length key_data) 32)
  then Throw (invalid_argument "Private key hex must represent exactly 32 bytes")
  else
    let k := mkPrivateKey (be_int key_data) in
    _ ← validate_key k; Ok k.

Definition tweak_add (k : PrivateKey) (scalar : Z) : result PrivateKey :=
  of_int (Z.rem (private_key_ k + scalar) CURVE_ORDER).

Definition tweak_mul (k : PrivateKey) (scalar : Z) : result PrivateKey :=
  of_int (Z.rem (private_key_ k * scalar) CURVE_ORDER).

Definition raw_value (k : PrivateKey) : Z := private_key_ k.

Definition serialize (k : PrivateKey) : list byte := be_bytes 32 (private_key_ k).

Definition to_hex (k : PrivateKey) : string := bytes_to_hex (serialize k).

Definition eqb (k other : PrivateKey) : bool := private_key_ k =? private_key_ other.

End PrivateKey_.

(** A scalar in the range the constructors accept. *)
Definition valid_scalar (k : PrivateKey) : Prop := 0 < private_key_ k < CURVE_ORDER.

(** ** The external libraries *)

(** OpenSSL: [SHA256] and [HMAC(EVP_sha512(), ...)], functions from byte
    strings to digests of 32 and 64 bytes. *)
Class OpenSSL : Type := {
  SHA256 : list byte -> list byte;
  HMAC_SHA512 : list byte -> list byte -> list byte;
  SHA256_length : forall data, List.length (SHA256 data) = 32%nat;
  HMAC_SHA512_length : forall key data, List.length (HMAC_SHA512 key data) = 64%nat;
}.

(** libsecp256k1: the group of the curve (the points together with the
    point at infinity), the SEC1 coordinates of a finite point, the parser
    [secp256k1_ec_pubkey_parse] and the 64-byte content of a
    [secp256k1_pubkey].  The group has the prime order [CURVE_ORDER]. *)
Class Secp256k1 : Type := {
  point : Type;
  point_eq_dec :: EqDecision point;
  infinity : point;
  generator : point;
  padd : point -> point -> point;
  pneg : point -> point;
  xcoord : point -> list byte;
  ycoord : point -> list byte;
  y_is_odd : point -> bool;
  pubkey_parse : list byte -> option point;
  pubkey_data : point -> list byte;

  padd_assoc : forall P Q R, padd P (padd Q R) = padd (padd P Q) R;
  padd_comm : forall P Q, padd P Q = padd Q P;
  padd_infinity_l : forall P, padd infinity P = P;
  padd_pneg_r : forall P, padd P (pneg P) = infinity;
  generator_finite : generator <> infinity;
  curve_order : forall P, Pos.iter_op padd (Z.to_pos CURVE_ORDER) P = infinity;
  curve_order_prime : forall k P,
    (k < Z.to_pos CURVE_ORDER)%positive -> P <> infinity ->
    Pos.iter_op padd k P <> infinity;

  xcoord_length : forall P, List.length (xcoord P) = 32%nat;
  ycoord_length : forall P, List.length (ycoord P) = 32%nat;
  xcoord_pneg : forall P, xcoord (pneg P) = xcoord P;
  y_is_odd_pneg : forall P, P <> infinity -> y_is_odd (pneg P) = negb (y_is_odd P);
  pubkey_parse_finite : forall data P, pubkey_parse data = Some P -> P <> infinity;
  pubkey_parse_compressed : forall P, P <> infinity ->
    pubkey_parse ((if y_is_odd P then x03 else x02) :: xcoord P) = Some P;
  pubkey_parse_uncompressed : forall P, P <> infinity ->
    pubkey_parse (x04 :: xcoord P ++ ycoord P) = Some P;
  pubkey_parse_canonical : forall prefix x P,
    pubkey_parse (prefix :: x) = Some P -> List.length x = 32%nat ->
    prefix = x02 \/ prefix = x03 ->
    prefix = (if y_is_odd P then x03 else x02) /\ x = xcoord P;
  pubkey_data_inj : forall P Q, pubkey_data P = pubkey_data Q -> P = Q;
}.

Section Library.
Context {curve : Secp256k1}.

(** Scalar multiplication [k·P] by double-and-add. *)
Definition pmul (k : Z) (P : point) : point :=
  match k with
  | Z0 => infinity
  | Zpos p => Pos.iter_op padd p P
  | Zneg p => pneg (Pos.iter_op padd p P)
  end.

(** The SEC1 encodings written by [secp256k1_ec_pubkey_serialize]. *)
Definition secp256k1_ec_pubkey_serialize (P : point) (compressed : bool) : list byte :=
  if compressed
  then (if y_is_odd P then x03 else x02) :: xcoord P
  else x04 :: xcoord P ++ ycoord P.

Definition secp256k1_ec_pubkey_parse (input : list byte) : option point :=
  pubkey_parse input.

(** [secp256k1_ec_pubkey_create]: fails when the secret key is zero or
    not below the group order. *)
Definition secp256k1_ec_pubkey_create (seckey : list byte) : option point :=
  let k := be_int seckey in
  if (0 <? k) && (k <? CURVE_ORDER) then Some (pmul k generator) else None.

(** [secp256k1_ec_pubkey_combine]: fails when the sum is the point at
    infinity. *)
Definition secp256k1_ec_pubkey_combine (ins : list point) : option point :=
  let sum := fold_left padd ins infinity in
  if decide (sum = infinity) then None else Some sum.

(** [secp256k1_ec_pubkey_tweak_mul]: fails when the tweak is zero or not
    below the group order. *)
Definition secp256k1_ec_pubkey_tweak_mul (P : point) (tweak : list byte) : option point :=
  let t := be_int tweak in
  if (0 <? t) && (t <? CURVE_ORDER) then Some (pmul t P) else None.

(** [secp256k1_ec_pubkey_tweak_add]: fails when the tweak is not below
    the group order or the result is the point at infinity. *)
Definition secp256k1_ec_pubkey_tweak_add (P : point) (tweak : list byte) : option point :=
  let t := be_int tweak in
  if t <? CURVE_ORDER
  then let Q := padd P (pmul t generator) in
       if decide (Q = infinity) then None else Some Q
  else None.

End Library.

(** ** secp.cpp: PublicKey *)

Record PublicKey : Type := mkPublicKey {
  point_data_ : list byte;
  is_compressed_ : bool;
}.

(** [std::vector<uint8_t>::operator<]: lexicographic order. *)
Fixpoint bytes_ltb (a b : list byte) : bool :=
  match a, b with
  | _, [] => false
  | [], _ :: _ => true
  | x :: a', y :: b' =>
      if Z_of_byte x <? Z_of_byte y then true
      else if Z_of_byte y <? Z_of_byte x then false
      else bytes_ltb a' b'
  end.

Definition bytes_eqb (a b : list byte) : bool := bool_decide (a = b).

Module PublicKey_.
Section WithCurve.
Context {curve : Secp256k1}.
Import secp_utils.

(** [PublicKey()] *)
Definition default : PublicKey := mkPublicKey GENERATOR_POINT true.

Definition validate_point (pk : PublicKey) : result unit :=
match secp256k1_ec_pubkey_parse (point_data_ pk) with
| None => Throw (invalid_argument "Invalid public key point")
| Some _ => Ok tt
end.

Definition init_from_data (data : list byte) (raw : bool) : result PublicKey :=
pk ← (if raw then
        if negb (Nat.eqb (List.length data) 64)
        then Throw (invalid_argument "Raw public key data must be exactly 64 bytes")
        else Ok (mkPublicKey (x04 :: data) false)
      else
        if Nat.eqb (List.length data) 33
           && (bool_decide (head data = Some x02) || bool_decide (head data = Some x03))
        then Ok (mkPublicKey data true)
        else if Nat.eqb (List.length data) 65 && bool_decide (head data = Some x04)
        then Ok (mkPublicKey data false)
        else Throw (invalid_argument "Invalid public key format"));
_ ← validate_point pk;
Ok pk.

(** [PublicKey(const vector<uint8_t>& point_data, bool raw = false)] *)
Definition of_bytes (point_data : list byte) (raw : bool) : result PublicKey :=
init_from_data point_data raw.

(** [PublicKey(const string& hex_string)] *)
Definition of_hex (hex_string : string) : result PublicKey :=
init_from_data (hex_to_bytes hex_string) false.

Definition serialize (pk : PublicKey) (compressed : bool) : result (list byte) :=
match secp256k1_ec_pubkey_parse (point_data_ pk) with
| None => Throw (runtime_error "Failed to parse public key for serialization")
| Some pubkey => Ok (secp256k1_ec_pubkey_serialize pubkey compressed)
end.

Definition to_hex (pk : PublicKey) (compressed : bool) : result string :=
data ← serialize pk compressed; Ok (bytes_to_hex data).

Definition to_data (pk : PublicKey) : result (list byte) :=
match secp256k1_ec_pubkey_parse (point_data_ pk) with
| None => Throw (runtime_error "Failed to parse public key for to_data()")
| Some pubkey => Ok (pubkey_data pubkey)
end.

(** [operator+] *)
Definition add (pk other : PublicKey) : result PublicKey :=
match secp256k1_ec_pubkey_parse (point_data_ pk),
      secp256k1_ec_pubkey_parse (point_data_ other) with
| Some pubkey1, Some pubkey2 =>
    match secp256k1_ec_pubkey_combine [pubkey1; pubkey2] with
    | None => Throw (runtime_error "Failed to combine public keys")
    | Some sum => of_bytes (secp256k1_ec_pubkey_serialize sum true) false
    end
| _, _ => Throw (runtime_error "Failed to parse public keys for addition")
end.

(** unary [operator-] *)
Definition neg (pk : PublicKey) : result PublicKey :=
serialized ← serialize pk true;
serialized ← (if Nat.eqb (List.length serialized) 33 then
                match serialized with
                | b :: rest =>
                    if bool_decide (b = x02) then Ok (x03 :: rest)
                    else if bool_decide (b = x03) then Ok (x02 :: rest)
                    else Throw (runtime_error "Invalid compressed public key format for negation")
                | [] => Throw (runtime_error "Invalid compressed public key format for negation")
                end
              else Ok serialized);
of_bytes serialized false.

(** binary [operator-]: [*this + (-other)] *)
Definition sub (pk other : PublicKey) : result PublicKey :=
negated ← neg other; add pk negated.

Definition tweak_mul (pk : PublicKey) (scalar : Z) : result PublicKey :=
let scalar_bytes := be_bytes 32 (Z.rem scalar CURVE_ORDER) in
match secp256k1_ec_pubkey_parse (point_data_ pk) with
| None => Throw (runtime_error "Failed to parse public key for multiplication")
| Some pubkey =>
    match secp256k1_ec_pubkey_tweak_mul pubkey scalar_bytes with
    | None => Throw (runtime_error "Failed to multiply public key by scalar")
    | Some product => of_bytes (secp256k1_ec_pubkey_serialize product true) false
    end
end.

Definition mult (pk : PublicKey) (scalar : PrivateKey) : result PublicKey :=
tweak_mul pk (PrivateKey_.raw_value scalar).

Definition tweak_add (pk : PublicKey) (scalar : Z) : result PublicKey :=
let scalar_bytes := be_bytes 32 (Z.rem scalar CURVE_ORDER) in
match secp256k1_ec_pubkey_parse (point_data_ pk) with
| None => Throw (runtime_error "Failed to parse public key for tweak addition")
| Some pubkey =>
    match secp256k1_ec_pubkey_tweak_add pubkey scalar_bytes with
    | None => Throw (runtime_error "Failed to add scalar to public key")
    | Some sum => of_bytes (secp256k1_ec_pubkey_serialize sum true) false
    end
end.

(** [operator==] and [operator<] compare the results of [to_data()]. *)
Definition eqb (pk other : PublicKey) : result bool :=
data1 ← to_data pk; data2 ← to_data other; Ok (bytes_eqb data1 data2).

Definition ltb (pk other : PublicKey) : result bool :=
data1 ← to_data pk; data2 ← to_data other; Ok (bytes_ltb data1 data2).

Definition is_valid (pk : PublicKey) : bool :=
match secp256k1_ec_pubkey_parse (point_data_ pk) with
| Some _ => true
| None => false
end.

(** [static PublicKey combine(const vector<PublicKey>&)] *)
Definition combine (pubkeys : list PublicKey) : result PublicKey :=
match pubkeys with
| [] => Throw (invalid_argument "Cannot combine empty list of public keys")
| _ =>
    parsed_keys ← mapM (M := result) (fun pk =>
        match secp256k1_ec_pubkey_parse (point_data_ pk) with
        | None => Throw (runtime_error "Failed to parse public key for combination")
        | Some pubkey => Ok pubkey
        end) pubkeys;
    match secp256k1_ec_pubkey_combine parsed_keys with
    | None => Throw (runtime_error "Failed to combine public keys")
    | Some sum => of_bytes (secp256k1_ec_pubkey_serialize sum true) false
    end
end.

(** [PrivateKey::pubkey()] *)
Definition pubkey (k : PrivateKey) : result PublicKey :=
let privkey_bytes := be_bytes 32 (private_key_ k) in
match secp256k1_ec_pubkey_create privkey_bytes with
| None => Throw (runtime_error "Failed to create public key from private key")
| Some pubkey => of_bytes (secp256k1_ec_pubkey_serialize pubkey true) false
end.

End WithCurve.
End PublicKey_.

(** The point a well-formed [PublicKey] stands for. *)
Definition point_of `{Secp256k1} (pk : PublicKey) : option point :=
  secp256k1_ec_pubkey_parse (point_data_ pk).

Definition valid_point `{Secp256k1} (pk : PublicKey) : Prop :=
  exists P, point_of pk = Some P.

(** ** secp.cpp: random scalars *)

(** What one call of [secp_utils::generate_random_key] observes: the value
    returned by [RAND_bytes], the 32 bytes it wrote, and the 32 bytes the
    [mt19937] generator seeded from [random_device] yields. *)
Record random_draw : Type := {
  RAND_bytes_return : Z;
  RAND_bytes_buffer : list byte;
  mt19937_bytes : list byte;
}.

(** The random sources as a state: the draws still to come. *)
Definition random_source : Type := nat -> random_draw.

Definition rand (A : Type) : Type := random_source -> result (A * random_source).

#[global] Instance rand_ret : MRet rand := fun A a src => Ok (a, src).

#[global] Instance rand_bind : MBind rand := fun A B k m src =>
  match m src with
  | Ok (a, src') => k a src'
  | Throw e => Throw e
  end.

Definition lift {A : Type} (r : result A) : rand A := fun src =>
  match r with
  | Ok a => Ok (a, src)
  | Throw e => Throw e
  end.

Definition next_draw : rand random_draw := fun src => Ok (src O, fun i => src (S i)).

Module random_.

(** [secp_utils::generate_random_key] *)
Definition generate_random_key : rand PrivateKey :=
  draw ← next_draw;
  let random_bytes :=
    if negb (RAND_bytes_return draw =? 1)
    then mt19937_bytes draw
    else RAND_bytes_buffer draw in
  lift (PrivateKey_.of_bytes random_bytes).

(** [PrivateKey::PrivateKey()] *)
Definition PrivateKey_default : rand PrivateKey := generate_random_key.

End random_.

(** ** b_dhke.cpp *)

(** A result that may also still be running when the fuel given to an
    unbounded loop is used up ([None]). *)
Definition partial (A : Type) : Type := option A.

Module b_dhke.
Section WithLibraries.
Context {ssl : OpenSSL} {curve : Secp256k1}.
Import secp_utils.

(** "Secp256k1_HashToCurve_Cashu_" *)
Definition DOMAIN_SEPARATOR : list byte :=
[x53; x65; x63; x70; x32; x35; x36; x6b; x31; x5f; x48; x61;
 x73; x68; x54; x6f; x43; x75; x72; x76; x65; x5f; x43; x61;
 x73; x68; x75; x5f].

Definition sha256 (data : list byte) : list byte := SHA256 data.

Definition uint32_to_le_bytes (value : Z) : list byte :=
[byte_of_Z (Z.land value 255);
 byte_of_Z (Z.land (Z.shiftr value 8) 255);
 byte_of_Z (Z.land (Z.shiftr value 16) 255);
 byte_of_Z (Z.land (Z.shiftr value 24) 255)].

Definition concat_vectors (a b : list byte) : list byte := a ++ b.

(** One attempt of the loops of [hash_to_curve] and
  [hash_to_curve_deprecated]: the 33 bytes [0x02 ‖ hash_output] given
  to [PublicKey(point_data, false)]. *)
Definition try_point (hash_output : list byte) : result PublicKey :=
PublicKey_.of_bytes (x02 :: hash_output) false.

(** The loop [while (counter < (1 << 16))] of [hash_to_curve];
  [remaining] is the number of counter values still to try,
  [2^16 - counter]. *)
Fixpoint hash_to_curve_loop (remaining : nat) (counter : Z)
  (msg_to_hash : list byte) : result PublicKey :=
match remaining with
| O => Throw (runtime_error "No valid point found after 2^16 iterations")
| S remaining' =>
    let counter_bytes := uint32_to_le_bytes counter in
    let hash_input := concat_vectors msg_to_hash counter_bytes in
    let hash_output := sha256 hash_input in
    match try_point hash_output with
    | Ok P => Ok P
    | Throw _ => hash_to_curve_loop remaining' (counter + 1) msg_to_hash
    end
end.

(** [hash_to_curve(const vector<uint8_t>&)] *)
Definition hash_to_curve_bytes (message : list byte) : result PublicKey :=
let domain_and_message := concat_vectors DOMAIN_SEPARATOR message in
let msg_to_hash := sha256 domain_and_message in
hash_to_curve_loop (Z.to_nat (Z.shiftl 1 16)) 0 msg_to_hash.

(** [hash_to_curve(const string&)] *)
Definition hash_to_curve (message : string) : result PublicKey :=
hash_to_curve_bytes (list_byte_of_string message).

(** [step1_alice]; [blinding_factor] is the [optional<PrivateKey>]. *)
Definition step1_alice (secret_msg : string) (blinding_factor : option PrivateKey)
  : rand (PublicKey * PrivateKey) :=
Y ← lift (hash_to_curve secret_msg);
r ← match blinding_factor with
    | Some r => mret r
    | None => random_.PrivateKey_default
    end;
B_ ← lift (rG ← PublicKey_.pubkey r; PublicKey_.add Y rG);
mret (B_, r).

Definition hash_e (R1 R2 A C_ : PublicKey) : result (list byte) :=
hexes ← mapM (M := result) (fun pk =>
    uncompressed ← PublicKey_.serialize pk false;
    Ok (bytes_to_hex uncompressed)) [R1; R2; A; C_];
let e_string := fold_left String.append hexes "" in
Ok (sha256 (list_byte_of_string e_string)).

Definition step2_bob_dleq (B_ : PublicKey) (a : PrivateKey) (p_bytes : list byte)
  : rand (PrivateKey * PrivateKey) :=
_ ← random_.PrivateKey_default;
p ← match p_bytes with
    | _ :: _ => lift (PrivateKey_.of_bytes p_bytes)
    | [] => random_.PrivateKey_default
    end;
lift (
  R1 ← PublicKey_.pubkey p;
  R2 ← PublicKey_.mult B_ p;
  C_ ← PublicKey_.mult B_ a;
  A ← PublicKey_.pubkey a;
  e_bytes ← hash_e R1 R2 A C_;
  e ← PrivateKey_.of_bytes e_bytes;
  a_times_e ← PrivateKey_.tweak_mul a (PrivateKey_.raw_value e);
  s ← PrivateKey_.tweak_add p (PrivateKey_.raw_value a_times_e);
  Ok (e, s)).

(** [step2_bob]; the call [step2_bob_dleq(B_, a)] leaves [p_bytes] to its
  default argument, the empty vector. *)
Definition step2_bob (B_ : PublicKey) (a : PrivateKey)
  : rand (PublicKey * PrivateKey * PrivateKey) :=
C_ ← lift (PublicKey_.mult B_ a);
'(e, s) ← step2_bob_dleq B_ a [];
mret (C_, e, s).

Definition step3_alice (C_ : PublicKey) (r : PrivateKey) (A : PublicKey)
  : result PublicKey :=
r_times_A ← PublicKey_.mult A r;
PublicKey_.sub C_ r_times_A.

(** ** Deprecated functions *)

(** The loop [while (true)] of [hash_to_curve_deprecated], run for at
  most [fuel] iterations. *)
Fixpoint hash_to_curve_deprecated (fuel : nat) (msg_to_hash : list byte)
  : partial PublicKey :=
match fuel with
| O => None
| S fuel' =>
    let hash_output := sha256 msg_to_hash in
    match try_point hash_output with
    | Ok P => Some P
    | Throw _ => hash_to_curve_deprecated fuel' hash_output
    end
end.

Definition verify_deprecated (fuel : nat) (a : PrivateKey) (C : PublicKey)
  (secret_msg : string) : partial (result bool) :=
match hash_to_curve_deprecated fuel (list_byte_of_string secret_msg) with
| None => None
| Some Y =>
    Some (a_times_Y ← PublicKey_.mult Y a; PublicKey_.eqb C a_times_Y)
end.

(** [if (!valid) valid = fallback; return valid;] around a check that may
  have thrown. *)
Definition retry_if_invalid (valid : result bool) (fallback : partial (result bool))
  : partial (result bool) :=
match valid with
| Throw e => Some (Throw e)
| Ok true => Some (Ok true)
| Ok false => fallback
end.

Definition verify (fuel : nat) (a : PrivateKey) (C : PublicKey) (secret_msg : string)
  : partial (result bool) :=
retry_if_invalid
  (Y ← hash_to_curve secret_msg;
   a_times_Y ← PublicKey_.mult Y a;
   PublicKey_.eqb C a_times_Y)
  (verify_deprecated fuel a C secret_msg).

Definition alice_verify_dleq (B_ C_ : PublicKey) (e s : PrivateKey) (A : PublicKey)
  : result bool :=
s_times_G ← PublicKey_.pubkey s;
e_times_A ← PublicKey_.mult A e;
R1 ← PublicKey_.sub s_times_G e_times_A;
s_times_B_ ← PublicKey_.mult B_ s;
e_times_C_ ← PublicKey_.mult C_ e;
R2 ← PublicKey_.sub s_times_B_ e_times_C_;
computed_e ← hash_e R1 R2 A C_;
let provided_e := PrivateKey_.serialize e in
Ok (bytes_eqb computed_e provided_e).

Definition carol_verify_dleq_deprecated (fuel : nat) (secret_msg : string)
  (r : PrivateKey) (C : PublicKey) (e s : PrivateKey) (A : PublicKey)
  : partial (result bool) :=
match hash_to_curve_deprecated fuel (list_byte_of_string secret_msg) with
| None => None
| Some Y =>
    Some (r_times_A ← PublicKey_.mult A r;
          C_ ← PublicKey_.add C r_times_A;
          r_times_G ← PublicKey_.pubkey r;
          B_ ← PublicKey_.add Y r_times_G;
          alice_verify_dleq B_ C_ e s A)
end.

Definition carol_verify_dleq (fuel : nat) (secret_msg : string)
  (r : PrivateKey) (C : PublicKey) (e s : PrivateKey) (A : PublicKey)
  : partial (result bool) :=
retry_if_invalid
  (Y ← hash_to_curve secret_msg;
   r_times_A ← PublicKey_.mult A r;
   C_ ← PublicKey_.add C r_times_A;
   r_times_G ← PublicKey_.pubkey r;
   B_ ← PublicKey_.add Y r_times_G;
   alice_verify_dleq B_ C_ e s A)
  (carol_verify_dleq_deprecated fuel secret_msg r C e s A).

Definition step1_alice_deprecated (fuel : nat) (secret_msg : string)
  (blinding_factor : option PrivateKey) : partial (rand (PublicKey * PrivateKey)) :=
match hash_to_curve_deprecated fuel (list_byte_of_string secret_msg) with
| None => None
| Some Y =>
    Some (r ← match blinding_factor with
              | Some r => mret r
              | None => random_.PrivateKey_default
              end;
          B_ ← lift (rG ← PublicKey_.pubkey r; PublicKey_.add Y rG);
          mret (B_, r))
end.

End WithLibraries.
End b_dhke.

(** ** The C++ standard library pieces keys.cpp uses *)

Module cxx.
Import secp_utils.

(** [std::to_string] of a [size_t]. *)
Definition to_string (i : nat) : string :=
  NilZero.string_of_uint (Nat.to_uint i).

(** The segments successive calls of [getline(ss, segment, delim)]
    return until the stream is exhausted; [segment] collects the
    characters read since the last delimiter. *)
Fixpoint getline_all (delim : ascii) (segment : string) (s : string) : list string :=
  match s with
  | EmptyString => if String.eqb segment "" then [] else [segment]
  | String c rest =>
      if Ascii.eqb c delim
      then segment :: getline_all delim "" rest
      else getline_all delim (segment ++ String c "") rest
  end.

Fixpoint skip_spaces (s : string) : string :=
  match s with
  | String c rest => if is_space c then skip_spaces rest else s
  | EmptyString => s
  end.

Definition decimal_digit (c : ascii) : option Z :=
  let n := Z.of_N (N_of_ascii c) in
  if (48 <=? n) && (n <=? 57) then Some (n - 48) else None.

(** The value of the decimal digits [s] starts with; [None] when it
    starts with none. *)
Fixpoint leading_digits (acc : option Z) (s : string) : option Z :=
  match s with
  | String c rest =>
      match decimal_digit c with
      | Some d => leading_digits (Some (10 * default 0 acc + d)) rest
      | None => acc
      end
  | EmptyString => acc
  end.

(** What [strtol]/[strtoul] read in base 10: white space, one optional
    sign, digits; the rest of the string is ignored. *)
Definition signed_digits (s : string) : option (bool * Z) :=
  let s := skip_spaces s in
  let '(negative, s) :=
    match s with
    | String c rest =>
        if Ascii.eqb c "-" then (true, rest)
        else if Ascii.eqb c "+" then (false, rest)
        else (false, s)
    | EmptyString => (false, s)
    end in
  v ← leading_digits None s; Some (negative, v).

(** [std::stoul] with a 64-bit [unsigned long]. *)
Definition stoul (s : string) : result Z :=
  match signed_digits s with
  | None => Throw (invalid_argument "stoul")
  | Some (negative, v) =>
      if v >? 2 ^ 64 - 1 then Throw (out_of_range "stoul")
      else Ok (if negative then (- v) mod 2 ^ 64 else v)
  end.

(** [std::stoi] with a 32-bit [int]. *)
Definition stoi (s : string) : result Z :=
  match signed_digits s with
  | None => Throw (invalid_argument "stoi")
  | Some (negative, v) =>
      let x := if negative then - v else v in
      if (x <? - 2 ^ 31) || (x >? 2 ^ 31 - 1) then Throw (out_of_range "stoi")
      else Ok x
  end.

End cxx.

(** ** keys.cpp *)

Record VersionTuple : Type := mkVersionTuple { major : Z; minor : Z; patch : Z }.

Definition VersionTuple_ltb (v other : VersionTuple) : bool :=
  if negb (major v =? major other) then major v <? major other
  else if negb (minor v =? minor other) then minor v <? minor other
  else patch v <? patch other.

Record BIP32Helper : Type := mkBIP32Helper {
  seed_ : list byte;
  master_chain_code_ : list byte;
}.

Module keys.
Section WithLibraries.
Context {ssl : OpenSSL} {curve : Secp256k1}.

Definition sha256 (data : list byte) : list byte := SHA256 data.
Definition sha256_string (data : string) : list byte := SHA256 (list_byte_of_string data).
Definition hmac_sha512 (key data : list byte) : list byte := HMAC_SHA512 key data.
Definition bytes_to_hex : list byte -> string := secp_utils.bytes_to_hex.

Definition base64_chars : string :=
"ABCDEFGHIJKLMNOPQRSTUVWXYZabcdefghijklmnopqrstuvwxyz0123456789+/".

Definition base64_char (i : Z) : ascii :=
default "="%char (String.get (Z.to_nat i) base64_chars).

Fixpoint bytes_to_base64 (bytes : list byte) : string :=
match bytes with
| [] => ""
| [b0] =>
    let val := Z.shiftl (Z_of_byte b0) 16 in
    String (base64_char (Z.land (Z.shiftr val 18) 63))
      (String (base64_char (Z.land (Z.shiftr val 12) 63)) "==")
| [b0; b1] =>
    let val := Z.lor (Z.shiftl (Z_of_byte b0) 16) (Z.shiftl (Z_of_byte b1) 8) in
    String (base64_char (Z.land (Z.shiftr val 18) 63))
      (String (base64_char (Z.land (Z.shiftr val 12) 63))
      (String (base64_char (Z.land (Z.shiftr val 6) 63)) "="))
| b0 :: b1 :: b2 :: rest =>
    let val := Z.lor (Z.lor (Z.shiftl (Z_of_byte b0) 16) (Z.shiftl (Z_of_byte b1) 8))
                     (Z_of_byte b2) in
    String (base64_char (Z.land (Z.shiftr val 18) 63))
      (String (base64_char (Z.land (Z.shiftr val 12) 63))
      (String (base64_char (Z.land (Z.shiftr val 6) 63))
      (String (base64_char (Z.land val 63)) (bytes_to_base64 rest))))
end.

Definition uint32_to_big_endian (value : Z) : list byte :=
[byte_of_Z (Z.land (Z.shiftr value 24) 255);
 byte_of_Z (Z.land (Z.shiftr value 16) 255);
 byte_of_Z (Z.land (Z.shiftr value 8) 255);
 byte_of_Z (Z.land value 255)].

(** *** BIP32 *)

(** [BIP32Helper(mnemonic, passphrase)]: the passphrase is ignored. *)
Definition BIP32Helper_new (mnemonic : string) : BIP32Helper :=
let seed := list_byte_of_string mnemonic in
let master_result := hmac_sha512 (list_byte_of_string "Bitcoin seed") seed in
mkBIP32Helper seed (drop 32 master_result).

(** The body of the [while (getline(ss, segment, '/'))] loop. *)
Definition parse_segment (segment : string) : result Z :=
let hardened := bool_decide (String.get (String.length segment - 1) segment = Some "'"%char) in
let segment := if hardened then substring 0 (String.length segment - 1) segment else segment in
v ← cxx.stoul segment;
let index := v mod 2 ^ 32 in
Ok (if hardened then Z.lor index 0x80000000 else index).

Definition parse_path (path : string) : result (list Z) :=
match path with
| String c rest =>
    if negb (Ascii.eqb c "m") then Throw (invalid_argument "Path must start with 'm'")
    else
      mapM (M := result) parse_segment
        (filter (fun segment => segment <> "") (cxx.getline_all "/" "" rest))
| EmptyString => Throw (invalid_argument "Path must start with 'm'")
end.

Definition derive_child_key_with_chain_code (parent_key : PrivateKey)
  (parent_chain_code : list byte) (index : Z) : result (PrivateKey * list byte) :=
let parent_bytes := PrivateKey_.serialize parent_key in
let index_bytes := uint32_to_big_endian index in
let hardened := negb (Z.land index 0x80000000 =? 0) in
hmac_input ← (if hardened then Ok (x00 :: parent_bytes)
              else
                parent_pubkey ← PublicKey_.pubkey parent_key;
                PublicKey_.serialize parent_pubkey true);
let hmac_input := (hmac_input ++ index_bytes)%list in
let hmac_result := hmac_sha512 parent_chain_code hmac_input in
let child_key_scalar := take 32 hmac_result in
let child_chain_code := drop 32 hmac_result in
let scalar := be_int child_key_scalar in
let parent_scalar := PrivateKey_.raw_value parent_key in
let child_scalar := Z.rem (parent_scalar + scalar) CURVE_ORDER in
child ← PrivateKey_.of_int child_scalar;
Ok (child, child_chain_code).

(** The loop [for (uint32_t index : indices)] of [get_privkey_from_path]. *)
Fixpoint derive_levels (indices : list Z) (current_key : PrivateKey)
  (current_chain_code : list byte) : result PrivateKey :=
match indices with
| [] => Ok current_key
| index :: rest =>
    '(key, chain_code) ← derive_child_key_with_chain_code current_key current_chain_code index;
    derive_levels rest key chain_code
end.

Definition get_privkey_from_path (bip32 : BIP32Helper) (path : string) : result PrivateKey :=
indices ← parse_path path;
let master_result := hmac_sha512 (list_byte_of_string "Bitcoin seed") (seed_ bip32) in
let master_key_bytes := take 32 master_result in
let current_chain_code := drop 32 master_result in
current_key ← PrivateKey_.of_bytes master_key_bytes;
derive_levels indices current_key current_chain_code.

(** *** Key derivation *)

(** [result[amount]] on the left of an assignment:
  [unordered_map::operator[]] returns the entry of [amount] and, when
  the map has none, first inserts a value-initialised one.  For
  [PrivateKey] that is the default constructor [PrivateKey()], a random
  draw that is validated and may raise. *)
Definition operator_index (result_ : gmap Z PrivateKey) (amount : Z)
  : rand (gmap Z PrivateKey) :=
match result_ !! amount with
| Some _ => mret result_
| None =>
    fresh ← random_.PrivateKey_default;
    mret (<[amount := fresh]> result_)
end.

(** The three loops [for (size_t i = 0; i < amounts.size(); ++i)]; [i] is
  the index of the head of [amounts] and [result_] the map so far.  In
  [result[amounts[i]] = key] the right operand is evaluated before
  [operator[]] runs (the code uses structured bindings, hence C++17,
  where the right operand of an assignment is sequenced first). *)
Fixpoint derive_keys_loop (bip32 : BIP32Helper) (derivation_path : string) (i : nat)
  (amounts : list Z) (result_ : gmap Z PrivateKey) : rand (gmap Z PrivateKey) :=
match amounts with
| [] => mret result_
| amount :: rest =>
    let full_path := derivation_path ++ "/" ++ cxx.to_string i ++ "'" in
    key ← lift (get_privkey_from_path bip32 full_path);
    result_ ← operator_index result_ amount;
    derive_keys_loop bip32 derivation_path (S i) rest (<[amount := key]> result_)
end.

Definition derive_keys (mnemonic derivation_path : string) (amounts : list Z)
  : rand (gmap Z PrivateKey) :=
derive_keys_loop (BIP32Helper_new mnemonic) derivation_path 0 amounts ∅.

Fixpoint derive_keys_deprecated_pre_0_15_loop (seed derivation_path : string) (i : nat)
  (amounts : list Z) (result_ : gmap Z PrivateKey) : rand (gmap Z PrivateKey) :=
match amounts with
| [] => mret result_
| amount :: rest =>
    let combined := seed ++ derivation_path ++ cxx.to_string i in
    let hash := sha256_string combined in
    let key_bytes := take 32 hash in
    key ← lift (PrivateKey_.of_bytes key_bytes);
    result_ ← operator_index result_ amount;
    derive_keys_deprecated_pre_0_15_loop seed derivation_path (S i) rest
      (<[amount := key]> result_)
end.

Definition derive_keys_deprecated_pre_0_15 (seed : string) (amounts : list Z)
  (derivation_path : string) : rand (gmap Z PrivateKey) :=
derive_keys_deprecated_pre_0_15_loop seed derivation_path 0 amounts ∅.




Definition derive_pubkey (seed : string) : result PublicKey :=
let hash := sha256_string seed in
let key_bytes := take 32 hash in
private_key ← PrivateKey_.of_bytes key_bytes;
PublicKey_.pubkey private_key.

Fixpoint derive_pubkeys_loop (keys : gmap Z PrivateKey) (amounts : list Z)
  (result_ : gmap Z PublicKey) : result (gmap Z PublicKey) :=
match amounts with
| [] => Ok result_
| amount :: rest =>
    match keys !! amount with
    | Some key =>
        pk ← PublicKey_.pubkey key;
        derive_pubkeys_loop keys rest (<[amount := pk]> result_)
    | None => derive_pubkeys_loop keys rest result_
    end
end.

Definition derive_pubkeys (keys : gmap Z PrivateKey) (amounts : list Z)
  : result (gmap Z PublicKey) :=
derive_pubkeys_loop keys amounts ∅.

(** *** Keyset identifiers *)

(** [operator<] of [pair<cpp_int, PublicKey>] as [std::sort] uses it. The
  public keys are compared only between entries of equal amount, by
  their [to_data()] bytes. *)
Definition key_data (pk : PublicKey) : list byte :=
match PublicKey_.to_data pk with
| Ok data => data
| Throw _ => []
end.

Definition entry_ltb (a b : Z * PublicKey) : bool :=
(a.1 <? b.1) || (negb (b.1 <? a.1) && bytes_ltb (key_data a.2) (key_data b.2)).

(** The order [std::sort] establishes: no element is less than one
  before it. *)
Definition entry_le (a b : Z * PublicKey) : Prop := entry_ltb b a = false.

#[global] Instance entry_le_dec a b : Decision (entry_le a b).
Proof. unfold entry_le. apply _. Defined.

Definition sort_entries (entries : list (Z * PublicKey)) : list (Z * PublicKey) :=
merge_sort entry_le entries.

(** The loop concatenating the compressed serialisations. *)
Fixpoint concat_serialized (sorted_keys : list (Z * PublicKey)) : result (list byte) :=
match sorted_keys with
| [] => Ok []
| (amount, pubkey) :: rest =>
    serialized ← PublicKey_.serialize pubkey true;
    tail ← concat_serialized rest;
    Ok (serialized ++ tail)%list
end.

(** [derive_keyset_id]; [keys] is the sequence of the entries of the
  [unordered_map] in its iteration order. *)
Definition derive_keyset_id (keys : list (Z * PublicKey)) : result string :=
let sorted_keys := sort_entries keys in
pubkeys_concat ← concat_serialized sorted_keys;
let hash := sha256 pubkeys_concat in
let hex_hash := bytes_to_hex hash in
Ok ("00" ++ substring 0 14 hex_hash).

Fixpoint concat_hex (sorted_keys : list (Z * PublicKey)) : result string :=
match sorted_keys with
| [] => Ok ""
| (amount, pubkey) :: rest =>
    serialized ← PublicKey_.serialize pubkey true;
    tail ← concat_hex rest;
    Ok (bytes_to_hex serialized ++ tail)
end.

Definition derive_keyset_id_deprecated (keys : list (Z * PublicKey)) : result string :=
let sorted_keys := sort_entries keys in
pubkeys_concat ← concat_hex sorted_keys;
let hash := sha256_string pubkeys_concat in
let base64_hash := bytes_to_base64 hash in
Ok (substring 0 12 base64_hash).

(** *** Version-aware derivation *)

Definition parse_version (version_str : string) : result VersionTuple :=
let clean_version :=
  match version_str with
  | String c rest => if Ascii.eqb c "v" then rest else version_str
  | EmptyString => version_str
  end in
parts ← mapM (M := result) cxx.stoi
  (filter (fun segment => segment <> "") (cxx.getline_all "." "" clean_version));
let major := default 0 (parts !! 0%nat) in
let minor := default 0 (parts !! 1%nat) in
let patch := default 0 (parts !! 2%nat) in
Ok (mkVersionTuple major minor patch).


Definition derive_keyset_id_version_aware (keys : list (Z * PublicKey))
  (version : string) : result string :=
version_tuple ← parse_version version;
if VersionTuple_ltb version_tuple (mkVersionTuple 0 15 0) then
  derive_keyset_id_deprecated keys
else
  derive_keyset_id keys.

End WithLibraries.
End keys.

Import secp256k1_const secp_utils.

Lemma Z_of_byte_range b : 0 <= Z_of_byte b < 256.
Proof.
  unfold Z_of_byte. pose proof (Byte.to_N_bounded b) as Hb.
  lia.
Qed.

Lemma byte_of_Z_of_byte b : byte_of_Z (Z_of_byte b) = b.
Proof.
  unfold byte_of_Z. rewrite Z.mod_small by apply Z_of_byte_range.
  unfold Z_of_byte. rewrite N2Z.id, Byte.of_to_N. reflexivity.
Qed.

Lemma Z_of_byte_of_Z v : Z_of_byte (byte_of_Z v) = v mod 256.
Proof.
  unfold byte_of_Z, Z_of_byte.
  pose proof (Z.mod_pos_bound v 256 ltac:(lia)) as Hv.
  destruct (Byte.of_N (Z.to_N (v mod 256))) as [b|] eqn:E.
  - apply Byte.to_of_N in E. rewrite E. lia.
  - exfalso. pose proof (Byte.to_of_N_option_map (Z.to_N (v mod 256))) as H.
    rewrite E in H. simpl in H.
    destruct (N.leb_spec (Z.to_N (v mod 256)) 255); [discriminate | lia].
Qed.

Lemma land_255 v : Z.land v 255 = v mod 256.
Proof. change 255 with (Z.ones 8). rewrite Z.land_ones by lia. reflexivity. Qed.

Lemma shiftr_8 v : Z.shiftr v 8 = v / 256.
Proof. rewrite Z.shiftr_div_pow2 by lia. reflexivity. Qed.

Lemma shiftl_8 v : Z.shiftl v 8 = v * 256.
Proof. rewrite Z.shiftl_mul_pow2 by lia. reflexivity. Qed.

Lemma be_accumulate_app acc l1 l2 :
  be_accumulate acc (l1 ++ l2) = be_accumulate (be_accumulate acc l1) l2.
Proof. unfold be_accumulate. apply fold_left_app. Qed.

Lemma be_int_snoc l b : be_int (l ++ [b]) = be_int l * 256 + Z_of_byte b.
Proof.
  unfold be_int. rewrite be_accumulate_app. cbn. apply f_equal2; [apply shiftl_8 | reflexivity].
Qed.




Lemma be_bytes_length n : forall v, List.length (be_bytes n v) = n.
Proof.
  induction n as [|n IH]; intros v; cbn; [reflexivity|].
  rewrite length_app, IH. cbn. lia.
Qed.

Lemma be_bytes_be_int l : be_bytes (List.length l) (be_int l) = l.
Proof.
  induction l as [|b l IH] using rev_ind; [reflexivity|].
  rewrite length_app, Nat.add_1_r, be_int_snoc. cbn [be_bytes List.length].
  pose proof (Z_of_byte_range b) as Hb.
  rewrite shiftr_8, land_255.
  replace ((be_int l * 256 + Z_of_byte b) / 256) with (be_int l)
    by (apply Z.div_unique with (r := Z_of_byte b); lia).
  replace ((be_int l * 256 + Z_of_byte b) mod 256) with (Z_of_byte b)
    by (apply Z.mod_unique with (q := be_int l); lia).
  rewrite IH, byte_of_Z_of_byte. reflexivity.
Qed.

Lemma be_int_be_bytes n : forall v, be_int (be_bytes n v) = v mod 256 ^ Z.of_nat n.
Proof.
  induction n as [|n IH]; intros v.
  - cbn. rewrite Z.mod_1_r. reflexivity.
  - cbn [be_bytes]. rewrite be_int_snoc, IH, shiftr_8, land_255, Z_of_byte_of_Z.
    rewrite Z.mod_mod by lia.
    rewrite Nat2Z.inj_succ, Z.pow_succ_r by lia.
    assert (0 < 256 ^ Z.of_nat n) by (apply Z.pow_pos_nonneg; lia).
    rewrite Z.rem_mul_r by lia. lia.
Qed.

Lemma be_int_be_bytes_small n v :
  0 <= v < 256 ^ Z.of_nat n -> be_int (be_bytes n v) = v.
Proof. intros Hv. rewrite be_int_be_bytes. apply Z.mod_small, Hv. Qed.

Lemma CURVE_ORDER_lt : CURVE_ORDER < 256 ^ 32.
Proof. reflexivity. Qed.

Lemma be_int_be_bytes_scalar v : 0 <= v < CURVE_ORDER -> be_int (be_bytes 32 v) = v.
Proof. intros Hv. apply be_int_be_bytes_small. pose proof CURVE_ORDER_lt. simpl Z.of_nat. lia. Qed.

Local Close Scope string_scope.

(** ** SHA-2 and HMAC (FIPS 180-4, RFC 2104) *)

Module sha2.

Definition primes : list Z :=
  [2; 3; 5; 7; 11; 13; 17; 19; 23; 29; 31; 37; 41; 43; 47; 53; 59; 61; 67; 71;
   73; 79; 83; 89; 97; 101; 103; 107; 109; 113; 127; 131; 137; 139; 149; 151;
   157; 163; 167; 173; 179; 181; 191; 193; 197; 199; 211; 223; 227; 229; 233;
   239; 241; 251; 257; 263; 269; 271; 277; 281; 283; 293; 307; 311; 313; 317;
   331; 337; 347; 349; 353; 359; 367; 373; 379; 383; 389; 397; 401; 409].

(** Integer cube root, one bit at a time. *)
Fixpoint cube_root_bits (bits : nat) (x root : Z) : Z :=
  match bits with
  | O => root
  | S bits' =>
      let candidate := root + 2 ^ Z.of_nat bits' in
      if candidate * candidate * candidate <=? x
      then cube_root_bits bits' x candidate
      else cube_root_bits bits' x root
  end.

(** The first [bits] bits of the fractional parts of the cube roots
    (round constants) and of the square roots (initial state) of the
    first [count] primes. *)
Definition cube_root_fractions (bits : Z) (count : nat) : list Z :=
  (fun p => cube_root_bits (Z.to_nat bits + 3) (p * 2 ^ (3 * bits)) 0 mod 2 ^ bits)
    <$> take count primes.

Definition square_root_fractions (bits : Z) (count : nat) : list Z :=
  (fun p => Z.sqrt (p * 2 ^ (2 * bits)) mod 2 ^ bits) <$> take count primes.

Definition sha256_round_constants : list Z :=
  Eval vm_compute in cube_root_fractions 32 64.
Definition sha256_initial_state : list Z :=
  Eval vm_compute in square_root_fractions 32 8.
Definition sha512_round_constants : list Z :=
  Eval vm_compute in cube_root_fractions 64 80.
Definition sha512_initial_state : list Z :=
  Eval vm_compute in square_root_fractions 64 8.

(** The variant: word size, number of rounds, the rotation amounts of
    the four sigma functions, and the constants. *)
Record variant : Type := {
  word_bits : Z;
  rounds : nat;
  Sigma0 : Z * Z * Z;
  Sigma1 : Z * Z * Z;
  sigma0 : Z * Z * Z;
  sigma1 : Z * Z * Z;
  round_constants : list Z;
  initial_state : list Z;
}.

Definition sha256_variant : variant :=
  {| word_bits := 32; rounds := 64;
     Sigma0 := (2, 13, 22); Sigma1 := (6, 11, 25);
     sigma0 := (7, 18, 3); sigma1 := (17, 19, 10);
     round_constants := sha256_round_constants;
     initial_state := sha256_initial_state |}.

Definition sha512_variant : variant :=
  {| word_bits := 64; rounds := 80;
     Sigma0 := (28, 34, 39); Sigma1 := (14, 18, 41);
     sigma0 := (1, 8, 7); sigma1 := (19, 61, 6);
     round_constants := sha512_round_constants;
     initial_state := sha512_initial_state |}.

Section Variant.
Variable v : variant.

Definition modulus : Z := 2 ^ word_bits v.
Definition word_bytes : nat := Z.to_nat (word_bits v / 8).
Definition block_bytes : nat := (16 * word_bytes)%nat.

Definition add (x y : Z) : Z := (x + y) mod modulus.
Definition rotr (x n : Z) : Z :=
  Z.lor (Z.shiftr x n) (Z.shiftl x (word_bits v - n) mod modulus).

Definition big_sigma (r : Z * Z * Z) (x : Z) : Z :=
  Z.lxor (Z.lxor (rotr x r.1.1) (rotr x r.1.2)) (rotr x r.2).
Definition small_sigma (r : Z * Z * Z) (x : Z) : Z :=
  Z.lxor (Z.lxor (rotr x r.1.1) (rotr x r.1.2)) (Z.shiftr x r.2).
Definition Ch (x y z : Z) : Z := Z.lxor z (Z.land x (Z.lxor y z)).
Definition Maj (x y z : Z) : Z :=
  Z.lxor (Z.lxor (Z.land x y) (Z.land x z)) (Z.land y z).

(** Padding: a one bit, zeros, and the bit length of the message. *)
Definition pad (message : list byte) : list byte :=
  let len := List.length message in
  let length_bytes := (2 * word_bytes)%nat in
  let zeros := ((block_bytes - (len + 1 + length_bytes) mod block_bytes)
                mod block_bytes)%nat in
  message ++ [x80] ++ replicate zeros x00 ++ be_bytes length_bytes (8 * Z.of_nat len).

Fixpoint chunks {A : Type} (size fuel : nat) (l : list A) : list (list A) :=
  match fuel, l with
  | S fuel', _ :: _ => take size l :: chunks size fuel' (drop size l)
  | _, _ => []
  end.

(** The message schedule, most recent word first. *)
Fixpoint schedule (n : nat) (recent : list Z) : list Z :=
  match n with
  | O => recent
  | S n' =>
      let w := add (add (small_sigma (sigma1 v) (nth 1 recent 0)) (nth 6 recent 0))
                   (add (small_sigma (sigma0 v) (nth 14 recent 0)) (nth 15 recent 0)) in
      schedule n' (w :: recent)
  end.

Definition round (state : list Z) (kw : Z * Z) : list Z :=
  match state with
  | [a; b; c; d; e; f; g; h] =>
      let t1 := add (add (add h (big_sigma (Sigma1 v) e)) (Ch e f g)) (add kw.1 kw.2) in
      let t2 := add (big_sigma (Sigma0 v) a) (Maj a b c) in
      [add t1 t2; a; b; c; add d t1; e; f; g]
  | _ => state
  end.

Definition compress (state : list Z) (block : list byte) : list Z :=
  let first_words := be_int <$> chunks word_bytes 16 block in
  let words := rev (schedule (rounds v - 16) (rev first_words)) in
  let final := fold_left round (zip (round_constants v) words) state in
  zip_with add state final.

Definition digest (message : list byte) : list byte :=
  let padded := pad message in
  let blocks := chunks block_bytes (List.length padded) padded in
  let state := fold_left compress blocks (initial_state v) in
  concat (be_bytes word_bytes <$> take 8 (state ++ replicate 8 0)).

Lemma digest_length message : List.length (digest message) = (8 * word_bytes)%nat.
Proof.
  unfold digest.
  generalize (fold_left compress
    (chunks block_bytes (List.length (pad message)) (pad message)) (initial_state v)).
  intros state.
  assert (Hlen : List.length (take 8 (state ++ replicate 8 0)) = 8%nat).
  { rewrite length_take, length_app, length_replicate. lia. }
  revert Hlen. generalize (take 8 (state ++ replicate 8 0)). generalize 8%nat.
  intros n l. revert n. induction l as [|x l IH]; intros n Hn; cbn in *.
  - subst n. reflexivity.
  - destruct n as [|n]; [discriminate|]. injection Hn as Hn.
    rewrite length_app, be_bytes_length, (IH n Hn). lia.
Qed.

(** HMAC over this digest. *)
Definition hmac (key data : list byte) : list byte :=
  let key := if (block_bytes <? List.length key)%nat then digest key else key in
  let key := key ++ replicate (block_bytes - List.length key) x00 in
  let xor_with (c : Z) := (fun b => byte_of_Z (Z.lxor (Z_of_byte b) c)) <$> key in
  digest (xor_with 0x5c ++ digest (xor_with 0x36 ++ data)).

End Variant.

Definition SHA256 : list byte -> list byte := digest sha256_variant.
Definition SHA512 : list byte -> list byte := digest sha512_variant.
Definition HMAC_SHA512 : list byte -> list byte -> list byte := hmac sha512_variant.

End sha2.

Import secp_utils.
Example SHA256_abc :
  bytes_to_hex (sha2.SHA256 (list_byte_of_string "abc"))
  = "ba7816bf8f01cfea414140de5dae2223b00361a396177a9cb410ff61f20015ad"%string.
Proof. vm_compute. reflexivity. Qed.

Example SHA256_two_blocks :
  bytes_to_hex (sha2.SHA256 (replicate 119 "a"%byte))
  = "31eba51c313a5c08226adf18d4a359cfdfd8d2e816b13f4af952f7ea6584dcfb"%string.
Proof. vm_compute. reflexivity. Qed.

Example HMAC_SHA512_rfc4231 :
  bytes_to_hex (sha2.HMAC_SHA512 (replicate 20 x0b) (list_byte_of_string "Hi There"))
  = "87aa7cdea5ef619d4ff0b4241a1d6cb02379f4e2ce4ec2787ad0b30545e17cdedaa833b7d6b8a702038b274eaea3f4e4be9d914eeb61f1702e696c203a126854"%string.
Proof. vm_compute. reflexivity. Qed.

Local Open Scope string_scope.
Local Open Scope Z_scope.

Import secp256k1_const secp_utils.

Lemma stream_hex_of_byte b :
  byte_of_Z (stream_hex (hex_char (Z_of_byte b / 16)) (Some (hex_char (Z_of_byte b mod 16)))) = b.
Proof. destruct b; vm_compute; reflexivity. Qed.

Lemma hex_chunks_pair c1 c2 s :
  hex_chunks (String c1 (String c2 s)) = byte_of_Z (stream_hex c1 (Some c2)) :: hex_chunks s.
Proof. reflexivity. Qed.

Lemma bytes_to_hex_cons b l :
  bytes_to_hex (b :: l) =
  String (hex_char (Z_of_byte b / 16)) (String (hex_char (Z_of_byte b mod 16)) (bytes_to_hex l)).
Proof. reflexivity. Qed.

Lemma hex_chunks_bytes_to_hex l : hex_chunks (bytes_to_hex l) = l.
Proof.
  induction l as [|b l IH]; [reflexivity|].
  rewrite bytes_to_hex_cons, hex_chunks_pair, stream_hex_of_byte, IH. reflexivity.
Qed.

Lemma bytes_to_hex_length l : String.length (bytes_to_hex l) = (2 * List.length l)%nat.
Proof.
  induction l as [|b l IH]; [reflexivity|].
  rewrite bytes_to_hex_cons. cbn [String.length List.length]. lia.
Qed.

Lemma hex_char_not_x d : Ascii.eqb (hex_char (d mod 16)) "x" = false /\
                         Ascii.eqb (hex_char (d mod 16)) "X" = false.
Proof.
  pose proof (Z.mod_pos_bound d 16 ltac:(lia)) as Hd.
  assert (Hcases : In (d mod 16) [0;1;2;3;4;5;6;7;8;9;10;11;12;13;14;15]) by (cbn; lia).
  cbn in Hcases.
  repeat (destruct Hcases as [<- | Hcases]; [split; reflexivity|]). contradiction.
Qed.

Lemma bytes_to_hex_no_prefix l :
  String.eqb (substring 0 2 (bytes_to_hex l)) "0x" || String.eqb (substring 0 2 (bytes_to_hex l)) "0X"
  = false.
Proof.
  destruct l as [|b l]; [reflexivity|].
  rewrite bytes_to_hex_cons. cbn [substring].
  assert (Hsub : forall s, substring 0 0 s = "") by (intros []; reflexivity).
  rewrite Hsub. cbn [String.eqb].
  destruct (hex_char_not_x (Z_of_byte b)) as [-> ->].
  rewrite !Tauto.if_same. reflexivity.
Qed.

Lemma hex_to_bytes_to_hex l : hex_to_bytes (bytes_to_hex l) = l.
Proof.
  unfold hex_to_bytes. rewrite bytes_to_hex_no_prefix.
  rewrite bytes_to_hex_length.
  replace (2 * List.length l)%nat with (List.length l * 2)%nat by lia.
  rewrite Nat.Div0.mod_mul. cbn [Nat.eqb negb].
  apply hex_chunks_bytes_to_hex.
Qed.

Definition out_of_range_error : exn :=
  invalid_argument "Private key must be in range [1, curve_order)".

Lemma of_int_spec v :
  PrivateKey_.of_int v =
    if bool_decide (1 <= v < CURVE_ORDER) then Ok (mkPrivateKey v) else Throw out_of_range_error.
Proof.
  unfold PrivateKey_.of_int, PrivateKey_.validate_key, is_valid_private_key. cbn [private_key_].
  case_bool_decide as Hv.
  - replace (v >? 0) with true by lia. replace (v <? CURVE_ORDER) with true by lia. reflexivity.
  - destruct (Z.gtb_spec v 0), (Z.ltb_spec v CURVE_ORDER); try reflexivity. lia.
Qed.

Lemma of_bytes_spec key_data :
  List.length key_data = 32%nat ->
  PrivateKey_.of_bytes key_data = PrivateKey_.of_int (be_int key_data).
Proof.
  intros Hlen. unfold PrivateKey_.of_bytes. rewrite Hlen. reflexivity.
Qed.

Lemma of_hex_spec key_data :
  List.length key_data = 32%nat ->
  PrivateKey_.of_hex (bytes_to_hex key_data) = PrivateKey_.of_int (be_int key_data).
Proof.
  intros Hlen. unfold PrivateKey_.of_hex. rewrite hex_to_bytes_to_hex, Hlen. reflexivity.
Qed.

(** C7 (scalar range validation).  For every 32-byte input, with [v] the
    big-endian value it encodes, the three constructors of [PrivateKey]
    (from the bytes, from their hex text and from the integer) return the
    key [v] exactly when [1 <= v < CURVE_ORDER] and raise
    [invalid_argument "Private key must be in range [1, curve_order)"]
    otherwise.  At [CURVE_ORDER - 1] construction succeeds; at [0], at
    [CURVE_ORDER] and at every value outside the range it raises. *)
Theorem scalar_range_validation (key_data : list byte) :
  List.length key_data = 32%nat ->
  let value := be_int key_data in
  let outcome :=
    if bool_decide (1 <= value < CURVE_ORDER)
    then Ok (mkPrivateKey value)
    else Throw (invalid_argument "Private key must be in range [1, curve_order)") in
  PrivateKey_.of_bytes key_data = outcome /\
  PrivateKey_.of_hex (bytes_to_hex key_data) = outcome /\
  PrivateKey_.of_int value = outcome /\
  PrivateKey_.of_bytes (be_bytes 32 (CURVE_ORDER - 1)) = Ok (mkPrivateKey (CURVE_ORDER - 1)) /\
  PrivateKey_.of_bytes (be_bytes 32 0) = Throw (invalid_argument "Private key must be in range [1, curve_order)") /\
  PrivateKey_.of_bytes (be_bytes 32 CURVE_ORDER) = Throw (invalid_argument "Private key must be in range [1, curve_order)") /\
  (forall v, CURVE_ORDER <= v \/ v <= 0 ->
     PrivateKey_.of_int v = Throw (invalid_argument "Private key must be in range [1, curve_order)")).
Proof.
  intros Hlen value outcome.
  refine (conj _ (conj _ (conj _ (conj _ (conj _ (conj _ _)))))).
  - rewrite of_bytes_spec by exact Hlen. apply of_int_spec.
  - rewrite of_hex_spec by exact Hlen. apply of_int_spec.
  - apply of_int_spec.
  - vm_compute. reflexivity.
  - vm_compute. reflexivity.
  - vm_compute. reflexivity.
  - intros v Hv. rewrite of_int_spec. case_bool_decide; [lia | reflexivity].
Qed.

Lemma scalar_range_validation_witness :
  PrivateKey_.of_hex "fffffffffffffffffffffffffffffffebaaedce6af48a03bbfd25e8cd0364140"
  = Ok (mkPrivateKey (CURVE_ORDER - 1)).
Proof.
  pose proof (scalar_range_validation (be_bytes 32 (CURVE_ORDER - 1)) eq_refl) as H.
  cbv zeta in H. destruct H as (_ & H & _).
  exact H.
Defined.

Import secp256k1_const secp_utils.

Section Group.
Context {curve : Secp256k1}.

Lemma padd_infinity_r P : padd P infinity = P.
Proof. rewrite padd_comm. apply padd_infinity_l. Qed.

Lemma padd_pneg_l P : padd (pneg P) P = infinity.
Proof. rewrite padd_comm. apply padd_pneg_r. Qed.

Lemma padd_cancel_r P Q R : padd P R = padd Q R -> P = Q.
Proof.
  intros H. apply (f_equal (fun X => padd X (pneg R))) in H.
  rewrite <- !padd_assoc, padd_pneg_r, !padd_infinity_r in H. exact H.
Qed.

Lemma padd_eq_infinity P Q : padd P Q = infinity <-> P = pneg Q.
Proof.
  split; intros H.
  - apply (padd_cancel_r _ _ Q). rewrite H, padd_pneg_l. reflexivity.
  - subst P. apply padd_pneg_l.
Qed.

Lemma pneg_infinity : pneg infinity = infinity.
Proof. symmetry. apply padd_eq_infinity, padd_infinity_l. Qed.

Lemma pneg_involutive P : pneg (pneg P) = P.
Proof. symmetry. apply padd_eq_infinity, padd_pneg_r. Qed.

Lemma pneg_finite P : P <> infinity -> pneg P <> infinity.
Proof.
  intros HP H. apply HP. rewrite <- (pneg_involutive P), H. apply pneg_infinity.
Qed.

Lemma pneg_padd P Q : pneg (padd P Q) = padd (pneg P) (pneg Q).
Proof.
  symmetry. apply padd_eq_infinity.
  rewrite (padd_comm P Q), padd_assoc, <- (padd_assoc (pneg P)), padd_pneg_l,
    padd_infinity_r. apply padd_pneg_l.
Qed.

Lemma padd_sub_cancel P Q : padd (padd P Q) (pneg Q) = P.
Proof. rewrite <- padd_assoc, padd_pneg_r. apply padd_infinity_r. Qed.

Lemma padd_pneg_eq_infinity P Q : padd P (pneg Q) = infinity <-> P = Q.
Proof. rewrite padd_eq_infinity, pneg_involutive. reflexivity. Qed.

(** *** Scalar multiplication *)

Lemma iter_succ p P : Pos.iter_op padd (Pos.succ p) P = padd P (Pos.iter_op padd p P).
Proof. apply Pos.iter_op_succ. intros. apply padd_assoc. Qed.

Lemma iter_add p q P :
  Pos.iter_op padd (p + q) P = padd (Pos.iter_op padd p P) (Pos.iter_op padd q P).
Proof.
  induction p as [|p IH] using Pos.peano_ind.
  - rewrite Pos.add_1_l. apply iter_succ.
  - rewrite Pos.add_succ_l, !iter_succ, IH. apply padd_assoc.
Qed.

Lemma pmul_0 P : pmul 0 P = infinity.
Proof. reflexivity. Qed.

Lemma pmul_1 P : pmul 1 P = P.
Proof. reflexivity. Qed.

Lemma pmul_add a b P :
  0 <= a -> 0 <= b -> pmul (a + b) P = padd (pmul a P) (pmul b P).
Proof.
  intros Ha Hb. destruct a as [|a|a], b as [|b|b]; try lia; cbn [Z.add pmul].
  - symmetry. apply padd_infinity_l.
  - symmetry. apply padd_infinity_l.
  - symmetry. apply padd_infinity_r.
  - apply iter_add.
Qed.

Lemma pmul_succ a P : 0 <= a -> pmul (Z.succ a) P = padd P (pmul a P).
Proof.
  intros Ha. unfold Z.succ. rewrite pmul_add by lia. rewrite pmul_1. apply padd_comm.
Qed.

Lemma pmul_infinity k : 0 <= k -> pmul k infinity = infinity.
Proof.
  intros Hk. pattern k. apply natlike_ind; [reflexivity | | exact Hk].
  intros x Hx IH. rewrite pmul_succ, IH by exact Hx. apply padd_infinity_l.
Qed.

Lemma pmul_padd k P Q :
  0 <= k -> pmul k (padd P Q) = padd (pmul k P) (pmul k Q).
Proof.
  intros Hk. pattern k. apply natlike_ind; [| | exact Hk].
  - cbn. symmetry. apply padd_infinity_l.
  - intros x Hx IH. rewrite !pmul_succ, IH by exact Hx.
    rewrite <- !padd_assoc. f_equal.
    rewrite (padd_comm Q), <- padd_assoc. f_equal. apply padd_comm.
Qed.

Lemma pmul_mul a b P : 0 <= a -> 0 <= b -> pmul (a * b) P = pmul a (pmul b P).
Proof.
  intros Ha Hb. pattern a. apply natlike_ind; [reflexivity | | exact Ha].
  intros x Hx IH. rewrite Z.mul_succ_l, pmul_add, IH, pmul_succ by nia.
  apply padd_comm.
Qed.

Lemma pmul_pneg k P : 0 <= k -> pmul k (pneg P) = pneg (pmul k P).
Proof.
  intros Hk. apply padd_eq_infinity.
  rewrite <- pmul_padd, padd_pneg_l by exact Hk. apply pmul_infinity, Hk.
Qed.

Lemma pmul_order P : pmul CURVE_ORDER P = infinity.
Proof. apply curve_order. Qed.

Lemma pmul_mod k P : 0 <= k -> pmul (k mod CURVE_ORDER) P = pmul k P.
Proof.
  intros Hk.
  assert (Hn : 0 < CURVE_ORDER) by reflexivity.
  pose proof (Z.mod_pos_bound k CURVE_ORDER Hn) as Hm.
  pose proof (Z.div_pos k CURVE_ORDER Hk Hn) as Hq.
  rewrite (Z.div_mod k CURVE_ORDER) at 2 by lia.
  rewrite pmul_add by nia.
  rewrite (Z.mul_comm CURVE_ORDER), pmul_mul, pmul_order, pmul_infinity by lia.
  symmetry. apply padd_infinity_l.
Qed.

Lemma pmul_finite k P :
  0 < k < CURVE_ORDER -> P <> infinity -> pmul k P <> infinity.
Proof.
  intros Hk HP. destruct k as [|k|k]; try lia. cbn [pmul].
  apply curve_order_prime; [|exact HP].
  pose proof (Z2Pos.id CURVE_ORDER eq_refl). lia.
Qed.

Lemma pmul_eq_infinity k P :
  0 <= k -> P <> infinity -> pmul k P = infinity <-> k mod CURVE_ORDER = 0.
Proof.
  intros Hk HP. rewrite <- pmul_mod by exact Hk.
  pose proof (Z.mod_pos_bound k CURVE_ORDER ltac:(reflexivity)) as Hm.
  split; intros H.
  - destruct (Z.eq_dec (k mod CURVE_ORDER) 0) as [|Hne]; [assumption|].
    exfalso. apply (pmul_finite (k mod CURVE_ORDER) P); [lia | exact HP | exact H].
  - rewrite H. reflexivity.
Qed.

End Group.

Import secp256k1_const secp_utils.

(** The key every point operation of [PublicKey] returns for the point
    [P]: its compressed serialisation. *)
Definition compressed_key `{Secp256k1} (P : point) : PublicKey :=
  mkPublicKey (secp256k1_ec_pubkey_serialize P true) true.

Definition combine_error : exn := runtime_error "Failed to combine public keys".

Section PublicKeyFacts.
Context {curve : Secp256k1}.

Lemma serialize_compressed_length P :
  List.length (secp256k1_ec_pubkey_serialize P true) = 33%nat.
Proof. cbn. rewrite xcoord_length. reflexivity. Qed.

Lemma serialize_uncompressed_length P :
  List.length (secp256k1_ec_pubkey_serialize P false) = 65%nat.
Proof. cbn. rewrite length_app, xcoord_length, ycoord_length. reflexivity. Qed.

Lemma of_bytes_compressed P :
  P <> infinity ->
  PublicKey_.of_bytes (secp256k1_ec_pubkey_serialize P true) false = Ok (compressed_key P).
Proof.
  intros HP. unfold PublicKey_.of_bytes, PublicKey_.init_from_data.
  rewrite serialize_compressed_length. cbn [Nat.eqb andb].
  assert (Hhead : bool_decide (head (secp256k1_ec_pubkey_serialize P true) = Some x02)
                  || bool_decide (head (secp256k1_ec_pubkey_serialize P true) = Some x03) = true).
  { cbn. destruct (y_is_odd P); reflexivity. }
  rewrite Hhead. cbn [mbind result_bind].
  unfold PublicKey_.validate_point, secp256k1_ec_pubkey_parse. cbn [point_data_].
  cbn [secp256k1_ec_pubkey_serialize]. rewrite pubkey_parse_compressed by exact HP.
  reflexivity.
Qed.

Lemma point_of_compressed_key P : P <> infinity -> point_of (compressed_key P) = Some P.
Proof. intros HP. apply pubkey_parse_compressed, HP. Qed.

Lemma point_of_finite pk P : point_of pk = Some P -> P <> infinity.
Proof. apply pubkey_parse_finite. Qed.

Lemma PublicKey_serialize_spec pk P compressed :
  point_of pk = Some P ->
  PublicKey_.serialize pk compressed = Ok (secp256k1_ec_pubkey_serialize P compressed).
Proof. unfold point_of, PublicKey_.serialize. intros ->. reflexivity. Qed.

Lemma PublicKey_add_spec pk1 pk2 P1 P2 :
  point_of pk1 = Some P1 -> point_of pk2 = Some P2 ->
  PublicKey_.add pk1 pk2 =
    if decide (padd P1 P2 = infinity) then Throw combine_error
    else Ok (compressed_key (padd P1 P2)).
Proof.
  unfold point_of, PublicKey_.add. intros -> ->.
  unfold secp256k1_ec_pubkey_combine. cbn [fold_left]. rewrite padd_infinity_l.
  destruct (decide (padd P1 P2 = infinity)) as [|Hne]; [reflexivity|].
  apply of_bytes_compressed, Hne.
Qed.

Lemma serialize_pneg P :
  P <> infinity ->
  secp256k1_ec_pubkey_serialize (pneg P) true =
    (if y_is_odd P then x02 else x03) :: xcoord P.
Proof.
  intros HP. cbn. rewrite xcoord_pneg, y_is_odd_pneg by exact HP.
  destruct (y_is_odd P); reflexivity.
Qed.

Lemma PublicKey_neg_spec pk P :
  point_of pk = Some P -> PublicKey_.neg pk = Ok (compressed_key (pneg P)).
Proof.
  intros Hpk. pose proof (point_of_finite _ _ Hpk) as HP.
  unfold PublicKey_.neg. rewrite (PublicKey_serialize_spec _ _ _ Hpk). cbn [mbind result_bind].
  rewrite serialize_compressed_length. cbn [Nat.eqb].
  rewrite <- (of_bytes_compressed (pneg P)) by (apply pneg_finite, HP).
  rewrite serialize_pneg by exact HP.
  cbn [secp256k1_ec_pubkey_serialize].
  destruct (y_is_odd P); reflexivity.
Qed.

Lemma PublicKey_sub_spec pk1 pk2 P1 P2 :
  point_of pk1 = Some P1 -> point_of pk2 = Some P2 ->
  PublicKey_.sub pk1 pk2 =
    if decide (P1 = P2) then Throw combine_error
    else Ok (compressed_key (padd P1 (pneg P2))).
Proof.
  intros H1 H2. pose proof (point_of_finite _ _ H2) as HP2.
  unfold PublicKey_.sub. rewrite (PublicKey_neg_spec _ _ H2). cbn [mbind result_bind].
  rewrite (PublicKey_add_spec _ _ P1 (pneg P2) H1)
    by (apply point_of_compressed_key, pneg_finite, HP2).
  destruct (decide (P1 = P2)) as [->|Hne].
  - rewrite decide_True by apply padd_pneg_r. reflexivity.
  - rewrite decide_False; [reflexivity|]. intros H. apply Hne, padd_pneg_eq_infinity, H.
Qed.

Lemma scalar_bytes k :
  0 < k < CURVE_ORDER -> be_int (be_bytes 32 (Z.rem k CURVE_ORDER)) = k.
Proof.
  intros Hk. rewrite Z.rem_small by lia. apply be_int_be_bytes_scalar. lia.
Qed.

Lemma PublicKey_tweak_mul_spec pk P k :
  point_of pk = Some P -> 0 < k < CURVE_ORDER ->
  PublicKey_.tweak_mul pk k = Ok (compressed_key (pmul k P)).
Proof.
  intros Hpk Hk. unfold PublicKey_.tweak_mul. unfold point_of in Hpk. rewrite Hpk.
  unfold secp256k1_ec_pubkey_tweak_mul. rewrite scalar_bytes by exact Hk.
  replace (0 <? k) with true by lia. replace (k <? CURVE_ORDER) with true by lia.
  cbn [andb]. apply of_bytes_compressed, pmul_finite; [exact Hk|].
  eapply point_of_finite. exact Hpk.
Qed.

Lemma PublicKey_mult_spec pk P k :
  point_of pk = Some P -> valid_scalar k ->
  PublicKey_.mult pk k = Ok (compressed_key (pmul (private_key_ k) P)).
Proof. intros Hpk Hk. apply PublicKey_tweak_mul_spec; assumption. Qed.

Lemma PublicKey_pubkey_spec k :
  valid_scalar k ->
  PublicKey_.pubkey k = Ok (compressed_key (pmul (private_key_ k) generator)).
Proof.
  intros Hk. unfold PublicKey_.pubkey, secp256k1_ec_pubkey_create.
  rewrite be_int_be_bytes_scalar by (unfold valid_scalar in Hk; lia).
  unfold valid_scalar in Hk.
  replace (0 <? private_key_ k) with true by lia.
  replace (private_key_ k <? CURVE_ORDER) with true by lia.
  cbn [andb]. apply of_bytes_compressed, pmul_finite; [exact Hk | apply generator_finite].
Qed.

Lemma PublicKey_eqb_spec pk1 pk2 P1 P2 :
  point_of pk1 = Some P1 -> point_of pk2 = Some P2 ->
  PublicKey_.eqb pk1 pk2 = Ok (bool_decide (P1 = P2)).
Proof.
  unfold point_of, PublicKey_.eqb, PublicKey_.to_data. intros -> ->.
  cbn [mbind result_bind]. unfold bytes_eqb. f_equal.
  apply bool_decide_ext. split; [|intros ->; reflexivity]. apply pubkey_data_inj.
Qed.

Lemma valid_scalar_of_bytes key_data k :
  PrivateKey_.of_bytes key_data = Ok k ->
  valid_scalar k /\ List.length key_data = 32%nat /\ private_key_ k = be_int key_data.
Proof.
  unfold PrivateKey_.of_bytes. destruct (Nat.eqb_spec (List.length key_data) 32) as [Hlen|];
    [|discriminate].
  cbn [negb]. fold (PrivateKey_.of_int (be_int key_data)). rewrite of_int_spec.
  case_bool_decide as Hv; [|discriminate]. intros [= <-].
  unfold valid_scalar. cbn. repeat split; lia || assumption.
Qed.

Lemma valid_scalar_of_int v k : PrivateKey_.of_int v = Ok k -> valid_scalar k /\ private_key_ k = v.
Proof.
  rewrite of_int_spec. case_bool_decide as Hv; [|discriminate]. intros [= <-].
  unfold valid_scalar. cbn. split; [lia | reflexivity].
Qed.

Lemma serialize_scalar k :
  valid_scalar k -> be_int (PrivateKey_.serialize k) = private_key_ k.
Proof.
  intros Hk. apply be_int_be_bytes_scalar. unfold valid_scalar in Hk. lia.
Qed.

End PublicKeyFacts.

Import secp256k1_const secp_utils.

(** ** Inversion of the monadic binds *)

Lemma result_bind_Ok {A B : Type} (m : result A) (k : A -> result B) b :
  m ≫= k = Ok b -> exists a, m = Ok a /\ k a = Ok b.
Proof. destruct m as [a|e]; [|discriminate]. intros H. exists a. split; [reflexivity | exact H]. Qed.

Lemma rand_bind_Ok {A B : Type} (m : rand A) (k : A -> rand B) src b src' :
  (m ≫= k) src = Ok (b, src') -> exists a src1, m src = Ok (a, src1) /\ k a src1 = Ok (b, src').
Proof.
  unfold mbind, rand_bind. destruct (m src) as [[a src1]|e]; [|discriminate].
  intros H. exists a, src1. split; [reflexivity | exact H].
Qed.

Lemma lift_Ok {A : Type} (r : result A) src a src' :
  lift r src = Ok (a, src') -> r = Ok a /\ src' = src.
Proof. unfold lift. destruct r; [|discriminate]. intros [= -> ->]. split; reflexivity. Qed.

Lemma rand_ret_Ok {A : Type} (a b : A) (src src' : random_source) :
  mret (M := rand) a src = Ok (b, src') -> b = a /\ src' = src.
Proof. intros [= -> ->]. split; reflexivity. Qed.

Lemma PrivateKey_default_valid src k src' :
  random_.PrivateKey_default src = Ok (k, src') -> valid_scalar k.
Proof.
  unfold random_.PrivateKey_default, random_.generate_random_key.
  intros H. apply rand_bind_Ok in H as (draw & src1 & _ & H).
  apply lift_Ok in H as [H _]. apply valid_scalar_of_bytes in H. tauto.
Qed.

Section HashToCurve.
Context {ssl : OpenSSL} {curve : Secp256k1}.
Import b_dhke.

Definition no_point_error : exn := runtime_error "No valid point found after 2^16 iterations".

Lemma try_point_spec hash_output :
  List.length hash_output = 32%nat ->
  try_point hash_output =
    match pubkey_parse (x02 :: hash_output) with
    | Some _ => Ok (mkPublicKey (x02 :: hash_output) true)
    | None => Throw (invalid_argument "Invalid public key point")
    end.
Proof.
  intros Hlen. unfold try_point, PublicKey_.of_bytes, PublicKey_.init_from_data.
  cbn [List.length]. rewrite Hlen. cbn [Nat.eqb andb head].
  rewrite bool_decide_eq_true_2 by reflexivity. cbn [orb mbind result_bind].
  unfold PublicKey_.validate_point, secp256k1_ec_pubkey_parse. cbn [point_data_].
  destruct (pubkey_parse (x02 :: hash_output)); reflexivity.
Qed.

Lemma try_point_valid hash_output Y :
  try_point hash_output = Ok Y -> valid_point Y.
Proof.
  unfold try_point, PublicKey_.of_bytes, PublicKey_.init_from_data.
  intros H. apply result_bind_Ok in H as (pk & _ & H).
  apply result_bind_Ok in H as ([] & Hv & [= <-]).
  unfold PublicKey_.validate_point in Hv. unfold valid_point, point_of.
  destruct (secp256k1_ec_pubkey_parse (point_data_ pk)) as [P|]; [|discriminate].
  exists P. reflexivity.
Qed.

(** The point candidate for the counter value [c]. *)
Definition candidate (msg_to_hash : list byte) (c : Z) : list byte :=
  x02 :: SHA256 (msg_to_hash ++ uint32_to_le_bytes c).

Lemma hash_to_curve_loop_spec msg_to_hash remaining : forall counter,
  (exists k : nat, (k < remaining)%nat /\
     pubkey_parse (candidate msg_to_hash (counter + Z.of_nat k)) <> None /\
     (forall j : nat, (j < k)%nat ->
        pubkey_parse (candidate msg_to_hash (counter + Z.of_nat j)) = None) /\
     hash_to_curve_loop remaining counter msg_to_hash =
       Ok (mkPublicKey (candidate msg_to_hash (counter + Z.of_nat k)) true))
  \/ ((forall j : nat, (j < remaining)%nat ->
        pubkey_parse (candidate msg_to_hash (counter + Z.of_nat j)) = None) /\
      hash_to_curve_loop remaining counter msg_to_hash = Throw no_point_error).
Proof.
  induction remaining as [|remaining IH]; intros counter.
  - right. split; [intros j Hj; lia | reflexivity].
  - cbn [hash_to_curve_loop]. unfold concat_vectors, sha256.
    rewrite try_point_spec by apply SHA256_length.
    fold (candidate msg_to_hash counter).
    destruct (pubkey_parse (candidate msg_to_hash counter)) as [P|] eqn:Hparse.
    + left. exists 0%nat. rewrite Z.add_0_r.
      split; [lia|]. split; [congruence|]. split; [intros j Hj; lia | reflexivity].
    + destruct (IH (counter + 1)) as [(k & Hk & Hfound & Hfirst & Hres) | [Hnone Hres]].
      * left. exists (S k).
        replace (counter + Z.of_nat (S k)) with (counter + 1 + Z.of_nat k) by lia.
        split; [lia|]. split; [exact Hfound|]. split; [|exact Hres].
        intros [|j] Hj.
        -- rewrite Z.add_0_r. exact Hparse.
        -- replace (counter + Z.of_nat (S j)) with (counter + 1 + Z.of_nat j) by lia.
           apply Hfirst. lia.
      * right. split; [|exact Hres].
        intros [|j] Hj.
        -- rewrite Z.add_0_r. exact Hparse.
        -- replace (counter + Z.of_nat (S j)) with (counter + 1 + Z.of_nat j) by lia.
           apply Hnone. lia.
Qed.

Lemma uint32_to_le_bytes_spec c :
  uint32_to_le_bytes c =
    [byte_of_Z c; byte_of_Z (c / 2 ^ 8); byte_of_Z (c / 2 ^ 16); byte_of_Z (c / 2 ^ 24)].
Proof.
  unfold uint32_to_le_bytes. rewrite !land_255, !Z.shiftr_div_pow2 by lia.
  assert (Hb : forall v, byte_of_Z (v mod 256) = byte_of_Z v).
  { intros v. unfold byte_of_Z. rewrite Z.mod_mod by lia. reflexivity. }
  rewrite !Hb. reflexivity.
Qed.

Lemma hash_to_curve_valid message Y :
  hash_to_curve message = Ok Y -> valid_point Y.
Proof.
  unfold hash_to_curve, hash_to_curve_bytes.
  generalize (sha256 (concat_vectors DOMAIN_SEPARATOR (list_byte_of_string message))).
  generalize 0. generalize (Z.to_nat (Z.shiftl 1 16)).
  intros remaining. induction remaining as [|remaining IH]; intros counter msg; [discriminate|].
  cbn [hash_to_curve_loop].
  destruct (try_point _) as [P|e] eqn:Htry.
  - intros [= <-]. eapply try_point_valid, Htry.
  - apply IH.
Qed.

(** C4 (hash-to-curve algorithm).  With
    [h = SHA256 (DOMAIN_SEPARATOR ++ message)], [hash_to_curve_bytes]
    either returns the key whose compressed encoding is
    [0x02 ++ SHA256 (h ++ LE32 counter)] for the smallest counter, counted
    from [0] and below [2^16], at which these bytes parse as a curve
    point, or, when no counter below [2^16] gives a point, raises
    [runtime_error "No valid point found after 2^16 iterations"]. *)
Theorem hash_to_curve_algorithm (message : list byte) :
  let h := SHA256 (DOMAIN_SEPARATOR ++ message) in
  let le32 (c : Z) :=
    [byte_of_Z c; byte_of_Z (c / 2 ^ 8); byte_of_Z (c / 2 ^ 16); byte_of_Z (c / 2 ^ 24)] in
  let encoding (c : Z) := x02 :: SHA256 (h ++ le32 c) in
  (exists c P,
      0 <= c < 2 ^ 16 /\
      pubkey_parse (encoding c) = Some P /\
      (forall c', 0 <= c' < c -> pubkey_parse (encoding c') = None) /\
      hash_to_curve_bytes message = Ok (mkPublicKey (encoding c) true) /\
      point_of (mkPublicKey (encoding c) true) = Some P /\
      secp256k1_ec_pubkey_serialize P true = encoding c)
  \/ ((forall c, 0 <= c < 2 ^ 16 -> pubkey_parse (encoding c) = None) /\
      hash_to_curve_bytes message =
        Throw (runtime_error "No valid point found after 2^16 iterations")).
Proof.
  intros h le32 encoding.
  assert (Henc : forall c, encoding c = candidate h c).
  { intros c. unfold encoding, candidate, le32. rewrite uint32_to_le_bytes_spec. reflexivity. }
  unfold hash_to_curve_bytes, concat_vectors, sha256. fold h.
  destruct (hash_to_curve_loop_spec h (Z.to_nat (Z.shiftl 1 16)) 0)
    as [(k & Hk & Hfound & Hfirst & Hres) | [Hnone Hres]].
  - left. rewrite Z.add_0_l in Hfound, Hres.
    assert (Hfirst' : forall j : nat, (j < k)%nat ->
              pubkey_parse (candidate h (Z.of_nat j)) = None).
    { intros j Hj. rewrite <- (Z.add_0_l (Z.of_nat j)). apply Hfirst, Hj. }
    destruct (pubkey_parse (candidate h (Z.of_nat k))) as [P|] eqn:HP; [|congruence].
    exists (Z.of_nat k), P. rewrite Henc.
    split. { change (Z.shiftl 1 16) with 65536 in Hk. lia. }
    split; [exact HP|].
    split. { intros c' Hc'. rewrite Henc, <- (Z2Nat.id c') by lia. apply Hfirst'. lia. }
    split; [exact Hres|].
    split; [exact HP|].
    unfold candidate in HP |- *.
    apply pubkey_parse_canonical in HP as [Hprefix Hx];
      [| apply SHA256_length | left; reflexivity].
    cbn [secp256k1_ec_pubkey_serialize]. rewrite <- Hprefix, <- Hx. reflexivity.
  - right. split; [|exact Hres].
    intros c Hc. rewrite Henc, <- (Z2Nat.id c) by lia.
    rewrite <- (Z.add_0_l (Z.of_nat (Z.to_nat c))).
    apply (Hnone (Z.to_nat c)). change (Z.shiftl 1 16) with 65536. lia.
Qed.

End HashToCurve.

Import secp256k1_const secp_utils.

(** The check [C == a·Y] of [verify] and [verify_deprecated]. *)
Definition signature_check `{Secp256k1} (a : PrivateKey) (C Y : PublicKey) : result bool :=
  a_times_Y ← PublicKey_.mult Y a; PublicKey_.eqb C a_times_Y.

Section Protocol.
Context {ssl : OpenSSL} {curve : Secp256k1}.
Import b_dhke.

Lemma signature_check_spec a C Y PC PY :
  valid_scalar a -> point_of C = Some PC -> point_of Y = Some PY ->
  signature_check a C Y = Ok (bool_decide (PC = pmul (private_key_ a) PY)).
Proof.
  intros Ha HC HY. unfold signature_check.
  rewrite (PublicKey_mult_spec _ _ _ HY Ha). cbn [mbind result_bind].
  apply PublicKey_eqb_spec; [exact HC|].
  apply point_of_compressed_key, pmul_finite; [exact Ha | eapply point_of_finite, HY].
Qed.

Lemma step1_alice_unfold secret_msg blinding_factor src :
  step1_alice secret_msg blinding_factor src =
    (Y ← lift (hash_to_curve secret_msg);
     r ← match blinding_factor with
         | Some r => mret r
         | None => random_.PrivateKey_default
         end;
     B_ ← lift (rG ← PublicKey_.pubkey r; PublicKey_.add Y rG);
     mret (B_, r)) src.
Proof. unfold step1_alice. reflexivity. Qed.

Lemma step1_alice_spec secret_msg blinding_factor src B_ r src' :
  (forall r0, blinding_factor = Some r0 -> valid_scalar r0) ->
  step1_alice secret_msg blinding_factor src = Ok ((B_, r), src') ->
  exists Y PY,
    hash_to_curve secret_msg = Ok Y /\ point_of Y = Some PY /\ valid_scalar r /\
    padd PY (pmul (private_key_ r) generator) <> infinity /\
    B_ = compressed_key (padd PY (pmul (private_key_ r) generator)).
Proof.
  intros Hbf H. rewrite step1_alice_unfold in H.
  apply rand_bind_Ok in H as (Y & src1 & HY & H). apply lift_Ok in HY as [HY ->].
  apply rand_bind_Ok in H as (r1 & src2 & Hr & H).
  apply rand_bind_Ok in H as (B1 & src3 & HB & H).
  apply rand_ret_Ok in H as [[= <- <-] ->]. apply lift_Ok in HB as [HB ->].
  assert (Hvalid : valid_scalar r).
  { destruct blinding_factor as [r0|].
    - apply rand_ret_Ok in Hr as [-> _]. apply Hbf. reflexivity.
    - eapply PrivateKey_default_valid, Hr. }
  destruct (hash_to_curve_valid _ _ HY) as [PY HPY].
  exists Y, PY. split; [exact HY|]. split; [exact HPY|]. split; [exact Hvalid|].
  rewrite (PublicKey_pubkey_spec _ Hvalid) in HB. cbn [mbind result_bind] in HB.
  rewrite (PublicKey_add_spec _ _ PY (pmul (private_key_ r) generator) HPY) in HB
    by (apply point_of_compressed_key, pmul_finite; [exact Hvalid | apply generator_finite]).
  destruct (decide _) as [|Hne]; [discriminate|]. injection HB as <-.
  split; [exact Hne | reflexivity].
Qed.

Lemma unblind_algebra a r PY :
  0 <= a -> 0 <= r ->
  padd (pmul a (padd PY (pmul r generator))) (pneg (pmul r (pmul a generator))) = pmul a PY.
Proof.
  intros Ha Hr. rewrite pmul_padd by exact Ha.
  rewrite <- !pmul_mul by assumption. rewrite (Z.mul_comm a r).
  apply padd_sub_cancel.
Qed.

Lemma step2_bob_unfold B_ a src :
  step2_bob B_ a src =
    (C_ ← lift (PublicKey_.mult B_ a);
     '(e, s) ← step2_bob_dleq B_ a [];
     mret (C_, e, s)) src.
Proof. unfold step2_bob. reflexivity. Qed.

(** C1 (BDHKE round trip).  For every secret, every valid mint scalar
    [a] and every valid blinding factor (given, or drawn by
    [step1_alice]), if [step1_alice] returns [(B_, r)] and [step2_bob]
    returns the blinded signature [C_] for [B_], then [hash_to_curve],
    [pubkey], [step3_alice] and [mult] all succeed, the unblinded key
    [C = step3_alice C_ r (pubkey a)] compares equal to
    [a * hash_to_curve secret], and [verify a C secret] returns [true]
    whatever fuel the legacy loop is given. *)
Theorem bdhke_round_trip (secret_msg : string) (a : PrivateKey)
    (blinding_factor : option PrivateKey) (src src1 src2 : random_source)
    (B_ : PublicKey) (r : PrivateKey) (C_ : PublicKey) (e s : PrivateKey) :
  valid_scalar a ->
  (forall r0, blinding_factor = Some r0 -> valid_scalar r0) ->
  step1_alice secret_msg blinding_factor src = Ok ((B_, r), src1) ->
  step2_bob B_ a src1 = Ok ((C_, e, s), src2) ->
  exists Y A C a_times_Y,
    hash_to_curve secret_msg = Ok Y /\
    PublicKey_.pubkey a = Ok A /\
    step3_alice C_ r A = Ok C /\
    PublicKey_.mult Y a = Ok a_times_Y /\
    PublicKey_.eqb C a_times_Y = Ok true /\
    forall fuel, verify fuel a C secret_msg = Some (Ok true).
Proof.
  intros Ha Hbf H1 H2.
  destruct (step1_alice_spec _ _ _ _ _ _ Hbf H1) as (Y & PY & HY & HPY & Hr & HB & ->).
  rewrite step2_bob_unfold in H2. apply rand_bind_Ok in H2 as (C1 & src3 & HC & H2).
  apply lift_Ok in HC as [HC ->].
  apply rand_bind_Ok in H2 as ([e1 s1] & src4 & _ & H2).
  apply rand_ret_Ok in H2 as [[= <- <- <-] ->].
  set (PB := padd PY (pmul (private_key_ r) generator)) in *.
  rewrite (PublicKey_mult_spec _ PB _ (point_of_compressed_key _ HB) Ha) in HC. injection HC as <-.
  pose proof (point_of_finite _ _ HPY) as HPYfin.
  assert (HaY : pmul (private_key_ a) PY <> infinity) by (apply pmul_finite; assumption).
  assert (HaG : pmul (private_key_ a) generator <> infinity)
    by (apply pmul_finite; [assumption | apply generator_finite]).
  assert (HaB : pmul (private_key_ a) PB <> infinity) by (apply pmul_finite; assumption).
  assert (HrA : pmul (private_key_ r) (pmul (private_key_ a) generator) <> infinity)
    by (apply pmul_finite; assumption).
  assert (Halg : padd (pmul (private_key_ a) PB)
                   (pneg (pmul (private_key_ r) (pmul (private_key_ a) generator)))
                 = pmul (private_key_ a) PY).
  { apply unblind_algebra; unfold valid_scalar in *; lia. }
  assert (H3 : step3_alice (compressed_key (pmul (private_key_ a) PB)) r
                 (compressed_key (pmul (private_key_ a) generator))
               = Ok (compressed_key (pmul (private_key_ a) PY))).
  { unfold step3_alice.
    rewrite (PublicKey_mult_spec _ _ _ (point_of_compressed_key _ HaG) Hr). cbn [mbind result_bind].
    rewrite (PublicKey_sub_spec _ _ _ _ (point_of_compressed_key _ HaB) (point_of_compressed_key _ HrA)).
    rewrite decide_False.
    - rewrite Halg. reflexivity.
    - intros Heq. apply padd_pneg_eq_infinity in Heq. rewrite Halg in Heq. contradiction. }
  assert (Hcheck : signature_check a (compressed_key (pmul (private_key_ a) PY)) Y = Ok true).
  { rewrite (signature_check_spec _ _ _ _ PY Ha (point_of_compressed_key _ HaY) HPY).
    rewrite bool_decide_eq_true_2 by reflexivity. reflexivity. }
  exists Y, (compressed_key (pmul (private_key_ a) generator)),
    (compressed_key (pmul (private_key_ a) PY)), (compressed_key (pmul (private_key_ a) PY)).
  split; [exact HY|]. split; [apply PublicKey_pubkey_spec, Ha|]. split; [exact H3|].
  split; [apply PublicKey_mult_spec; assumption|].
  split.
  { rewrite (PublicKey_eqb_spec _ _ _ _ (point_of_compressed_key _ HaY) (point_of_compressed_key _ HaY)).
    rewrite bool_decide_eq_true_2 by reflexivity. reflexivity. }
  intros fuel. unfold verify. rewrite HY. cbn [mbind result_bind].
  fold (signature_check a (compressed_key (pmul (private_key_ a) PY)) Y).
  rewrite Hcheck. reflexivity.
Qed.

(** *** Verification *)

Lemma signature_check_total a C Y :
  valid_scalar a -> valid_point C -> valid_point Y ->
  signature_check a C Y = Ok true \/ signature_check a C Y = Ok false.
Proof.
  intros Ha [PC HC] [PY HY]. rewrite (signature_check_spec _ _ _ _ _ Ha HC HY).
  destruct (bool_decide _); [left | right]; reflexivity.
Qed.

Lemma hash_to_curve_deprecated_valid fuel : forall message Y,
  hash_to_curve_deprecated fuel message = Some Y -> valid_point Y.
Proof.
  induction fuel as [|fuel IH]; intros message Y; [discriminate|].
  cbn [hash_to_curve_deprecated]. destruct (try_point _) as [P|] eqn:Htry.
  - intros [= <-]. eapply try_point_valid, Htry.
  - apply IH.
Qed.

(** C3 (verification fallback).  For a valid mint scalar [a], a valid
    point [C] and a secret whose current hash-to-curve point is [Y]:
    [verify] returns [true] exactly when [C == a * Y] or
    [C == a * Y'] for the legacy point [Y']; when the current check
    holds [verify] returns [true] without running the legacy variant
    (for every fuel, also none); and when it does not hold, [verify] is
    [verify_deprecated]. *)
Theorem verify_fallback (a : PrivateKey) (C : PublicKey) (secret_msg : string)
    (Y : PublicKey) :
  valid_scalar a -> valid_point C ->
  hash_to_curve secret_msg = Ok Y ->
  ((exists fuel, verify fuel a C secret_msg = Some (Ok true)) <->
     signature_check a C Y = Ok true \/
     exists fuel Y',
       hash_to_curve_deprecated fuel (list_byte_of_string secret_msg) = Some Y' /\
       signature_check a C Y' = Ok true) /\
  (signature_check a C Y = Ok true ->
     forall fuel, verify fuel a C secret_msg = Some (Ok true)) /\
  (signature_check a C Y <> Ok true ->
     forall fuel, verify fuel a C secret_msg = verify_deprecated fuel a C secret_msg).
Proof.
  intros Ha HC HY.
  assert (Hunfold : forall fuel, verify fuel a C secret_msg =
            retry_if_invalid (signature_check a C Y) (verify_deprecated fuel a C secret_msg)).
  { intros fuel. unfold verify. rewrite HY. reflexivity. }
  assert (Hdep : forall fuel, verify_deprecated fuel a C secret_msg = Some (Ok true) <->
            exists Y', hash_to_curve_deprecated fuel (list_byte_of_string secret_msg) = Some Y' /\
                       signature_check a C Y' = Ok true).
  { intros fuel. unfold verify_deprecated.
    destruct (hash_to_curve_deprecated fuel _) as [Y'|].
    - split.
      + intros [= H]. exists Y'. split; [reflexivity | exact H].
      + intros (Y'' & [= <-] & H). unfold signature_check in H. rewrite H. reflexivity.
    - split; [discriminate | intros (Y' & [=] & _)]. }
  destruct (signature_check_total a C Y Ha HC (hash_to_curve_valid _ _ HY)) as [Hc | Hc].
  - split; [split|split].
    + intros _. left. exact Hc.
    + intros _. exists 0%nat. rewrite Hunfold, Hc. reflexivity.
    + intros _ fuel. rewrite Hunfold, Hc. reflexivity.
    + intros Hne. congruence.
  - split; [split|split].
    + intros [fuel Hv]. right. exists fuel. apply Hdep. rewrite Hunfold, Hc in Hv. exact Hv.
    + intros [Hc' | (fuel & Y' & HY' & Hc')]; [congruence|].
      exists fuel. rewrite Hunfold, Hc. apply Hdep. exists Y'. split; assumption.
    + intros Hc'. congruence.
    + intros _ fuel. rewrite Hunfold, Hc. reflexivity.
Qed.

End Protocol.

Import secp256k1_const secp_utils.

Lemma string_append_assoc (s1 s2 s3 : string) : ((s1 ++ s2) ++ s3 = s1 ++ (s2 ++ s3))%string.
Proof.
  induction s1 as [|c s1 IH]; [reflexivity|].
  change (String c ((s1 ++ s2) ++ s3) = String c (s1 ++ (s2 ++ s3)))%string.
  f_equal. exact IH.
Qed.

Lemma string_append_nil_l (s : string) : ("" ++ s = s)%string.
Proof. reflexivity. Qed.

Lemma result_bind_ok {A B : Type} (a : A) (k : A -> result B) : Ok a ≫= k = k a.
Proof. reflexivity. Qed.

Section Dleq.
Context {ssl : OpenSSL} {curve : Secp256k1}.
Import b_dhke.

(** The lowercase hexadecimal text of the uncompressed encoding of a point. *)
Definition uncompressed_hex (P : point) : string :=
  bytes_to_hex (secp256k1_ec_pubkey_serialize P false).

(** The challenge [H(R1 ‖ R2 ‖ A ‖ C')]. *)
Definition dleq_challenge (R1 R2 A C_ : point) : list byte :=
  SHA256 (list_byte_of_string
    (uncompressed_hex R1 ++ uncompressed_hex R2 ++ uncompressed_hex A ++ uncompressed_hex C_)).

Lemma dleq_challenge_length R1 R2 A C_ : List.length (dleq_challenge R1 R2 A C_) = 32%nat.
Proof. apply SHA256_length. Qed.

Lemma hash_e_spec R1 R2 A C_ P1 P2 PA PC :
  point_of R1 = Some P1 -> point_of R2 = Some P2 ->
  point_of A = Some PA -> point_of C_ = Some PC ->
  hash_e R1 R2 A C_ = Ok (dleq_challenge P1 P2 PA PC).
Proof.
  intros H1 H2 HA HC. unfold hash_e. cbn [mapM].
  rewrite (PublicKey_serialize_spec _ _ _ H1), (PublicKey_serialize_spec _ _ _ H2),
    (PublicKey_serialize_spec _ _ _ HA), (PublicKey_serialize_spec _ _ _ HC).
  cbn [mbind result_bind mret result_ret fold_left]. unfold sha256, dleq_challenge, uncompressed_hex.
  do 3 f_equal. rewrite string_append_nil_l, !string_append_assoc. reflexivity.
Qed.

Lemma dleq_algebra Q p a e :
  0 <= p -> 0 <= a -> 0 <= e ->
  padd (pmul ((p + (a * e) mod CURVE_ORDER) mod CURVE_ORDER) Q) (pneg (pmul e (pmul a Q)))
  = pmul p Q.
Proof.
  intros Hp Ha He.
  pose proof (Z.mod_pos_bound (a * e) CURVE_ORDER ltac:(reflexivity)) as Hm.
  rewrite pmul_mod by lia. rewrite pmul_add by lia.
  rewrite pmul_mod by nia. rewrite <- (pmul_mul e a) by assumption.
  rewrite (Z.mul_comm e a). apply padd_sub_cancel.
Qed.

Lemma alice_verify_dleq_spec B_ C_ e s A PB PC PA :
  point_of B_ = Some PB -> point_of C_ = Some PC -> point_of A = Some PA ->
  valid_scalar e -> valid_scalar s ->
  alice_verify_dleq B_ C_ e s A =
    if decide (pmul (private_key_ s) generator = pmul (private_key_ e) PA)
    then Throw combine_error
    else if decide (pmul (private_key_ s) PB = pmul (private_key_ e) PC)
    then Throw combine_error
    else Ok (bytes_eqb
               (dleq_challenge
                  (padd (pmul (private_key_ s) generator) (pneg (pmul (private_key_ e) PA)))
                  (padd (pmul (private_key_ s) PB) (pneg (pmul (private_key_ e) PC)))
                  PA PC)
               (PrivateKey_.serialize e)).
Proof.
  intros HB HC HA He Hs.
  pose proof (point_of_finite _ _ HB) as HBfin.
  pose proof (point_of_finite _ _ HC) as HCfin.
  pose proof (point_of_finite _ _ HA) as HAfin.
  unfold alice_verify_dleq.
  rewrite (PublicKey_pubkey_spec _ Hs). cbn [mbind result_bind].
  rewrite (PublicKey_mult_spec _ _ _ HA He). cbn [mbind result_bind].
  rewrite (PublicKey_sub_spec _ _ (pmul (private_key_ s) generator) (pmul (private_key_ e) PA))
    by (apply point_of_compressed_key, pmul_finite; auto using generator_finite).
  destruct (decide (pmul (private_key_ s) generator = pmul (private_key_ e) PA)) as [|Hne1];
    [reflexivity|].
  cbn [mbind result_bind].
  rewrite (PublicKey_mult_spec _ _ _ HB Hs). cbn [mbind result_bind].
  rewrite (PublicKey_mult_spec _ _ _ HC He). cbn [mbind result_bind].
  rewrite (PublicKey_sub_spec _ _ (pmul (private_key_ s) PB) (pmul (private_key_ e) PC))
    by (apply point_of_compressed_key, pmul_finite; auto).
  destruct (decide (pmul (private_key_ s) PB = pmul (private_key_ e) PC)) as [|Hne2];
    [reflexivity|].
  cbn [mbind result_bind].
  erewrite hash_e_spec; [reflexivity | | | exact HA | exact HC].
  - apply point_of_compressed_key. intros H. apply Hne1, padd_pneg_eq_infinity, H.
  - apply point_of_compressed_key. intros H. apply Hne2, padd_pneg_eq_infinity, H.
Qed.

Lemma step2_bob_dleq_unfold B_ a p_bytes src :
  step2_bob_dleq B_ a p_bytes src =
    (_ ← random_.PrivateKey_default;
     p ← match p_bytes with
         | _ :: _ => lift (PrivateKey_.of_bytes p_bytes)
         | [] => random_.PrivateKey_default
         end;
     lift (
       R1 ← PublicKey_.pubkey p;
       R2 ← PublicKey_.mult B_ p;
       C_ ← PublicKey_.mult B_ a;
       A ← PublicKey_.pubkey a;
       e_bytes ← hash_e R1 R2 A C_;
       e ← PrivateKey_.of_bytes e_bytes;
       a_times_e ← PrivateKey_.tweak_mul a (PrivateKey_.raw_value e);
       s ← PrivateKey_.tweak_add p (PrivateKey_.raw_value a_times_e);
       Ok (e, s))) src.
Proof. unfold step2_bob_dleq. reflexivity. Qed.

Lemma dleq_proof_eq B_ a p PB :
  point_of B_ = Some PB -> valid_scalar a -> valid_scalar p ->
  (R1 ← PublicKey_.pubkey p;
   R2 ← PublicKey_.mult B_ p;
   C_ ← PublicKey_.mult B_ a;
   A ← PublicKey_.pubkey a;
   e_bytes ← hash_e R1 R2 A C_;
   e ← PrivateKey_.of_bytes e_bytes;
   a_times_e ← PrivateKey_.tweak_mul a (PrivateKey_.raw_value e);
   s ← PrivateKey_.tweak_add p (PrivateKey_.raw_value a_times_e);
   Ok (e, s))
  = (e ← PrivateKey_.of_bytes
         (dleq_challenge (pmul (private_key_ p) generator) (pmul (private_key_ p) PB)
                         (pmul (private_key_ a) generator) (pmul (private_key_ a) PB));
     a_times_e ← PrivateKey_.tweak_mul a (PrivateKey_.raw_value e);
     s ← PrivateKey_.tweak_add p (PrivateKey_.raw_value a_times_e);
     Ok (e, s)).
Proof.
  intros HB Ha Hp. pose proof (point_of_finite _ _ HB) as HBfin.
  rewrite (PublicKey_pubkey_spec _ Hp), result_bind_ok. cbv beta.
  rewrite (PublicKey_mult_spec _ _ _ HB Hp), result_bind_ok. cbv beta.
  rewrite (PublicKey_mult_spec _ _ _ HB Ha), result_bind_ok. cbv beta.
  rewrite (PublicKey_pubkey_spec _ Ha), result_bind_ok. cbv beta.
  erewrite hash_e_spec;
    [| apply point_of_compressed_key, pmul_finite; auto using generator_finite
     | apply point_of_compressed_key, pmul_finite; auto
     | apply point_of_compressed_key, pmul_finite; auto using generator_finite
     | apply point_of_compressed_key, pmul_finite; auto ].
  rewrite result_bind_ok. reflexivity.
Qed.

Lemma step2_bob_dleq_spec B_ a p_bytes src e s src' PB :
  point_of B_ = Some PB -> valid_scalar a ->
  step2_bob_dleq B_ a p_bytes src = Ok ((e, s), src') ->
  exists p,
    valid_scalar p /\ (p_bytes <> [] -> PrivateKey_.of_bytes p_bytes = Ok p) /\
    valid_scalar e /\ valid_scalar s /\
    PrivateKey_.serialize e =
      dleq_challenge (pmul (private_key_ p) generator) (pmul (private_key_ p) PB)
                     (pmul (private_key_ a) generator) (pmul (private_key_ a) PB) /\
    private_key_ s =
      (private_key_ p + (private_key_ a * private_key_ e) mod CURVE_ORDER) mod CURVE_ORDER.
Proof.
  intros HB Ha H. rewrite step2_bob_dleq_unfold in H.
  apply rand_bind_Ok in H as (p0 & src1 & _ & H).
  apply rand_bind_Ok in H as (p & src2 & Hp & H).
  apply lift_Ok in H as [H _].
  assert (Hpvalid : valid_scalar p /\ (p_bytes <> [] -> PrivateKey_.of_bytes p_bytes = Ok p)).
  { destruct p_bytes as [|b rest].
    - split; [eapply PrivateKey_default_valid, Hp | congruence].
    - apply lift_Ok in Hp as [Hp _]. split; [|intros _; exact Hp].
      apply valid_scalar_of_bytes in Hp. tauto. }
  destruct Hpvalid as [Hpv Hpb]. exists p.
  rewrite (dleq_proof_eq _ _ _ _ HB Ha Hpv) in H.
  apply result_bind_Ok in H as (e1 & He & H).
  apply result_bind_Ok in H as (ae & Hae & H).
  apply result_bind_Ok in H as (s1 & Hs & [= <- <-]).
  apply valid_scalar_of_bytes in He as (Hev & Helen & Heval).
  apply valid_scalar_of_int in Hae as (Haev & Haeval).
  apply valid_scalar_of_int in Hs as (Hsv & Hsval).
  unfold PrivateKey_.raw_value in Haeval, Hsval.
  assert (Hrange : 0 < private_key_ p /\ 0 < private_key_ a /\ 0 < private_key_ e1 /\
                   0 < private_key_ ae) by (unfold valid_scalar in *; lia).
  rewrite Z.rem_mod_nonneg in Haeval by (reflexivity || nia).
  rewrite Z.rem_mod_nonneg in Hsval by (reflexivity || lia).
  split; [exact Hpv|]. split; [exact Hpb|]. split; [exact Hev|]. split; [exact Hsv|].
  split.
  - unfold PrivateKey_.serialize. rewrite Heval, <- Helen. apply be_bytes_be_int.
  - rewrite Hsval, Haeval. reflexivity.
Qed.

(** C2 (DLEQ completeness).  For a valid point [B_], a valid mint
    scalar [a] and any nonce (given as bytes, or drawn), a proof
    [(e, s)] returned by [step2_bob_dleq] comes from a valid nonce [p]:
    with [R1 = pubkey p], [R2 = p * B_], [A = pubkey a] and
    [C_ = a * B_], the challenge [e] is the SHA-256 digest of the
    lowercase hex of the uncompressed encodings of [R1], [R2], [A], [C_]
    concatenated in this order, [s = p + a * e mod n], and
    [alice_verify_dleq B_ C_ e s A] returns [true]. *)
Theorem dleq_completeness (B_ : PublicKey) (a : PrivateKey) (p_bytes : list byte)
    (src src' : random_source) (e s : PrivateKey) :
  valid_point B_ -> valid_scalar a ->
  step2_bob_dleq B_ a p_bytes src = Ok ((e, s), src') ->
  exists (p : PrivateKey) (R1 R2 A C_ : PublicKey) (u1 u2 u3 u4 : list byte),
    valid_scalar p /\
    (p_bytes <> [] -> PrivateKey_.of_bytes p_bytes = Ok p) /\
    PublicKey_.pubkey p = Ok R1 /\ PublicKey_.mult B_ p = Ok R2 /\
    PublicKey_.pubkey a = Ok A /\ PublicKey_.mult B_ a = Ok C_ /\
    PublicKey_.serialize R1 false = Ok u1 /\ PublicKey_.serialize R2 false = Ok u2 /\
    PublicKey_.serialize A false = Ok u3 /\ PublicKey_.serialize C_ false = Ok u4 /\
    PrivateKey_.serialize e =
      SHA256 (list_byte_of_string
                (bytes_to_hex u1 ++ bytes_to_hex u2 ++ bytes_to_hex u3 ++ bytes_to_hex u4)) /\
    private_key_ s =
      (private_key_ p + (private_key_ a * private_key_ e) mod CURVE_ORDER) mod CURVE_ORDER /\
    alice_verify_dleq B_ C_ e s A = Ok true.
Proof.
  intros [PB HB] Ha H.
  destruct (step2_bob_dleq_spec _ _ _ _ _ _ _ _ HB Ha H)
    as (p & Hp & Hpb & He & Hs & Hebytes & Hsval).
  pose proof (point_of_finite _ _ HB) as HBfin.
  set (kp := private_key_ p) in *. set (ka := private_key_ a) in *.
  assert (HpG : pmul kp generator <> infinity)
    by (apply pmul_finite; auto using generator_finite).
  assert (HpB : pmul kp PB <> infinity) by (apply pmul_finite; auto).
  assert (HaG : pmul ka generator <> infinity)
    by (apply pmul_finite; auto using generator_finite).
  assert (HaB : pmul ka PB <> infinity) by (apply pmul_finite; auto).
  exists p, (compressed_key (pmul kp generator)), (compressed_key (pmul kp PB)),
    (compressed_key (pmul ka generator)), (compressed_key (pmul ka PB)),
    (secp256k1_ec_pubkey_serialize (pmul kp generator) false),
    (secp256k1_ec_pubkey_serialize (pmul kp PB) false),
    (secp256k1_ec_pubkey_serialize (pmul ka generator) false),
    (secp256k1_ec_pubkey_serialize (pmul ka PB) false).
  split; [exact Hp|]. split; [exact Hpb|].
  split; [apply PublicKey_pubkey_spec, Hp|].
  split; [apply PublicKey_mult_spec; assumption|].
  split; [apply PublicKey_pubkey_spec, Ha|].
  split; [apply PublicKey_mult_spec; assumption|].
  split; [apply PublicKey_serialize_spec, point_of_compressed_key, HpG|].
  split; [apply PublicKey_serialize_spec, point_of_compressed_key, HpB|].
  split; [apply PublicKey_serialize_spec, point_of_compressed_key, HaG|].
  split; [apply PublicKey_serialize_spec, point_of_compressed_key, HaB|].
  split; [exact Hebytes|]. split; [exact Hsval|].
  assert (Hnn : 0 <= kp /\ 0 <= ka /\ 0 <= private_key_ e)
    by (unfold valid_scalar in *; subst kp ka; lia).
  destruct Hnn as (Hnp & Hna & Hne).
  assert (HR1 : padd (pmul (private_key_ s) generator)
                  (pneg (pmul (private_key_ e) (pmul ka generator))) = pmul kp generator).
  { rewrite Hsval. apply dleq_algebra; assumption. }
  assert (HR2 : padd (pmul (private_key_ s) PB)
                  (pneg (pmul (private_key_ e) (pmul ka PB))) = pmul kp PB).
  { rewrite Hsval. apply dleq_algebra; assumption. }
  rewrite (alice_verify_dleq_spec _ _ _ _ _ PB (pmul ka PB) (pmul ka generator) HB
             (point_of_compressed_key _ HaB) (point_of_compressed_key _ HaG) He Hs).
  rewrite decide_False
    by (intros Heq; apply padd_pneg_eq_infinity in Heq; rewrite HR1 in Heq; contradiction).
  rewrite decide_False
    by (intros Heq; apply padd_pneg_eq_infinity in Heq; rewrite HR2 in Heq; contradiction).
  rewrite HR1, HR2, Hebytes. unfold bytes_eqb.
  rewrite bool_decide_eq_true_2 by reflexivity. reflexivity.
Qed.

End Dleq.

Import secp256k1_const secp_utils.

Section Homomorphism.
Context {curve : Secp256k1}.

Lemma pubkey_sum a b :
  valid_scalar a -> valid_scalar b ->
  padd (pmul (private_key_ a) generator) (pmul (private_key_ b) generator)
  = pmul ((private_key_ a + private_key_ b) mod CURVE_ORDER) generator.
Proof.
  unfold valid_scalar. intros Ha Hb. rewrite pmul_mod by lia. symmetry. apply pmul_add; lia.
Qed.

(** C8, as amended (public-key homomorphism).  For valid scalars [a]
    and [b] the keys [pubkey a] and [pubkey b] exist.  When
    [(a + b) mod n <> 0] their sum exists, [tweak_add] gives the scalar
    [(a + b) mod n], and the sum compares equal to the public key of that
    scalar.  When [(a + b) mod n = 0] the addition of the points raises
    [runtime_error "Failed to combine public keys"] and [tweak_add]
    raises the range error. *)
Theorem pubkey_homomorphism (a b : PrivateKey) :
  valid_scalar a -> valid_scalar b ->
  exists A B,
    PublicKey_.pubkey a = Ok A /\ PublicKey_.pubkey b = Ok B /\
    ((private_key_ a + private_key_ b) mod CURVE_ORDER <> 0 ->
       exists sum ab R,
         PublicKey_.add A B = Ok sum /\
         PrivateKey_.tweak_add a (PrivateKey_.raw_value b) = Ok ab /\
         private_key_ ab = (private_key_ a + private_key_ b) mod CURVE_ORDER /\
         PublicKey_.pubkey ab = Ok R /\
         PublicKey_.eqb sum R = Ok true) /\
    ((private_key_ a + private_key_ b) mod CURVE_ORDER = 0 ->
       PublicKey_.add A B = Throw (runtime_error "Failed to combine public keys") /\
       PrivateKey_.tweak_add a (PrivateKey_.raw_value b) =
         Throw (invalid_argument "Private key must be in range [1, curve_order)")).
Proof.
  intros Ha Hb.
  pose proof (pubkey_sum a b Ha Hb) as Hsum.
  destruct a as [ka], b as [kb]. unfold valid_scalar in Ha, Hb. cbn [private_key_] in *.
  assert (HaG : pmul ka generator <> infinity)
    by (apply pmul_finite; auto using generator_finite).
  assert (HbG : pmul kb generator <> infinity)
    by (apply pmul_finite; auto using generator_finite).
  pose proof (Z.mod_pos_bound (ka + kb) CURVE_ORDER ltac:(reflexivity)) as Hm.
  assert (Hrem : Z.rem (ka + kb) CURVE_ORDER = (ka + kb) mod CURVE_ORDER).
  { apply Z.rem_mod_nonneg; [lia | reflexivity]. }
  exists (compressed_key (pmul ka generator)), (compressed_key (pmul kb generator)).
  split; [apply (PublicKey_pubkey_spec (mkPrivateKey ka)), Ha|].
  split; [apply (PublicKey_pubkey_spec (mkPrivateKey kb)), Hb|].
  rewrite (PublicKey_add_spec _ _ _ _ (point_of_compressed_key _ HaG)
             (point_of_compressed_key _ HbG)).
  unfold PrivateKey_.tweak_add, PrivateKey_.raw_value. cbn [private_key_].
  rewrite Hrem, of_int_spec, Hsum.
  split.
  - intros Hne.
    assert (Hv : valid_scalar (mkPrivateKey ((ka + kb) mod CURVE_ORDER)))
      by (unfold valid_scalar; cbn; lia).
    assert (Hfin : pmul ((ka + kb) mod CURVE_ORDER) generator <> infinity)
      by (apply pmul_finite; [lia | apply generator_finite]).
    exists (compressed_key (pmul ((ka + kb) mod CURVE_ORDER) generator)),
      (mkPrivateKey ((ka + kb) mod CURVE_ORDER)),
      (compressed_key (pmul ((ka + kb) mod CURVE_ORDER) generator)).
    rewrite decide_False by exact Hfin.
    rewrite bool_decide_eq_true_2 by lia.
    split; [reflexivity|]. split; [reflexivity|]. split; [reflexivity|].
    split; [apply (PublicKey_pubkey_spec _ Hv)|].
    rewrite (PublicKey_eqb_spec _ _ _ _ (point_of_compressed_key _ Hfin)
               (point_of_compressed_key _ Hfin)).
    rewrite bool_decide_eq_true_2 by reflexivity. reflexivity.
  - intros Hz. rewrite Hz. rewrite decide_True by reflexivity.
    rewrite bool_decide_eq_false_2 by lia. split; reflexivity.
Qed.

End Homomorphism.

Section DleqOutcomes.
Context {ssl : OpenSSL} {curve : Secp256k1}.
Import b_dhke.

(** The reconstruction [C' = C + r·A], [B' = Y + r·G] of
    [carol_verify_dleq] and [carol_verify_dleq_deprecated], followed by
    [alice_verify_dleq]. *)
Lemma carol_reconstruction Y PY r C PC e s A PA :
  point_of Y = Some PY -> point_of C = Some PC -> point_of A = Some PA ->
  valid_scalar r ->
  (r_times_A ← PublicKey_.mult A r;
   C_ ← PublicKey_.add C r_times_A;
   r_times_G ← PublicKey_.pubkey r;
   B_ ← PublicKey_.add Y r_times_G;
   alice_verify_dleq B_ C_ e s A)
  = if decide (padd PC (pmul (private_key_ r) PA) = infinity) then Throw combine_error
    else if decide (padd PY (pmul (private_key_ r) generator) = infinity)
    then Throw combine_error
    else alice_verify_dleq
           (compressed_key (padd PY (pmul (private_key_ r) generator)))
           (compressed_key (padd PC (pmul (private_key_ r) PA))) e s A.
Proof.
  intros HY HC HA Hr.
  pose proof (point_of_finite _ _ HA) as HAfin.
  rewrite (PublicKey_mult_spec _ _ _ HA Hr), result_bind_ok. cbv beta.
  rewrite (PublicKey_add_spec _ _ PC (pmul (private_key_ r) PA) HC)
    by (apply point_of_compressed_key, pmul_finite; auto).
  destruct (decide (padd PC (pmul (private_key_ r) PA) = infinity)); [reflexivity|].
  rewrite result_bind_ok. cbv beta.
  rewrite (PublicKey_pubkey_spec _ Hr), result_bind_ok. cbv beta.
  rewrite (PublicKey_add_spec _ _ PY (pmul (private_key_ r) generator) HY)
    by (apply point_of_compressed_key, pmul_finite; auto using generator_finite).
  destruct (decide (padd PY (pmul (private_key_ r) generator) = infinity)); [reflexivity|].
  rewrite result_bind_ok. reflexivity.
Qed.

Lemma carol_verify_dleq_unfold fuel secret_msg r C e s A :
  carol_verify_dleq fuel secret_msg r C e s A =
    retry_if_invalid
      (Y ← hash_to_curve secret_msg;
       r_times_A ← PublicKey_.mult A r;
       C_ ← PublicKey_.add C r_times_A;
       r_times_G ← PublicKey_.pubkey r;
       B_ ← PublicKey_.add Y r_times_G;
       alice_verify_dleq B_ C_ e s A)
      (carol_verify_dleq_deprecated fuel secret_msg r C e s A).
Proof. unfold carol_verify_dleq. reflexivity. Qed.


End DleqOutcomes.

(** C9: the draw at which the OpenSSL source fails. *)
Definition failing_draw : random_draw :=
  {| RAND_bytes_return := 0;
     RAND_bytes_buffer := replicate 32 x00;
     mt19937_bytes := be_bytes 32 1 |}.

(** C9 (random scalars when the secure source fails).  At a draw where
    [RAND_bytes] reports failure, the default constructor of [PrivateKey]
    raises nothing: it returns the scalar that the [mt19937] bytes encode,
    here [1]. *)
Theorem generate_random_key_falls_back :
  RAND_bytes_return failing_draw <> 1 /\
  exists src',
    random_.PrivateKey_default (fun _ => failing_draw) = Ok (mkPrivateKey 1, src').
Proof.
  split; [discriminate|]. eexists. vm_compute. reflexivity.
Qed.

Lemma generate_random_key_spec (src : random_source) :
  random_.generate_random_key src =
    lift (PrivateKey_.of_bytes
            (if RAND_bytes_return (src O) =? 1
             then RAND_bytes_buffer (src O)
             else mt19937_bytes (src O)))
         (fun i => src (S i)).
Proof.
  unfold random_.generate_random_key, next_draw, mbind, rand_bind.
  destruct (RAND_bytes_return (src O) =? 1); reflexivity.
Qed.

Import secp256k1_const secp_utils.

(** ** The text of a hexadecimal digest *)








(** ** Assignments into the key map *)

(** The key that [PrivateKey()] builds from one draw: [RAND_bytes] gives
    the 32 bytes unless it fails, [mt19937] then; the byte constructor
    validates them. *)
Definition drawn_key (draw : random_draw) : result PrivateKey :=
  PrivateKey_.of_bytes
    (if RAND_bytes_return draw =? 1 then RAND_bytes_buffer draw else mt19937_bytes draw).

Lemma PrivateKey_default_draw (src : random_source) :
  random_.PrivateKey_default src =
    match drawn_key (src O) with
    | Ok k => Ok (k, fun i => src (S i))
    | Throw e => Throw e
    end.
Proof.
  unfold random_.PrivateKey_default. rewrite generate_random_key_spec.
  unfold drawn_key, lift. reflexivity.
Qed.

(** The shape the three derivation loops share: the key for index [i] is
    computed first and then assigned to [result[amounts[i]]]. *)
Fixpoint indexed_insert (key_at : nat -> result PrivateKey) (i : nat) (amounts : list Z)
    (result_ : gmap Z PrivateKey) : rand (gmap Z PrivateKey) :=
  match amounts with
  | [] => mret result_
  | amount :: rest =>
      key ← lift (key_at i);
      result_ ← keys.operator_index result_ amount;
      indexed_insert key_at (S i) rest (<[amount := key]> result_)
  end.

(** One turn of the loop: an amount that is new to the map costs one
    draw, whose key is overwritten at once. *)
Lemma indexed_insert_step key_at i amount rest result_ src :
  indexed_insert key_at i (amount :: rest) result_ src =
    match key_at i with
    | Throw e => Throw e
    | Ok key =>
        match result_ !! amount with
        | Some _ => indexed_insert key_at (S i) rest (<[amount := key]> result_) src
        | None =>
            match drawn_key (src O) with
            | Throw e => Throw e
            | Ok _ =>
                indexed_insert key_at (S i) rest (<[amount := key]> result_)
                  (fun j => src (S j))
            end
        end
    end.
Proof.
  cbn [indexed_insert]. unfold keys.operator_index, mbind, rand_bind, lift.
  destruct (key_at i) as [key|e]; [|reflexivity].
  destruct (result_ !! amount) as [old|]; [reflexivity|].
  rewrite PrivateKey_default_draw. destruct (drawn_key (src O)) as [fresh|e]; [|reflexivity].
  unfold mret, rand_ret. rewrite insert_insert_eq. reflexivity.
Qed.

Lemma indexed_insert_other key_at amounts amount : forall i result_ src keys_ src',
  amount ∉ amounts ->
  indexed_insert key_at i amounts result_ src = Ok (keys_, src') ->
  keys_ !! amount = result_ !! amount.
Proof.
  induction amounts as [|a rest IH]; intros i result_ src keys_ src' Hnotin H.
  - injection H as <- _. reflexivity.
  - apply not_elem_of_cons in Hnotin as [Hne Hnotin]. rewrite indexed_insert_step in H.
    destruct (key_at i) as [key|]; [|discriminate].
    destruct (result_ !! a).
    + rewrite (IH _ _ _ _ _ Hnotin H). apply lookup_insert_ne. congruence.
    + destruct (drawn_key (src O)); [|discriminate].
      rewrite (IH _ _ _ _ _ Hnotin H). apply lookup_insert_ne. congruence.
Qed.

Lemma indexed_insert_Ok key_at amounts : forall i result_ src keys_ src',
  indexed_insert key_at i amounts result_ src = Ok (keys_, src') ->
  dom keys_ = dom result_ ∪ list_to_set amounts /\
  (forall j amount, amounts !! j = Some amount ->
     (forall j', (j < j')%nat -> amounts !! j' <> Some amount) ->
     exists key, key_at (i + j)%nat = Ok key /\ keys_ !! amount = Some key) /\
  (forall j, (j < List.length amounts)%nat -> exists key, key_at (i + j)%nat = Ok key).
Proof.
  induction amounts as [|amount rest IH]; intros i result_ src keys_ src' H.
  - injection H as <- _. split; [set_solver|]. split; [intros j a Hj; discriminate|].
    intros j Hj. cbn in Hj. lia.
  - rewrite indexed_insert_step in H. destruct (key_at i) as [key|] eqn:Hkey; [|discriminate].
    assert (Hrest : exists src1,
              indexed_insert key_at (S i) rest (<[amount := key]> result_) src1 =
                Ok (keys_, src')).
    { destruct (result_ !! amount); [eexists; exact H|].
      destruct (drawn_key (src O)); [eexists; exact H | discriminate]. }
    clear H. destruct Hrest as [src1 H].
    destruct (IH _ _ _ _ _ H) as (Hdom & Hlast & Hall). split; [|split].
    + rewrite Hdom, dom_insert_L. cbn [list_to_set]. set_solver.
    + intros j a Hj Hlater. destruct j as [|j].
      * injection Hj as <-. exists key. rewrite Nat.add_0_r. split; [exact Hkey|].
        assert (Hnotin : amount ∉ rest).
        { intros Hin. apply list_elem_of_lookup in Hin as [j' Hj'].
          apply (Hlater (S j')); [lia | exact Hj']. }
        rewrite (indexed_insert_other _ _ _ _ _ _ _ _ Hnotin H). apply lookup_insert_eq.
      * cbn [lookup] in Hj.
        destruct (Hlast j a Hj) as (k' & Hk' & Hlookup).
        { intros j' Hlt. apply (Hlater (S j')). lia. }
        exists k'. replace (i + S j)%nat with (S i + j)%nat by lia. split; assumption.
    + intros j Hj. destruct j as [|j].
      * exists key. rewrite Nat.add_0_r. exact Hkey.
      * cbn [List.length] in Hj. destruct (Hall j ltac:(lia)) as [k' Hk'].
        exists k'. replace (i + S j)%nat with (S i + j)%nat by lia. exact Hk'.
Qed.

(** The loop returns when every key can be computed and the draws, at
    most one for each amount, give valid scalars. *)
Lemma indexed_insert_returns key_at amounts : forall i result_ src,
  (forall j, (j < List.length amounts)%nat -> exists key, key_at (i + j)%nat = Ok key) ->
  (forall j, (j < List.length amounts)%nat -> exists k, drawn_key (src j) = Ok k) ->
  exists keys_ src', indexed_insert key_at i amounts result_ src = Ok (keys_, src').
Proof.
  induction amounts as [|amount rest IH]; intros i result_ src Hall Hdraws;
    [eexists _, _; reflexivity|].
  rewrite indexed_insert_step. destruct (Hall 0%nat ltac:(cbn; lia)) as [key Hkey].
  rewrite Nat.add_0_r in Hkey. rewrite Hkey.
  assert (Hall' : forall j, (j < List.length rest)%nat ->
                    exists key, key_at (S i + j)%nat = Ok key).
  { intros j Hj. replace (S i + j)%nat with (i + S j)%nat by lia. apply Hall. cbn. lia. }
  destruct (result_ !! amount).
  - apply IH; [exact Hall'|]. intros j Hj. apply Hdraws. cbn. lia.
  - destruct (Hdraws 0%nat ltac:(cbn; lia)) as [k Hk]. rewrite Hk.
    apply IH; [exact Hall'|]. intros j Hj. apply Hdraws. cbn. lia.
Qed.

(** The first key that cannot be computed ends the loop with its error. *)
Lemma indexed_insert_throws key_at amounts e : forall i result_ src j,
  (j < List.length amounts)%nat -> key_at (i + j)%nat = Throw e ->
  (forall j', (j' < j)%nat -> exists key, key_at (i + j')%nat = Ok key) ->
  (forall j', (j' < j)%nat -> exists k, drawn_key (src j') = Ok k) ->
  indexed_insert key_at i amounts result_ src = Throw e.
Proof.
  induction amounts as [|amount rest IH]; intros i result_ src j Hj He Hbefore Hdraws;
    [cbn in Hj; lia|].
  rewrite indexed_insert_step. destruct j as [|j].
  - rewrite Nat.add_0_r in He. rewrite He. reflexivity.
  - destruct (Hbefore 0%nat ltac:(lia)) as [key Hkey]. rewrite Nat.add_0_r in Hkey.
    rewrite Hkey.
    assert (Hstep : forall src1, (forall j', (j' < j)%nat -> exists k, drawn_key (src1 j') = Ok k) ->
              indexed_insert key_at (S i) rest (<[amount := key]> result_) src1 = Throw e).
    { intros src1 Hsrc1. apply (IH _ _ _ j).
      - cbn in Hj. lia.
      - replace (S i + j)%nat with (i + S j)%nat by lia. exact He.
      - intros j' Hj'. replace (S i + j')%nat with (i + S j')%nat by lia. apply Hbefore. lia.
      - exact Hsrc1. }
    destruct (result_ !! amount).
    + apply Hstep. intros j' Hj'. apply Hdraws. lia.
    + destruct (Hdraws 0%nat ltac:(lia)) as [k Hk]. rewrite Hk.
      apply Hstep. intros j' Hj'. apply Hdraws. lia.
Qed.

(** On distinct amounts that are new to the map every turn draws, and the
    first draw that is not a valid scalar ends the loop with its error. *)
Lemma indexed_insert_draw_throws key_at amounts e : forall i result_ src j,
  NoDup amounts -> (forall amount, amount ∈ amounts -> result_ !! amount = None) ->
  (j < List.length amounts)%nat -> drawn_key (src j) = Throw e ->
  (forall j', (j' <= j)%nat -> exists key, key_at (i + j')%nat = Ok key) ->
  (forall j', (j' < j)%nat -> exists k, drawn_key (src j') = Ok k) ->
  indexed_insert key_at i amounts result_ src = Throw e.
Proof.
  induction amounts as [|amount rest IH]; intros i result_ src j Hnodup Hnew Hj He Hkeys Hdraws;
    [cbn in Hj; lia|].
  apply NoDup_cons in Hnodup as [Hnotin Hnodup].
  rewrite indexed_insert_step. destruct (Hkeys 0%nat ltac:(lia)) as [key Hkey].
  rewrite Nat.add_0_r in Hkey. rewrite Hkey, (Hnew amount) by (apply list_elem_of_here).
  destruct j as [|j]; [rewrite He; reflexivity|].
  destruct (Hdraws 0%nat ltac:(lia)) as [k Hk]. rewrite Hk.
  apply (IH _ _ _ j).
  - exact Hnodup.
  - intros a Ha. rewrite lookup_insert_ne by (intros ->; contradiction).
    apply Hnew. apply list_elem_of_further, Ha.
  - cbn in Hj. lia.
  - exact He.
  - intros j' Hj'. replace (S i + j')%nat with (i + S j')%nat by lia. apply Hkeys. lia.
  - intros j' Hj'. apply Hdraws. lia.
Qed.

Section KeyDerivation.
Context {ssl : OpenSSL} {curve : Secp256k1}.
Import keys.







End KeyDerivation.

Import secp256k1_const secp_utils.

Lemma bytes_ltb_asym a : forall b, bytes_ltb a b = true -> bytes_ltb b a = false.
Proof.
  induction a as [|x a IH]; intros [|y b]; cbn; try (intros; reflexivity || discriminate).
  destruct (Z.ltb_spec (Z_of_byte x) (Z_of_byte y)), (Z.ltb_spec (Z_of_byte y) (Z_of_byte x));
    try lia; try (intros; reflexivity || discriminate).
  apply IH.
Qed.

(** Entries in ascending order of amount. *)
Definition amount_le {A : Type} (x y : Z * A) : Prop := x.1 <= y.1.

#[local] Instance amount_le_trans {A : Type} : Transitive (@amount_le A).
Proof. unfold amount_le. intros x y z. lia. Qed.

Lemma same_amount_same_entry {A : Type} (l : list (Z * A)) x y :
  NoDup (l.*1) -> x ∈ l -> y ∈ l -> x.1 = y.1 -> x = y.
Proof.
  induction l as [|e l IH]; intros Hnd Hx Hy Heq; [by apply elem_of_nil in Hx|].
  cbn in Hnd. apply NoDup_cons in Hnd as [Hnotin Hnd].
  apply elem_of_cons in Hx as [-> | Hx], Hy as [-> | Hy]; [reflexivity | | | by apply IH].
  - exfalso. apply Hnotin. rewrite Heq. apply list_elem_of_fmap. exists y. split; [reflexivity | exact Hy].
  - exfalso. apply Hnotin. rewrite <- Heq. apply list_elem_of_fmap. exists x. split; [reflexivity | exact Hx].
Qed.

Lemma sorted_by_amount_unique {A : Type} (l1 l2 : list (Z * A)) :
  NoDup (l1.*1) -> Sorted amount_le l1 -> Sorted amount_le l2 -> l1 ≡ₚ l2 -> l1 = l2.
Proof.
  intros Hnd H1 H2 Hperm. apply (Sorted_unique_strong amount_le); try assumption.
  intros x1 x2 Hx1 Hx2 Hle1 Hle2. unfold amount_le in *.
  apply (same_amount_same_entry l1); [assumption | assumption | | lia].
  rewrite Hperm. exact Hx2.
Qed.

Lemma sorted_strictly {A : Type} (l : list (Z * A)) :
  NoDup (l.*1) -> Sorted amount_le l -> Sorted (fun x y => x.1 < y.1) l.
Proof.
  induction l as [|x l IH]; intros Hnd Hs; [constructor|].
  cbn in Hnd. apply NoDup_cons in Hnd as [Hnotin Hnd].
  apply Sorted_inv in Hs as [Hs Hhd]. constructor; [by apply IH|].
  destruct Hhd as [|y l Hxy]; constructor. unfold amount_le in Hxy.
  assert (x.1 <> y.1); [|lia].
  intros Heq. apply Hnotin. rewrite Heq. cbn. left.
Qed.

Section KeysetId.
Context {ssl : OpenSSL} {curve : Secp256k1}.
Import keys.

Lemma entry_ltb_asym x y : entry_ltb x y = true -> entry_ltb y x = false.
Proof.
  unfold entry_ltb.
  destruct (Z.ltb_spec x.1 y.1), (Z.ltb_spec y.1 x.1); cbn; try lia; try discriminate;
    try reflexivity.
  apply bytes_ltb_asym.
Qed.

#[local] Instance entry_le_total : Total entry_le.
Proof.
  intros x y. unfold entry_le. destruct (entry_ltb y x) eqn:E.
  - right. apply entry_ltb_asym, E.
  - left. reflexivity.
Qed.

Lemma entry_le_amount x y : entry_le x y -> amount_le x y.
Proof.
  unfold entry_le, entry_ltb, amount_le. intros H.
  destruct (Z.ltb_spec y.1 x.1); [discriminate | lia].
Qed.

Lemma sort_entries_sorted entries : Sorted amount_le (sort_entries entries).
Proof.
  rewrite <- (list_fmap_id (sort_entries entries)).
  apply (Sorted_fmap id entry_le amount_le); [apply entry_le_amount|].
  apply Sorted_merge_sort, _.
Qed.

Lemma sort_entries_perm entries : sort_entries entries ≡ₚ entries.
Proof. apply merge_sort_Permutation. Qed.

(** An entry with its key replaced by the point the key stands for. *)
Definition entry_point (entry : Z * PublicKey) : Z * option point :=
  (entry.1, point_of entry.2).

(** [concat_serialized] reads nothing of a key but its point. *)
Fixpoint serialize_points (l : list (Z * option point)) : result (list byte) :=
  match l with
  | [] => Ok []
  | (_, None) :: _ => Throw (runtime_error "Failed to parse public key for serialization")
  | (_, Some P) :: rest =>
      tail ← serialize_points rest;
      Ok (secp256k1_ec_pubkey_serialize P true ++ tail)%list
  end.

Lemma concat_serialized_points entries :
  concat_serialized entries = serialize_points (entry_point <$> entries).
Proof.
  induction entries as [|[amount pk] entries IH]; [reflexivity|].
  cbn [concat_serialized fmap list_fmap entry_point serialize_points fst snd].
  unfold PublicKey_.serialize, point_of.
  destruct (secp256k1_ec_pubkey_parse (point_data_ pk)); [|reflexivity].
  rewrite result_bind_ok, IH. reflexivity.
Qed.

Lemma sorted_points_unique (entries entries' : list (Z * PublicKey)) :
  NoDup (entries.*1) ->
  entry_point <$> entries ≡ₚ entry_point <$> entries' ->
  entry_point <$> sort_entries entries = entry_point <$> sort_entries entries'.
Proof.
  intros Hnd Hperm.
  assert (Hfst : forall l : list (Z * PublicKey), (entry_point <$> l).*1 = l.*1).
  { intros l. rewrite <- list_fmap_compose. reflexivity. }
  assert (Hsorted : forall l, Sorted amount_le (entry_point <$> sort_entries l)).
  { intros l. apply (Sorted_fmap entry_point amount_le amount_le); [auto|].
    apply sort_entries_sorted. }
  apply sorted_by_amount_unique; [| apply Hsorted | apply Hsorted |].
  - rewrite Hfst, (sort_entries_perm entries). exact Hnd.
  - rewrite (sort_entries_perm entries), (sort_entries_perm entries'). exact Hperm.
Qed.

Lemma derive_keyset_id_points (entries entries' : list (Z * PublicKey)) :
  NoDup (entries.*1) ->
  entry_point <$> entries ≡ₚ entry_point <$> entries' ->
  derive_keyset_id entries' = derive_keyset_id entries.
Proof.
  intros Hnd Hperm. unfold derive_keyset_id.
  rewrite !concat_serialized_points, (sorted_points_unique _ _ Hnd Hperm). reflexivity.
Qed.

Lemma concat_serialized_valid entries :
  Forall (fun entry => valid_point entry.2) entries ->
  exists encodings,
    Forall2 (fun entry encoding => PublicKey_.serialize entry.2 true = Ok encoding)
      entries encodings /\
    concat_serialized entries = Ok (concat encodings).
Proof.
  induction 1 as [|[amount pk] entries [P HP] _ (encodings & Hall & IH)].
  - exists []. split; [constructor | reflexivity].
  - cbn [snd] in HP. exists (secp256k1_ec_pubkey_serialize P true :: encodings).
    split.
    + constructor; [apply PublicKey_serialize_spec, HP | exact Hall].
    + cbn [concat_serialized]. rewrite (PublicKey_serialize_spec _ _ _ HP), result_bind_ok.
      cbv beta. rewrite IH, result_bind_ok. reflexivity.
Qed.

(** C6 (keyset identifier).  For a map from amounts to valid public
    keys, iterated in any order, [derive_keyset_id] returns ["00"]
    followed by the first 14 hex characters of the SHA-256 digest of the
    compressed encodings of the keys, concatenated by ascending amount;
    and a second map that holds the same points at the same amounts,
    iterated in any order, gets the same identifier. *)
Theorem keyset_id_stability (keys : gmap Z PublicKey) (iteration : list (Z * PublicKey)) :
  iteration ≡ₚ map_to_list keys ->
  (forall amount pk, keys !! amount = Some pk -> valid_point pk) ->
  (exists (sorted_keys : list (Z * PublicKey)) (encodings : list (list byte)),
     sorted_keys ≡ₚ map_to_list keys /\
     Sorted (fun x y => x.1 < y.1) sorted_keys /\
     Forall2 (fun entry encoding => PublicKey_.serialize entry.2 true = Ok encoding)
       sorted_keys encodings /\
     derive_keyset_id iteration =
       Ok ("00" ++ substring 0 14 (bytes_to_hex (SHA256 (concat encodings))))) /\
  (forall (keys' : gmap Z PublicKey) (iteration' : list (Z * PublicKey)),
     iteration' ≡ₚ map_to_list keys' ->
     point_of <$> keys' = point_of <$> keys ->
     derive_keyset_id iteration' = derive_keyset_id iteration).
Proof.
  intros Hiter Hvalid.
  assert (Hnd : NoDup (iteration.*1)).
  { rewrite Hiter. apply NoDup_fst_map_to_list. }
  split.
  - assert (Hall : Forall (fun entry => valid_point entry.2) (sort_entries iteration)).
    { apply Forall_forall. intros [amount pk] Hin. cbn.
      apply (Hvalid amount). apply elem_of_map_to_list.
      rewrite <- Hiter, <- (sort_entries_perm iteration). exact Hin. }
    destruct (concat_serialized_valid _ Hall) as (encodings & Henc & Hconcat).
    exists (sort_entries iteration), encodings.
    split; [rewrite sort_entries_perm; exact Hiter|].
    split.
    { apply sorted_strictly; [|apply sort_entries_sorted].
      rewrite (sort_entries_perm iteration). exact Hnd. }
    split; [exact Henc|].
    unfold derive_keyset_id. rewrite Hconcat, result_bind_ok. reflexivity.
  - intros keys' iteration' Hiter' Hpoints.
    apply derive_keyset_id_points; [exact Hnd|].
    assert (Hlist : forall (m : gmap Z PublicKey) l, l ≡ₚ map_to_list m ->
              entry_point <$> l ≡ₚ map_to_list (point_of <$> m)).
    { intros m l Hl. rewrite map_to_list_fmap, Hl. reflexivity. }
    rewrite (Hlist _ _ Hiter), (Hlist _ _ Hiter'), Hpoints. reflexivity.
Qed.

End KeysetId.

Local Close Scope string_scope.

(** ** Primality certificates *)

(** Every number above one has a prime divisor. *)
Lemma prime_divisor_exists (c : Z) : 1 < c -> exists r, Z.prime r /\ (r | c).
Proof.
  intros Hc. assert (Hnat : exists n : nat, c < Z.of_nat n) by (exists (Z.to_nat (c + 1)); lia).
  destruct Hnat as [n Hn]. revert c Hc Hn.
  induction n as [|n IH]; intros c Hc Hn; [lia|].
  destruct (prime_dec c) as [Hp | Hnp].
  - exists c. split; [apply prime_alt, Hp | apply Z.divide_refl].
  - destruct (not_prime_divide c Hc Hnp) as (d & Hd & Hdiv).
    destruct (IH d) as (r & Hr & Hrd); [lia | lia |].
    exists r. split; [exact Hr | eapply Z.divide_trans; eassumption].
Qed.

(** The number a list of prime powers [(q, e)] multiplies to. *)
Definition factors_product (factors : list (Z * Z)) : Z :=
  fold_right (fun f acc => f.1 ^ f.2 * acc) 1 factors.

Lemma prime_divides_factors r factors :
  Z.prime r -> Forall (fun f => Z.prime f.1 /\ 0 <= f.2) factors ->
  (r | factors_product factors) -> exists f, f ∈ factors /\ r = f.1.
Proof.
  intros Hr. induction 1 as [|f factors [Hq He] _ IH]; cbn.
  - intros H1. apply Z.divide_1_r in H1. destruct Hr as [Hr _]. lia.
  - intros Hdiv. apply Z.divide_prime_mul in Hdiv as [Hdiv | Hdiv]; [| | exact Hr].
    + exists f. split; [left | eapply Z.divide_prime_pp; eassumption].
    + destruct (IH Hdiv) as (f' & Hin & Heq). exists f'. split; [right; exact Hin | exact Heq].
Qed.

Lemma pow_mod_one a p k : 1 < p -> 0 <= k -> a mod p = 1 -> a ^ k mod p = 1.
Proof.
  intros Hp Hk Ha. pattern k. apply natlike_ind; [| | exact Hk].
  - cbn. apply Z.mod_small. lia.
  - intros x Hx IH. rewrite Z.pow_succ_r by exact Hx.
    rewrite Z.mul_mod, Ha, IH by lia. apply Z.mod_small. lia.
Qed.

Section Pratt.
Variables (p a : Z) (factors : list (Z * Z)).
Hypothesis p_gt_1 : 1 < p.
Hypothesis factors_prime : Forall (fun f => Z.prime f.1 /\ 0 <= f.2) factors.
Hypothesis factors_correct : factors_product factors = p - 1.
Hypothesis a_order_divides : a ^ (p - 1) mod p = 1.
Hypothesis a_order_maximal : Forall (fun f => a ^ ((p - 1) / f.1) mod p <> 1) factors.

Lemma witness_coprime : Z.coprime a p.
Proof.
  apply Z.coprime_Bezout. exists (a ^ (p - 2)), (- (a ^ (p - 1) / p)).
  pose proof (Z.div_mod (a ^ (p - 1)) p ltac:(lia)) as Hdm.
  rewrite a_order_divides in Hdm.
  replace (p - 1) with (Z.succ (p - 2)) in Hdm at 1 by lia.
  rewrite Z.pow_succ_r in Hdm by lia. lia.
Qed.

Lemma power_coprime i : 0 <= i -> Z.coprime (a ^ i mod p) p.
Proof.
  intros Hi. apply Z.coprime_mod_l_iff, Z.coprime_pow_l; [exact Hi | apply witness_coprime].
Qed.

Lemma power_range i : 0 <= i -> 1 <= a ^ i mod p < p.
Proof.
  intros Hi. pose proof (Z.mod_pos_bound (a ^ i) p ltac:(lia)) as Hb.
  assert (a ^ i mod p <> 0); [|lia].
  intros H0. pose proof (power_coprime i Hi) as Hc. rewrite H0 in Hc.
  apply (proj1 (Z.coprime_0_l_iff p)) in Hc. lia.
Qed.

(** No exponent strictly between 0 and [p - 1] sends [a] to one. *)
Lemma witness_order d : 0 < d < p - 1 -> a ^ d mod p <> 1.
Proof.
  intros Hd Had.
  set (g := Z.gcd d (p - 1)).
  assert (Hg_pos : 0 < g).
  { pose proof (Z.gcd_nonneg d (p - 1)). assert (g <> 0); [|subst g; lia].
    intros H0. apply Z.gcd_eq_0_l in H0. lia. }
  (* a ^ g = 1 (mod p), by Bezout with coefficients made non-negative *)
  assert (Hag : a ^ g mod p = 1).
  { destruct (Z.gcd_bezout d (p - 1) g eq_refl) as (x & y & Hxy).
    set (t := Z.abs x + Z.abs y + 1).
    set (u := x + t * (p - 1)). set (v := t * d - y).
    assert (Hu : 0 <= u) by (subst u t; nia).
    assert (Hv : 0 <= v) by (subst v t; nia).
    assert (Huv : u * d = g + v * (p - 1)) by (subst u v; lia).
    assert (H1 : a ^ (u * d) mod p = 1).
    { rewrite Z.mul_comm, Z.pow_mul_r by lia. apply pow_mod_one; assumption. }
    rewrite Huv, Z.pow_add_r, Z.mul_mod in H1 by nia.
    rewrite (Z.mul_comm v), Z.pow_mul_r in H1 by lia.
    rewrite (pow_mod_one _ p v p_gt_1 Hv a_order_divides) in H1.
    rewrite Z.mul_1_r, Z.mod_mod in H1 by lia. exact H1. }
  destruct (Z.gcd_divide_r d (p - 1)) as [c Hc]. fold g in Hc.
  assert (Hg_le : g <= d).
  { apply Z.divide_pos_le; [lia | apply Z.gcd_divide_l]. }
  assert (Hc_gt : 1 < c) by nia.
  destruct (prime_divisor_exists c Hc_gt) as (r & Hr & [c' Hc']).
  destruct (prime_divides_factors r factors Hr factors_prime) as (f & Hin & ->).
  { rewrite factors_correct, Hc, Hc'. exists (c' * g). lia. }
  pose proof (Z.prime_ge_2 _ Hr) as Hq.
  rewrite Forall_forall in a_order_maximal. apply (a_order_maximal f Hin).
  replace ((p - 1) / f.1) with (g * c').
  - assert (0 <= c') by nia. rewrite Z.pow_mul_r by lia. apply pow_mod_one; assumption.
  - apply Z.div_unique_exact; [lia|]. rewrite Hc, Hc'. lia.
Qed.

Lemma powers_distinct i j : 0 <= i < j -> j < p - 1 -> a ^ i mod p <> a ^ j mod p.
Proof.
  intros Hij Hj Heq. apply (witness_order (j - i)); [lia|].
  replace j with (i + (j - i)) in Heq by lia.
  rewrite Z.pow_add_r in Heq by lia.
  assert (Hdiv : (p | a ^ i * (a ^ (j - i) - 1))).
  { apply Z.mod_divide; [lia|].
    rewrite Z.mul_sub_distr_l, Z.mul_1_r, Zminus_mod, <- Heq, Z.sub_diag. reflexivity. }
  apply Z.gauss in Hdiv.
  - destruct Hdiv as [k Hk].
    replace (a ^ (j - i)) with (1 + k * p) by lia. rewrite Z.mod_add by lia.
    apply Z.mod_small. lia.
  - rewrite Z.gcd_comm. apply Z.coprime_pow_l; [lia | apply witness_coprime].
Qed.

(** The powers of [a] exhaust the non-zero residues, which are thereby
    all coprime to [p]. *)
Lemma residue_coprime k : 1 <= k < p -> Z.coprime k p.
Proof.
  intros Hk.
  set (powers := (fun i => a ^ i mod p) <$> seqZ 0 (p - 1)).
  set (residues := seqZ 1 (p - 1)).
  assert (Hnodup : NoDup powers).
  { apply NoDup_fmap_2_strong; [|apply NoDup_seqZ].
    intros i j Hi Hj Heq. apply elem_of_seqZ in Hi, Hj.
    destruct (Z.lt_trichotomy i j) as [Hlt | [-> | Hgt]]; [| reflexivity |].
    - exfalso. apply (powers_distinct i j); [lia | lia | exact Heq].
    - exfalso. apply (powers_distinct j i); [lia | lia | symmetry; exact Heq]. }
  assert (Hincl : incl powers residues).
  { intros x Hx. apply list_elem_of_In in Hx. apply list_elem_of_In.
    apply list_elem_of_fmap in Hx as (i & -> & Hi). apply elem_of_seqZ in Hi.
    apply elem_of_seqZ. pose proof (power_range i ltac:(lia)). lia. }
  assert (Hlen : (List.length residues <= List.length powers)%nat).
  { subst powers residues. rewrite length_fmap, !length_seqZ. lia. }
  apply NoDup_ListNoDup in Hnodup.
  pose proof (NoDup_length_incl Hnodup Hlen Hincl k) as Hin.
  assert (Hk_in : In k residues).
  { apply list_elem_of_In, elem_of_seqZ. lia. }
  apply Hin, list_elem_of_In, list_elem_of_fmap in Hk_in as (i & -> & Hi).
  apply elem_of_seqZ in Hi. apply power_coprime. lia.
Qed.

Theorem pratt_prime : Z.prime p.
Proof.
  split; [exact p_gt_1|]. intros d Hd Hdiv.
  pose proof (residue_coprime d ltac:(lia)) as Hc. unfold Z.coprime in Hc.
  rewrite (Z.divide_gcd_iff d p) in Hdiv by lia. lia.
Qed.

End Pratt.

(** The certificate checker. *)
Definition pratt_check (p a : Z) (factors : list (Z * Z)) : bool :=
  (1 <? p) && (factors_product factors =? p - 1) && (Zpow_mod a (p - 1) p =? 1)
  && forallb (fun f => negb (Zpow_mod a ((p - 1) / f.1) p =? 1)) factors.

Lemma pratt_check_sound p a factors :
  pratt_check p a factors = true ->
  Forall (fun f => Z.prime f.1 /\ 0 <= f.2) factors -> Z.prime p.
Proof.
  unfold pratt_check. rewrite !andb_true_iff, forallb_forall.
  intros [[[Hp Hprod] Hpow] Hall] Hprimes.
  apply Z.ltb_lt in Hp. apply Z.eqb_eq in Hprod, Hpow.
  rewrite Zpow_mod_correct in Hpow by lia.
  apply (pratt_prime p a factors); try assumption.
  apply Forall_forall. intros f Hin. apply list_elem_of_In in Hin.
  specialize (Hall f Hin). rewrite Zpow_mod_correct in Hall by lia.
  apply negb_true_iff, Z.eqb_neq in Hall. exact Hall.
Qed.

(** Trial division, for the small primes at the leaves. *)
Fixpoint no_divisor_from (fuel : nat) (d p : Z) : bool :=
  match fuel with
  | O => false
  | S fuel' =>
      if p <? d * d then true
      else if p mod d =? 0 then false
      else no_divisor_from fuel' (d + 1) p
  end.

Definition trial_division (p : Z) : bool :=
  (1 <? p) && no_divisor_from (Z.to_nat (Z.sqrt p) + 1) 2 p.

Lemma no_divisor_from_sound fuel : forall d p,
  0 < d -> no_divisor_from fuel d p = true ->
  forall k, d <= k -> k * k <= p -> ~ (k | p).
Proof.
  induction fuel as [|fuel IH]; intros d p Hd; cbn; [discriminate|].
  destruct (Z.ltb_spec p (d * d)) as [Hlt | Hge].
  - intros _ k Hk Hkk. nia.
  - destruct (Z.eqb_spec (p mod d) 0) as [|Hmod]; [discriminate|].
    intros Hrec k Hk Hkk Hdiv.
    destruct (Z.eq_dec k d) as [-> | Hne].
    + apply Hmod, Z.mod_divide; [lia | exact Hdiv].
    + apply (IH (d + 1) p ltac:(lia) Hrec k); [lia | exact Hkk | exact Hdiv].
Qed.

Lemma trial_division_sound p : trial_division p = true -> Z.prime p.
Proof.
  unfold trial_division. rewrite andb_true_iff. intros [Hp Hnd]. apply Z.ltb_lt in Hp.
  pose proof (no_divisor_from_sound _ 2 p ltac:(lia) Hnd) as Hsound.
  split; [exact Hp|]. intros n Hn [m Hm].
  assert (Hm_range : 1 < m < p) by nia.
  destruct (Z.le_gt_cases (n * n) p) as [Hle | Hgt].
  - apply (Hsound n); [lia | exact Hle | exists m; exact Hm].
  - apply (Hsound m); [lia | nia | exists n; lia].
Qed.

Local Open Scope string_scope.
Local Open Scope Z_scope.

Local Close Scope string_scope.

Import secp256k1_const.

(** ** The order of the curve is prime *)

Create HintDb certified_primes.

Ltac prime_leaf := apply trial_division_sound; vm_compute; reflexivity.

Ltac prime_factors :=
  repeat (apply List.Forall_cons;
          [cbn [fst snd];
           split; [first [solve [auto with certified_primes] | prime_leaf] | lia] |]);
  apply List.Forall_nil.

Ltac certify a factors :=
  apply (pratt_check_sound _ a factors); [vm_compute; reflexivity | prime_factors].

Lemma prime_297159362677 : Z.prime 297159362677.
Proof. certify 2 [(2, 2); (3, 2); (11, 1); (461, 1); (1627771, 1)]. Qed.
#[local] Hint Resolve prime_297159362677 : certified_primes.

Lemma prime_29047611873442575647497758179 : Z.prime 29047611873442575647497758179.
Proof.
  certify 2 [(2, 1); (293, 1); (305873, 1); (545358713, 1); (297159362677, 1)].
Qed.
#[local] Hint Resolve prime_29047611873442575647497758179 : certified_primes.

Lemma prime_341948486974166000522343609283189 :
  Z.prime 341948486974166000522343609283189.
Proof.
  certify 2 [(2, 2); (3, 3); (109, 1); (29047611873442575647497758179, 1)].
Qed.
#[local] Hint Resolve prime_341948486974166000522343609283189 : certified_primes.

Lemma prime_174723607534414371449 : Z.prime 174723607534414371449.
Proof.
  certify 3 [(2, 3); (17, 1); (59, 1); (4051, 1); (120233, 1); (44706919, 1)].
Qed.
#[local] Hint Resolve prime_174723607534414371449 : certified_primes.

Lemma prime_107361793816595537 : Z.prime 107361793816595537.
Proof. certify 3 [(2, 4); (16699, 1); (85831, 1); (4681609, 1)]. Qed.
#[local] Hint Resolve prime_107361793816595537 : certified_primes.

Theorem CURVE_ORDER_prime : Z.prime CURVE_ORDER.
Proof.
  certify 7 [(2, 6); (3, 1); (149, 1); (631, 1); (107361793816595537, 1);
             (174723607534414371449, 1); (341948486974166000522343609283189, 1)].
Qed.

Lemma scalar_product_nonzero k P :
  0 < k < CURVE_ORDER -> 0 < P < CURVE_ORDER -> (k * P) mod CURVE_ORDER <> 0.
Proof.
  intros Hk HP Hz. apply Z.mod_divide in Hz; [|unfold CURVE_ORDER; lia].
  apply (Z.divide_prime_mul _ _ _ CURVE_ORDER_prime) in Hz as [Hz | Hz];
    apply Z.divide_pos_le in Hz; lia.
Qed.

Local Open Scope string_scope.
Local Open Scope Z_scope.

Import secp256k1_const secp_utils.

(** * Further properties of secp.cpp *)

(** ** Hexadecimal text *)

Lemma substring_0_0 s : substring 0 0 s = "".
Proof. destruct s; reflexivity. Qed.

Lemma substring_0_length s : substring 0 (String.length s) s = s.
Proof. induction s as [|c s IH]; [reflexivity|]. cbn. rewrite IH. reflexivity. Qed.

Lemma substring_length_le n s :
  (n <= String.length s)%nat -> String.length (substring 0 n s) = n.
Proof.
  revert s. induction n as [|n IH]; intros s Hn.
  - rewrite substring_0_0. reflexivity.
  - destruct s as [|c s]; cbn in Hn; [lia|]. cbn. rewrite IH by lia. reflexivity.
Qed.

Lemma substring_2_length s :
  String.length (substring 2 (String.length s - 2) s) = (String.length s - 2)%nat.
Proof.
  destruct s as [|c1 [|c2 s]]; [reflexivity | reflexivity |].
  replace (String.length (String c1 (String c2 s)) - 2)%nat with (String.length s)
    by (cbn [String.length]; lia).
  cbn [substring]. apply f_equal, substring_0_length.
Qed.

Lemma hex_chunks_length s :
  List.length (hex_chunks s) = ((String.length s + 1) / 2)%nat.
Proof.
  assert (H : List.length (hex_chunks s) = ((String.length s + 1) / 2)%nat /\
              forall c, List.length (hex_chunks (String c s)) =
                          ((String.length (String c s) + 1) / 2)%nat);
    [|exact (proj1 H)].
  induction s as [|c' s [IH1 IH2]].
  - split; [reflexivity | intros c; reflexivity].
  - split; [apply IH2|]. intros c. rewrite hex_chunks_pair.
    cbn [String.length List.length]. rewrite IH1.
    replace (S (S (String.length s)) + 1)%nat with (String.length s + 1 + 1 * 2)%nat by lia.
    rewrite Nat.div_add by lia. lia.
Qed.

(** X1 (hex round trip).  [hex_to_bytes] reads back what [bytes_to_hex]
    writes, also behind a ["0x"] or ["0X"] prefix, and [bytes_to_hex]
    writes two characters for every byte. *)
Theorem hex_round_trip (bytes : list byte) :
  hex_to_bytes (bytes_to_hex bytes) = bytes /\
  hex_to_bytes ("0x" ++ bytes_to_hex bytes) = bytes /\
  hex_to_bytes ("0X" ++ bytes_to_hex bytes) = bytes /\
  String.length (bytes_to_hex bytes) = (2 * List.length bytes)%nat.
Proof.
  assert (Hprefixed : forall x : ascii,
            (String.eqb (String "0" (String x "")) "0x"
             || String.eqb (String "0" (String x "")) "0X") = true ->
            hex_to_bytes (String "0" (String x (bytes_to_hex bytes))) = bytes).
  { intros x Hx. unfold hex_to_bytes.
    replace (String.length (String "0" (String x (bytes_to_hex bytes))) - 2)%nat
      with (String.length (bytes_to_hex bytes)) by (cbn [String.length]; lia).
    cbn [substring]. rewrite substring_0_0, Hx.
    rewrite substring_0_length, bytes_to_hex_length.
    replace (2 * List.length bytes)%nat with (List.length bytes * 2)%nat by lia.
    rewrite Nat.Div0.mod_mul. cbn [Nat.eqb negb].
    apply hex_chunks_bytes_to_hex. }
  split; [apply hex_to_bytes_to_hex|].
  split; [apply (Hprefixed "x"%char); reflexivity|].
  split; [apply (Hprefixed "X"%char); reflexivity|].
  apply bytes_to_hex_length.
Qed.

(** The padding step followed by the chunk loop. *)
Lemma padded_chunks_length clean :
  List.length (hex_chunks (if negb (Nat.eqb (String.length clean mod 2) 0)
                           then "0" ++ clean else clean))
  = ((String.length clean + 1) / 2)%nat.
Proof.
  destruct (Nat.eqb_spec (String.length clean mod 2) 0) as [Heven | Hodd]; cbn [negb].
  - apply hex_chunks_length.
  - change ("0" ++ clean) with (String "0" clean).
    rewrite hex_chunks_length. cbn [String.length].
    pose proof (Nat.div_mod_eq (String.length clean) 2) as Hdm.
    pose proof (Nat.mod_upper_bound (String.length clean) 2 ltac:(lia)) as Hlt.
    assert (Hone : (String.length clean mod 2 = 1)%nat) by lia.
    replace (S (String.length clean) + 1)%nat
      with (1 + (String.length clean / 2 + 1) * 2)%nat by lia.
    replace (String.length clean + 1)%nat
      with (0 + (String.length clean / 2 + 1) * 2)%nat by lia.
    rewrite !Nat.div_add by lia. reflexivity.
Qed.

(** X2 (size of decoded hex).  [hex_to_bytes] never fails: once an
    optional ["0x"]/["0X"] prefix is dropped, a text of [d] characters
    gives [ceil (d / 2)] bytes, whatever the characters are (an odd text is
    padded with one ["0"] on the left). *)
Theorem hex_to_bytes_length (hex : string) :
  let has_prefix :=
    String.eqb (substring 0 2 hex) "0x" || String.eqb (substring 0 2 hex) "0X" in
  let digits := if has_prefix then (String.length hex - 2)%nat else String.length hex in
  List.length (hex_to_bytes hex) = ((digits + 1) / 2)%nat.
Proof.
  cbv zeta. unfold hex_to_bytes.
  destruct (String.eqb (substring 0 2 hex) "0x" || String.eqb (substring 0 2 hex) "0X").
  - rewrite padded_chunks_length, substring_2_length. reflexivity.
  - apply padded_chunks_length.
Qed.

(** ** PrivateKey *)

(** X3 (scalar round trip).  A valid scalar serialises to 32 bytes and to
    64 hex characters, and both constructors read it back; conversely the
    bytes a scalar was built from are the bytes it serialises to. *)
Theorem PrivateKey_round_trip (k : PrivateKey) :
  valid_scalar k ->
  List.length (PrivateKey_.serialize k) = 32%nat /\
  String.length (PrivateKey_.to_hex k) = 64%nat /\
  PrivateKey_.of_bytes (PrivateKey_.serialize k) = Ok k /\
  PrivateKey_.of_hex (PrivateKey_.to_hex k) = Ok k /\
  (forall key_data, PrivateKey_.of_bytes key_data = Ok k -> PrivateKey_.serialize k = key_data).
Proof.
  intros Hk. destruct k as [v]. unfold valid_scalar in Hk. cbn [private_key_] in Hk.
  unfold PrivateKey_.to_hex, PrivateKey_.serialize. cbn [private_key_].
  assert (Hlen : List.length (be_bytes 32 v) = 32%nat) by apply be_bytes_length.
  assert (Hint : PrivateKey_.of_int (be_int (be_bytes 32 v)) = Ok (mkPrivateKey v)).
  { rewrite be_int_be_bytes_scalar by lia. rewrite of_int_spec.
    rewrite bool_decide_eq_true_2 by lia. reflexivity. }
  split; [exact Hlen|].
  split; [rewrite bytes_to_hex_length, Hlen; reflexivity|].
  split; [rewrite of_bytes_spec by exact Hlen; exact Hint|].
  split; [rewrite of_hex_spec by exact Hlen; exact Hint|].
  intros key_data Hdata. apply valid_scalar_of_bytes in Hdata as (_ & Hlength & Hvalue).
  cbn [private_key_] in Hvalue. rewrite Hvalue, <- Hlength. apply be_bytes_be_int.
Qed.

Lemma scalar_tweak_add (k : PrivateKey) (scalar : Z) :
  valid_scalar k -> 0 <= private_key_ k + scalar ->
  PrivateKey_.tweak_add k scalar =
    if decide ((private_key_ k + scalar) mod CURVE_ORDER = 0)
    then Throw (invalid_argument "Private key must be in range [1, curve_order)")
    else Ok (mkPrivateKey ((private_key_ k + scalar) mod CURVE_ORDER)).
Proof.
  intros Hk Hsum. assert (Hn : 0 < CURVE_ORDER) by reflexivity.
  unfold PrivateKey_.tweak_add.
  rewrite Z.rem_mod_nonneg by lia. rewrite of_int_spec.
  pose proof (Z.mod_pos_bound (private_key_ k + scalar) CURVE_ORDER Hn).
  destruct (decide _) as [Hz | Hz].
  - rewrite bool_decide_eq_false_2 by lia. reflexivity.
  - rewrite bool_decide_eq_true_2 by lia. reflexivity.
Qed.

(** X4 (additive tweak of a scalar).  For a valid scalar [k]: when
    [k + scalar] is not negative, [tweak_add] returns the scalar
    [(k + scalar) mod n], and raises the range error when that is zero;
    when [k + scalar] is negative it always raises, because [%] on
    [cpp_int] keeps the sign of the dividend. *)
Theorem PrivateKey_tweak_add_outcome (k : PrivateKey) (scalar : Z) :
  valid_scalar k ->
  (0 <= private_key_ k + scalar ->
   PrivateKey_.tweak_add k scalar =
     if decide ((private_key_ k + scalar) mod CURVE_ORDER = 0)
     then Throw (invalid_argument "Private key must be in range [1, curve_order)")
     else Ok (mkPrivateKey ((private_key_ k + scalar) mod CURVE_ORDER))) /\
  (private_key_ k + scalar < 0 ->
   PrivateKey_.tweak_add k scalar =
     Throw (invalid_argument "Private key must be in range [1, curve_order)")).
Proof.
  intros Hk. split; intros Hsum.
  - apply scalar_tweak_add; assumption.
  - assert (Hn : 0 < CURVE_ORDER) by reflexivity.
    unfold PrivateKey_.tweak_add. rewrite of_int_spec.
    pose proof (Z.rem_bound_pos_neg (private_key_ k + scalar) CURVE_ORDER Hn ltac:(lia)).
    rewrite bool_decide_eq_false_2 by lia. reflexivity.
Qed.

Lemma scalar_tweak_mul (a b : PrivateKey) :
  valid_scalar a -> valid_scalar b ->
  PrivateKey_.tweak_mul a (PrivateKey_.raw_value b) =
    Ok (mkPrivateKey ((private_key_ a * private_key_ b) mod CURVE_ORDER)) /\
  valid_scalar (mkPrivateKey ((private_key_ a * private_key_ b) mod CURVE_ORDER)).
Proof.
  intros Ha Hb. unfold valid_scalar in *.
  assert (Hn : 0 < CURVE_ORDER) by reflexivity.
  pose proof (scalar_product_nonzero _ _ Ha Hb) as Hnz.
  pose proof (Z.mod_pos_bound (private_key_ a * private_key_ b) CURVE_ORDER Hn) as Hr.
  unfold PrivateKey_.tweak_mul, PrivateKey_.raw_value.
  rewrite Z.rem_mod_nonneg by nia. rewrite of_int_spec.
  rewrite bool_decide_eq_true_2 by lia. cbn [private_key_].
  split; [reflexivity | lia].
Qed.

(** X5 (product of scalars).  For valid scalars [a] and [b],
    [tweak_mul] never raises (the group order is prime): it returns the
    valid scalar [a * b mod n], the same in either order. *)
Theorem PrivateKey_tweak_mul_valid (a b : PrivateKey) :
  valid_scalar a -> valid_scalar b ->
  exists c,
    PrivateKey_.tweak_mul a (PrivateKey_.raw_value b) = Ok c /\
    PrivateKey_.tweak_mul b (PrivateKey_.raw_value a) = Ok c /\
    valid_scalar c /\
    private_key_ c = (private_key_ a * private_key_ b) mod CURVE_ORDER.
Proof.
  intros Ha Hb.
  destruct (scalar_tweak_mul a b Ha Hb) as [Hab Hvalid].
  destruct (scalar_tweak_mul b a Hb Ha) as [Hba _].
  rewrite (Z.mul_comm (private_key_ b)) in Hba.
  exists (mkPrivateKey ((private_key_ a * private_key_ b) mod CURVE_ORDER)).
  repeat split; [exact Hab | exact Hba | apply Hvalid ..].
Qed.

Import secp256k1_const secp_utils.

(** ** PublicKey *)

Section PublicKeyAlgebra.
Context {curve : Secp256k1}.

Lemma of_bytes_uncompressed P :
  P <> infinity ->
  PublicKey_.of_bytes (secp256k1_ec_pubkey_serialize P false) false =
    Ok (mkPublicKey (secp256k1_ec_pubkey_serialize P false) false).
Proof.
  intros HP. unfold PublicKey_.of_bytes, PublicKey_.init_from_data.
  rewrite serialize_uncompressed_length. cbn [Nat.eqb andb].
  assert (Hhead : bool_decide (head (secp256k1_ec_pubkey_serialize P false) = Some x04) = true)
    by reflexivity.
  rewrite Hhead. cbn [mbind result_bind].
  unfold PublicKey_.validate_point, secp256k1_ec_pubkey_parse. cbn [point_data_].
  cbn [secp256k1_ec_pubkey_serialize]. rewrite pubkey_parse_uncompressed by exact HP.
  reflexivity.
Qed.

Lemma point_of_uncompressed P :
  P <> infinity ->
  point_of (mkPublicKey (secp256k1_ec_pubkey_serialize P false) false) = Some P.
Proof. intros HP. apply pubkey_parse_uncompressed, HP. Qed.

Lemma of_bytes_serialized P compressed :
  P <> infinity ->
  PublicKey_.of_bytes (secp256k1_ec_pubkey_serialize P compressed) false =
    Ok (mkPublicKey (secp256k1_ec_pubkey_serialize P compressed) compressed) /\
  point_of (mkPublicKey (secp256k1_ec_pubkey_serialize P compressed) compressed) = Some P.
Proof.
  intros HP. destruct compressed.
  - split; [apply of_bytes_compressed, HP | apply point_of_compressed_key, HP].
  - split; [apply of_bytes_uncompressed, HP | apply point_of_uncompressed, HP].
Qed.

(** X6 (public key round trip).  A key that holds the point [P]
    serialises, compressed or not, to 33 or 65 bytes from which the byte
    constructor and, through [to_hex], the hex constructor rebuild a key
    in that format that compares equal to the first. *)
Theorem PublicKey_round_trip (pk : PublicKey) (compressed : bool) :
  valid_point pk ->
  exists (data : list byte) (pk' : PublicKey),
    PublicKey_.serialize pk compressed = Ok data /\
    List.length data = (if compressed then 33 else 65)%nat /\
    PublicKey_.to_hex pk compressed = Ok (bytes_to_hex data) /\
    PublicKey_.of_bytes data false = Ok pk' /\
    PublicKey_.of_hex (bytes_to_hex data) = Ok pk' /\
    point_data_ pk' = data /\ is_compressed_ pk' = compressed /\
    PublicKey_.eqb pk pk' = Ok true.
Proof.
  intros [P HP]. pose proof (point_of_finite _ _ HP) as Hfinite.
  destruct (of_bytes_serialized P compressed Hfinite) as [Hbytes Hpoint].
  exists (secp256k1_ec_pubkey_serialize P compressed),
         (mkPublicKey (secp256k1_ec_pubkey_serialize P compressed) compressed).
  split; [apply PublicKey_serialize_spec, HP|].
  split; [destruct compressed;
          [apply serialize_compressed_length | apply serialize_uncompressed_length]|].
  split; [unfold PublicKey_.to_hex; rewrite (PublicKey_serialize_spec _ _ _ HP);
          reflexivity|].
  split; [exact Hbytes|].
  split; [unfold PublicKey_.of_hex; rewrite hex_to_bytes_to_hex; exact Hbytes|].
  split; [reflexivity|]. split; [reflexivity|].
  rewrite (PublicKey_eqb_spec _ _ _ _ HP Hpoint).
  rewrite bool_decide_eq_true_2 by reflexivity. reflexivity.
Qed.

(** What the constructor returns, when it returns. *)
Lemma of_bytes_Ok data raw pk :
  PublicKey_.of_bytes data raw = Ok pk ->
  valid_point pk /\ point_data_ pk = (if raw then x04 :: data else data) /\
  is_compressed_ pk = (if raw then false else Nat.eqb (List.length data) 33).
Proof.
  unfold PublicKey_.of_bytes, PublicKey_.init_from_data. intros H.
  apply result_bind_Ok in H as (pk0 & Hformat & H).
  apply result_bind_Ok in H as ([] & Hvalid & [= <-]).
  assert (Hpoint : valid_point pk0).
  { unfold PublicKey_.validate_point in Hvalid. unfold valid_point, point_of.
    destruct (secp256k1_ec_pubkey_parse (point_data_ pk0)) as [P|]; [|discriminate].
    exists P. reflexivity. }
  split; [exact Hpoint|]. destruct raw.
  - destruct (negb _); [discriminate|]. injection Hformat as <-. split; reflexivity.
  - destruct (Nat.eqb_spec (List.length data) 33) as [H33 | H33]; cbn [andb] in Hformat.
    + destruct (_ || _).
      * injection Hformat as <-. split; reflexivity.
      * rewrite H33 in Hformat. cbn [Nat.eqb andb] in Hformat. discriminate.
    + destruct (_ && _); [|discriminate]. injection Hformat as <-. split; reflexivity.
Qed.

Lemma is_valid_spec pk : PublicKey_.is_valid pk = true <-> valid_point pk.
Proof.
  unfold PublicKey_.is_valid, valid_point, point_of.
  destruct (secp256k1_ec_pubkey_parse (point_data_ pk)) as [P|].
  - split; [intros _; exists P; reflexivity | reflexivity].
  - split; [discriminate | intros [P HP]; discriminate].
Qed.

Lemma mapM_result_Ok {A B : Type} (f : A -> result B) l ys :
  mapM (M := result) f l = Ok ys -> Forall2 (fun x y => f x = Ok y) l ys.
Proof.
  revert ys. induction l as [|x l IH]; intros ys H.
  - injection H as <-. constructor.
  - cbn [mapM] in H. apply result_bind_Ok in H as (y & Hy & H).
    apply result_bind_Ok in H as (k & Hk & [= <-]).
    constructor; [exact Hy | apply IH, Hk].
Qed.

Definition operation_result (pk : PublicKey) : Prop :=
  exists P, PublicKey_.of_bytes (secp256k1_ec_pubkey_serialize P true) false = Ok pk.

Lemma add_Ok a b pk : PublicKey_.add a b = Ok pk -> operation_result pk.
Proof.
  unfold PublicKey_.add.
  destruct (secp256k1_ec_pubkey_parse (point_data_ a)); [|discriminate].
  destruct (secp256k1_ec_pubkey_parse (point_data_ b)); [|discriminate].
  destruct (secp256k1_ec_pubkey_combine _) as [P|]; [|discriminate].
  intros H. exists P. exact H.
Qed.

Lemma neg_Ok a pk : PublicKey_.neg a = Ok pk -> operation_result pk.
Proof.
  intros H. destruct (point_of a) as [P|] eqn:Ha.
  - rewrite (PublicKey_neg_spec _ _ Ha) in H. injection H as <-.
    exists (pneg P). apply of_bytes_compressed, pneg_finite, (point_of_finite _ _ Ha).
  - unfold PublicKey_.neg, PublicKey_.serialize in H. unfold point_of in Ha.
    rewrite Ha in H. discriminate H.
Qed.

Lemma tweak_mul_Ok a scalar pk : PublicKey_.tweak_mul a scalar = Ok pk -> operation_result pk.
Proof.
  unfold PublicKey_.tweak_mul. cbv zeta.
  destruct (secp256k1_ec_pubkey_parse (point_data_ a)) as [Q|]; [|discriminate].
  destruct (secp256k1_ec_pubkey_tweak_mul Q _) as [P|]; [|discriminate].
  intros H. exists P. exact H.
Qed.

Lemma tweak_add_Ok a scalar pk : PublicKey_.tweak_add a scalar = Ok pk -> operation_result pk.
Proof.
  unfold PublicKey_.tweak_add. cbv zeta.
  destruct (secp256k1_ec_pubkey_parse (point_data_ a)) as [Q|]; [|discriminate].
  destruct (secp256k1_ec_pubkey_tweak_add Q _) as [P|]; [|discriminate].
  intros H. exists P. exact H.
Qed.

Lemma combine_Ok pubkeys pk : PublicKey_.combine pubkeys = Ok pk -> operation_result pk.
Proof.
  destruct pubkeys as [|first rest]; [discriminate|].
  unfold PublicKey_.combine.
  destruct (mapM _ (first :: rest)) as [parsed|]; [|discriminate].
  cbn [mbind result_bind].
  destruct (secp256k1_ec_pubkey_combine parsed) as [P|]; [|discriminate].
  intros H. exists P. exact H.
Qed.

Lemma pubkey_Ok k pk : PublicKey_.pubkey k = Ok pk -> operation_result pk.
Proof.
  unfold PublicKey_.pubkey. cbv zeta.
  destruct (secp256k1_ec_pubkey_create _) as [P|]; [|discriminate].
  intros H. exists P. exact H.
Qed.

Lemma operation_result_valid pk :
  operation_result pk ->
  valid_point pk /\ PublicKey_.is_valid pk = true /\ is_compressed_ pk = true /\
  List.length (point_data_ pk) = 33%nat.
Proof.
  intros [P H]. apply of_bytes_Ok in H as (Hv & Hdata & Hc).
  rewrite serialize_compressed_length in Hc. rewrite Hdata, serialize_compressed_length.
  repeat split; [exact Hv | apply is_valid_spec, Hv | exact Hc].
Qed.

(** X7 (every key the class hands out is a curve point).  When a
    constructor or an operation returns a key, that key parses as a
    point and [is_valid] holds; the keys computed by the operations are
    in compressed form. *)
Theorem PublicKey_results_valid (pk : PublicKey) :
  ((exists data raw, PublicKey_.of_bytes data raw = Ok pk) \/
   (exists hex_string, PublicKey_.of_hex hex_string = Ok pk) ->
   valid_point pk /\ PublicKey_.is_valid pk = true) /\
  ((exists a b, PublicKey_.add a b = Ok pk) \/
   (exists a, PublicKey_.neg a = Ok pk) \/
   (exists a b, PublicKey_.sub a b = Ok pk) \/
   (exists a scalar, PublicKey_.tweak_mul a scalar = Ok pk) \/
   (exists a k, PublicKey_.mult a k = Ok pk) \/
   (exists a scalar, PublicKey_.tweak_add a scalar = Ok pk) \/
   (exists pubkeys, PublicKey_.combine pubkeys = Ok pk) \/
   (exists k, PublicKey_.pubkey k = Ok pk) ->
   valid_point pk /\ PublicKey_.is_valid pk = true /\ is_compressed_ pk = true /\
   List.length (point_data_ pk) = 33%nat).
Proof.
  assert (Hctor : forall data raw, PublicKey_.of_bytes data raw = Ok pk ->
                    valid_point pk /\ PublicKey_.is_valid pk = true).
  { intros data raw H. apply of_bytes_Ok in H as (Hv & _).
    split; [exact Hv | apply is_valid_spec, Hv]. }
  split.
  - intros [(data & raw & H) | (hex_string & H)]; [exact (Hctor _ _ H)|].
    exact (Hctor (hex_to_bytes hex_string) false H).
  - intros H. apply operation_result_valid.
    destruct H as [(a & b & H) | [(a & H) | [(a & b & H) | [(a & scalar & H) |
           [(a & k & H) | [(a & scalar & H) | [(pubkeys & H) | (k & H)]]]]]]].
    + exact (add_Ok _ _ _ H).
    + exact (neg_Ok _ _ H).
    + unfold PublicKey_.sub in H. apply result_bind_Ok in H as (negated & _ & H).
      exact (add_Ok _ _ _ H).
    + exact (tweak_mul_Ok _ _ _ H).
    + exact (tweak_mul_Ok _ _ _ H).
    + exact (tweak_add_Ok _ _ _ H).
    + exact (combine_Ok _ _ H).
    + exact (pubkey_Ok _ _ H).
Qed.

(** *** Addition, negation, subtraction *)

Lemma add_Ok_points a b pk :
  PublicKey_.add a b = Ok pk ->
  exists P Q, point_of a = Some P /\ point_of b = Some Q /\
              padd P Q <> infinity /\ pk = compressed_key (padd P Q).
Proof.
  intros H. destruct (point_of a) as [P|] eqn:Ha, (point_of b) as [Q|] eqn:Hb.
  - rewrite (PublicKey_add_spec _ _ _ _ Ha Hb) in H.
    destruct (decide (padd P Q = infinity)) as [|Hne]; [discriminate|].
    injection H as <-. exists P, Q. repeat split; [exact Hne].
  - unfold PublicKey_.add in H. unfold point_of in Ha, Hb. rewrite Ha, Hb in H. discriminate.
  - unfold PublicKey_.add in H. unfold point_of in Ha. rewrite Ha in H. discriminate.
  - unfold PublicKey_.add in H. unfold point_of in Ha. rewrite Ha in H. discriminate.
Qed.

(** X8 (addition of keys is commutative and associative).  [a + b] and
    [b + a] have the same outcome for all keys, errors included; and
    when [a + b] and [b + c] exist, [(a + b) + c] and [a + (b + c)] have
    the same outcome. *)
Theorem PublicKey_add_comm_assoc (a b c : PublicKey) :
  PublicKey_.add a b = PublicKey_.add b a /\
  (forall ab bc, PublicKey_.add a b = Ok ab -> PublicKey_.add b c = Ok bc ->
                 PublicKey_.add ab c = PublicKey_.add a bc).
Proof.
  split.
  - unfold PublicKey_.add.
    destruct (secp256k1_ec_pubkey_parse (point_data_ a)) as [P|],
             (secp256k1_ec_pubkey_parse (point_data_ b)) as [Q|]; try reflexivity.
    unfold secp256k1_ec_pubkey_combine. cbn [fold_left].
    rewrite !padd_infinity_l, (padd_comm Q P). reflexivity.
  - intros ab bc Hab Hbc.
    apply add_Ok_points in Hab as (P & Q & HP & HQ & HPQ & ->).
    apply add_Ok_points in Hbc as (Q' & R & HQ' & HR & HQR & ->).
    rewrite HQ in HQ'. injection HQ' as <-.
    rewrite (PublicKey_add_spec _ _ _ _ (point_of_compressed_key _ HPQ) HR).
    rewrite (PublicKey_add_spec _ _ _ _ HP (point_of_compressed_key _ HQR)).
    rewrite <- (padd_assoc P Q R). reflexivity.
Qed.

(** X9 (negation and subtraction).  For a key [a] that holds a point:
    [-a] exists and [-(-a)] compares equal to [a]; [a + (-a)] and [a - a]
    raise ["Failed to combine public keys"]; and whenever [a + b] exists,
    [(a + b) - b] exists and compares equal to [a]. *)
Theorem PublicKey_neg_sub (a : PublicKey) :
  valid_point a ->
  (exists n a', PublicKey_.neg a = Ok n /\ PublicKey_.neg n = Ok a' /\
                PublicKey_.eqb a' a = Ok true /\
                PublicKey_.add a n = Throw (runtime_error "Failed to combine public keys")) /\
  PublicKey_.sub a a = Throw (runtime_error "Failed to combine public keys") /\
  (forall b ab, PublicKey_.add a b = Ok ab ->
     exists a', PublicKey_.sub ab b = Ok a' /\ PublicKey_.eqb a' a = Ok true).
Proof.
  intros [P HP]. pose proof (point_of_finite _ _ HP) as HPfin.
  pose proof (pneg_finite _ HPfin) as HNfin.
  pose proof (point_of_compressed_key _ HNfin) as HN.
  split; [|split].
  - exists (compressed_key (pneg P)), (compressed_key (pneg (pneg P))).
    split; [apply PublicKey_neg_spec, HP|].
    split; [apply PublicKey_neg_spec, HN|].
    split.
    + rewrite pneg_involutive.
      rewrite (PublicKey_eqb_spec _ _ _ _ (point_of_compressed_key _ HPfin) HP).
      rewrite bool_decide_eq_true_2 by reflexivity. reflexivity.
    + rewrite (PublicKey_add_spec _ _ _ _ HP HN).
      rewrite decide_True by apply padd_pneg_r. reflexivity.
  - rewrite (PublicKey_sub_spec _ _ _ _ HP HP).
    rewrite decide_True by reflexivity. reflexivity.
  - intros b ab Hab. apply add_Ok_points in Hab as (P' & Q & HP' & HQ & HPQ & ->).
    rewrite HP in HP'. injection HP' as <-.
    exists (compressed_key (padd (padd P Q) (pneg Q))).
    rewrite (PublicKey_sub_spec _ _ _ _ (point_of_compressed_key _ HPQ) HQ).
    assert (Hne : padd P Q <> Q).
    { intros Heq. apply HPfin. apply (padd_cancel_r _ _ Q).
      rewrite Heq, padd_infinity_l. reflexivity. }
    rewrite decide_False by exact Hne. split; [reflexivity|].
    rewrite padd_sub_cancel.
    rewrite (PublicKey_eqb_spec _ _ _ _ (point_of_compressed_key _ HPfin) HP).
    rewrite bool_decide_eq_true_2 by reflexivity. reflexivity.
Qed.

(** *** Scalar multiplication *)

(** X10 (Diffie-Hellman).  For valid scalars [a] and [b], multiplying
    the public key of one by the other never raises and gives the same
    key in either order, the public key of the scalar [a * b mod n]. *)
Theorem PublicKey_mult_shared_secret (a b : PrivateKey) :
  valid_scalar a -> valid_scalar b ->
  exists (A B K : PublicKey) (ab : PrivateKey),
    PublicKey_.pubkey a = Ok A /\ PublicKey_.pubkey b = Ok B /\
    PublicKey_.mult A b = Ok K /\ PublicKey_.mult B a = Ok K /\
    PrivateKey_.tweak_mul a (PrivateKey_.raw_value b) = Ok ab /\
    PublicKey_.pubkey ab = Ok K.
Proof.
  intros Ha Hb.
  destruct (scalar_tweak_mul a b Ha Hb) as [Hab Hvalid].
  set (ab := mkPrivateKey ((private_key_ a * private_key_ b) mod CURVE_ORDER)) in *.
  assert (Hvalue : private_key_ ab = (private_key_ a * private_key_ b) mod CURVE_ORDER)
    by reflexivity.
  assert (HA : pmul (private_key_ a) generator <> infinity)
    by (apply pmul_finite; [exact Ha | apply generator_finite]).
  assert (HB : pmul (private_key_ b) generator <> infinity)
    by (apply pmul_finite; [exact Hb | apply generator_finite]).
  unfold valid_scalar in Ha, Hb.
  exists (compressed_key (pmul (private_key_ a) generator)),
         (compressed_key (pmul (private_key_ b) generator)),
         (compressed_key (pmul (private_key_ a * private_key_ b) generator)), ab.
  split; [apply PublicKey_pubkey_spec; exact Ha|].
  split; [apply PublicKey_pubkey_spec; exact Hb|].
  split.
  { rewrite (PublicKey_mult_spec _ _ _ (point_of_compressed_key _ HA) Hb).
    rewrite <- pmul_mul, (Z.mul_comm (private_key_ b)) by lia. reflexivity. }
  split.
  { rewrite (PublicKey_mult_spec _ _ _ (point_of_compressed_key _ HB) Ha).
    rewrite <- pmul_mul by lia. reflexivity. }
  split; [exact Hab|].
  rewrite (PublicKey_pubkey_spec _ Hvalid), Hvalue, pmul_mod by nia. reflexivity.
Qed.

(** X11 (multiplication distributes over addition).  When [a + b]
    exists and [k] is a valid scalar, [k * a], [k * b] and [k * (a + b)]
    exist and [k * a + k * b] is the key [k * (a + b)]. *)
Theorem PublicKey_mult_add (a b ab : PublicKey) (k : PrivateKey) :
  PublicKey_.add a b = Ok ab -> valid_scalar k ->
  exists ka kb kab,
    PublicKey_.mult a k = Ok ka /\ PublicKey_.mult b k = Ok kb /\
    PublicKey_.mult ab k = Ok kab /\ PublicKey_.add ka kb = Ok kab.
Proof.
  intros Hab Hk. apply add_Ok_points in Hab as (P & Q & HP & HQ & HPQ & ->).
  pose proof (point_of_finite _ _ HP) as HPfin.
  pose proof (point_of_finite _ _ HQ) as HQfin.
  assert (Hk' := Hk). unfold valid_scalar in Hk'.
  exists (compressed_key (pmul (private_key_ k) P)),
         (compressed_key (pmul (private_key_ k) Q)),
         (compressed_key (pmul (private_key_ k) (padd P Q))).
  split; [apply PublicKey_mult_spec; assumption|].
  split; [apply PublicKey_mult_spec; assumption|].
  split; [apply PublicKey_mult_spec; [apply point_of_compressed_key, HPQ | exact Hk]|].
  rewrite (PublicKey_add_spec _ _ (pmul (private_key_ k) P) (pmul (private_key_ k) Q)).
  - rewrite <- pmul_padd by lia.
    rewrite decide_False by (apply pmul_finite; assumption). reflexivity.
  - apply point_of_compressed_key, pmul_finite; assumption.
  - apply point_of_compressed_key, pmul_finite; assumption.
Qed.

Lemma reduced_scalar_bytes scalar :
  0 <= scalar ->
  be_int (be_bytes 32 (Z.rem scalar CURVE_ORDER)) = scalar mod CURVE_ORDER.
Proof.
  intros Hs. rewrite Z.rem_mod_nonneg by (unfold CURVE_ORDER; lia).
  apply be_int_be_bytes_scalar, Z.mod_pos_bound. reflexivity.
Qed.

(** X12 (multiplying a key by an arbitrary scalar).  For a key that
    holds a point and a scalar [s >= 0]: when [s] is a multiple of the
    group order (zero included) [tweak_mul] raises
    ["Failed to multiply public key by scalar"]; otherwise it returns a
    key, the one it returns for [s mod n]. *)
Theorem PublicKey_tweak_mul_scalar (pk : PublicKey) (scalar : Z) :
  valid_point pk -> 0 <= scalar ->
  (scalar mod CURVE_ORDER = 0 ->
   PublicKey_.tweak_mul pk scalar =
     Throw (runtime_error "Failed to multiply public key by scalar")) /\
  (scalar mod CURVE_ORDER <> 0 ->
   exists pk', PublicKey_.tweak_mul pk scalar = Ok pk' /\
               PublicKey_.tweak_mul pk (scalar mod CURVE_ORDER) = Ok pk').
Proof.
  intros [P HP] Hs. assert (Hn : 0 < CURVE_ORDER) by reflexivity.
  pose proof (Z.mod_pos_bound scalar CURVE_ORDER Hn) as Hr.
  split; intros Hz.
  - unfold PublicKey_.tweak_mul. cbv zeta. unfold point_of in HP. rewrite HP.
    unfold secp256k1_ec_pubkey_tweak_mul. rewrite reduced_scalar_bytes, Hz by exact Hs.
    reflexivity.
  - exists (compressed_key (pmul (scalar mod CURVE_ORDER) P)).
    split; [|apply PublicKey_tweak_mul_spec; [exact HP | lia]].
    unfold PublicKey_.tweak_mul. cbv zeta. unfold point_of in HP. rewrite HP.
    unfold secp256k1_ec_pubkey_tweak_mul. rewrite reduced_scalar_bytes by exact Hs.
    replace (0 <? scalar mod CURVE_ORDER) with true by lia.
    replace (scalar mod CURVE_ORDER <? CURVE_ORDER) with true by lia.
    cbn [andb]. apply of_bytes_compressed, pmul_finite; [lia|].
    apply (pubkey_parse_finite _ _ HP).
Qed.

Lemma PublicKey_tweak_add_spec pk P scalar :
  point_of pk = Some P -> 0 <= scalar ->
  PublicKey_.tweak_add pk scalar =
    let Q := padd P (pmul (scalar mod CURVE_ORDER) generator) in
    if decide (Q = infinity)
    then Throw (runtime_error "Failed to add scalar to public key")
    else Ok (compressed_key Q).
Proof.
  intros HP Hs. assert (Hn : 0 < CURVE_ORDER) by reflexivity.
  pose proof (Z.mod_pos_bound scalar CURVE_ORDER Hn) as Hr.
  unfold PublicKey_.tweak_add. cbv zeta. unfold point_of in HP. rewrite HP.
  unfold secp256k1_ec_pubkey_tweak_add. rewrite reduced_scalar_bytes by exact Hs.
  replace (scalar mod CURVE_ORDER <? CURVE_ORDER) with true by lia.
  destruct (decide _) as [|Hne]; [reflexivity|]. apply of_bytes_compressed, Hne.
Qed.

(** X13 (additive tweak of a public key).  For a valid scalar [a] with
    public key [A] and a tweak [s >= 0]: when the scalar tweak
    [a.tweak_add(s)] returns [c], the point tweak [A.tweak_add(s)] is the
    public key of [c]; when [(a + s) mod n = 0] the point tweak raises
    ["Failed to add scalar to public key"]; and a tweak that is a
    multiple of the group order, zero included, is accepted and returns
    a key equal to [A]. *)
Theorem PublicKey_tweak_add_scalar (a : PrivateKey) (scalar : Z) :
  valid_scalar a -> 0 <= scalar ->
  exists A,
    PublicKey_.pubkey a = Ok A /\
    (forall c, PrivateKey_.tweak_add a scalar = Ok c ->
               PublicKey_.tweak_add A scalar = PublicKey_.pubkey c) /\
    ((private_key_ a + scalar) mod CURVE_ORDER = 0 ->
     PublicKey_.tweak_add A scalar =
       Throw (runtime_error "Failed to add scalar to public key")) /\
    (scalar mod CURVE_ORDER = 0 ->
     exists A', PublicKey_.tweak_add A scalar = Ok A' /\ PublicKey_.eqb A' A = Ok true).
Proof.
  intros Ha Hs. assert (Hn : 0 < CURVE_ORDER) by reflexivity.
  pose proof (Z.mod_pos_bound scalar CURVE_ORDER Hn) as Hr.
  assert (HA : pmul (private_key_ a) generator <> infinity)
    by (apply pmul_finite; [exact Ha | apply generator_finite]).
  pose proof (point_of_compressed_key _ HA) as HpA.
  assert (Ha' := Ha). unfold valid_scalar in Ha'.
  assert (Hsum : padd (pmul (private_key_ a) generator)
                      (pmul (scalar mod CURVE_ORDER) generator)
                 = pmul ((private_key_ a + scalar) mod CURVE_ORDER) generator).
  { rewrite <- pmul_add by lia. rewrite <- (pmul_mod (_ + _)) by lia.
    rewrite Z.add_mod_idemp_r by lia. reflexivity. }
  exists (compressed_key (pmul (private_key_ a) generator)).
  split; [apply PublicKey_pubkey_spec, Ha|].
  rewrite (PublicKey_tweak_add_spec _ _ _ HpA Hs). cbv zeta. rewrite Hsum.
  split; [|split].
  - intros c Hc.
    rewrite (scalar_tweak_add a scalar Ha) in Hc by lia.
    destruct (decide ((private_key_ a + scalar) mod CURVE_ORDER = 0)) as [|Hnz];
      [discriminate|]. injection Hc as <-.
    pose proof (Z.mod_pos_bound (private_key_ a + scalar) CURVE_ORDER Hn) as Hc.
    assert (Hvalid : valid_scalar (mkPrivateKey ((private_key_ a + scalar) mod CURVE_ORDER)))
      by (unfold valid_scalar; cbn [private_key_]; lia).
    rewrite (PublicKey_pubkey_spec _ Hvalid). cbn [private_key_].
    rewrite decide_False; [reflexivity|].
    apply pmul_finite; [exact Hvalid | apply generator_finite].
  - intros Hz. rewrite Hz, pmul_0. rewrite decide_True by reflexivity. reflexivity.
  - intros Hz. exists (compressed_key (pmul (private_key_ a) generator)).
    assert (Hsame : (private_key_ a + scalar) mod CURVE_ORDER = private_key_ a).
    { rewrite <- Z.add_mod_idemp_r, Hz, Z.add_0_r by lia. apply Z.mod_small. lia. }
    rewrite Hsame. rewrite decide_False by exact HA. split; [reflexivity|].
    rewrite (PublicKey_eqb_spec _ _ _ _ HpA HpA).
    rewrite bool_decide_eq_true_2 by reflexivity. reflexivity.
Qed.

(** *** Combination of a list of keys *)

(** The sum of the points of a list of keys, when all of them parse. *)
Fixpoint total_of (pubkeys : list PublicKey) : option point :=
  match pubkeys with
  | [] => Some infinity
  | pk :: rest =>
      match point_of pk, total_of rest with
      | Some P, Some total => Some (padd P total)
      | _, _ => None
      end
  end.

Lemma total_of_perm l l' : l ≡ₚ l' -> total_of l = total_of l'.
Proof.
  induction 1 as [|x l l' _ IH|x y l|l l' l'' _ IH1 _ IH2].
  - reflexivity.
  - cbn [total_of]. rewrite IH. reflexivity.
  - cbn [total_of].
    destruct (point_of x) as [P|], (point_of y) as [Q|], (total_of l) as [total|];
      try reflexivity.
    rewrite !padd_assoc, (padd_comm Q P). reflexivity.
  - rewrite IH1. exact IH2.
Qed.

Definition parse_for_combination (pk : PublicKey) : result point :=
  match secp256k1_ec_pubkey_parse (point_data_ pk) with
  | None => Throw (runtime_error "Failed to parse public key for combination")
  | Some pubkey => Ok pubkey
  end.

Lemma combined_points (finish : point -> result PublicKey) l : forall acc,
  (parsed_keys ← mapM (M := result) parse_for_combination l;
   finish (fold_left padd parsed_keys acc)) =
  match total_of l with
  | Some total => finish (padd acc total)
  | None => Throw (runtime_error "Failed to parse public key for combination")
  end.
Proof.
  induction l as [|pk l IH]; intros acc.
  - cbn. rewrite padd_infinity_r. reflexivity.
  - change (mapM parse_for_combination (pk :: l))
      with (y ← parse_for_combination pk; k ← mapM parse_for_combination l; mret (y :: k)).
    cbn [total_of].
    assert (Hhead : parse_for_combination pk =
              match point_of pk with
              | Some P => Ok P
              | None => Throw (runtime_error "Failed to parse public key for combination")
              end) by reflexivity.
    rewrite Hhead. clear Hhead.
    destruct (point_of pk) as [P|]; [|reflexivity].
    cbn [mbind result_bind]. specialize (IH (padd acc P)).
    destruct (mapM parse_for_combination l) as [ps|e]; cbn [mbind result_bind] in *.
    + change (finish (fold_left padd ps (padd acc P)) =
              match match total_of l with
                    | Some total => Some (padd P total)
                    | None => None
                    end with
              | Some total => finish (padd acc total)
              | None => Throw (runtime_error "Failed to parse public key for combination")
              end).
      rewrite IH.
      destruct (total_of l) as [total|]; [|reflexivity]. rewrite padd_assoc. reflexivity.
    + destruct (total_of l) as [total|]; [rewrite padd_assoc|]; exact IH.
Qed.

Lemma PublicKey_combine_spec pubkeys :
  pubkeys <> [] ->
  PublicKey_.combine pubkeys =
    match total_of pubkeys with
    | Some total =>
        if decide (total = infinity)
        then Throw (runtime_error "Failed to combine public keys")
        else PublicKey_.of_bytes (secp256k1_ec_pubkey_serialize total true) false
    | None => Throw (runtime_error "Failed to parse public key for combination")
    end.
Proof.
  intros Hne.
  pose proof (combined_points (fun total =>
      if decide (total = infinity)
      then Throw (runtime_error "Failed to combine public keys")
      else PublicKey_.of_bytes (secp256k1_ec_pubkey_serialize total true) false)
    pubkeys infinity) as H.
  cbv beta in H.
  assert (Hsame : forall total, padd infinity total = total) by apply padd_infinity_l.
  destruct (total_of pubkeys) as [total|].
  - rewrite Hsame in H. rewrite <- H. clear H Hsame.
    destruct pubkeys as [|pk rest]; [contradiction|].
    unfold PublicKey_.combine. fold parse_for_combination.
    destruct (mapM parse_for_combination (pk :: rest)) as [ps|e]; [|reflexivity].
    cbn [mbind result_bind]. unfold secp256k1_ec_pubkey_combine. cbv zeta.
    destruct (decide _); reflexivity.
  - rewrite <- H. clear H Hsame.
    destruct pubkeys as [|pk rest]; [contradiction|].
    unfold PublicKey_.combine. fold parse_for_combination.
    destruct (mapM parse_for_combination (pk :: rest)) as [ps|e]; [|reflexivity].
    cbn [mbind result_bind]. unfold secp256k1_ec_pubkey_combine. cbv zeta.
    destruct (decide _); reflexivity.
Qed.

(** X14 (combining a list of keys).  [combine] refuses the empty list;
    its outcome, errors included, does not depend on the order of the
    list; on one valid key it returns a key equal to it; on two valid
    keys it is [operator+]. *)
Theorem PublicKey_combine_properties :
  PublicKey_.combine [] =
    Throw (invalid_argument "Cannot combine empty list of public keys") /\
  (forall l l', l ≡ₚ l' -> PublicKey_.combine l = PublicKey_.combine l') /\
  (forall a, valid_point a ->
     exists a', PublicKey_.combine [a] = Ok a' /\ PublicKey_.eqb a' a = Ok true) /\
  (forall a b, valid_point a -> valid_point b ->
     PublicKey_.combine [a; b] = PublicKey_.add a b).
Proof.
  split; [reflexivity|]. split; [|split].
  - intros l l' Hperm. destruct l as [|x l].
    + apply Permutation_nil in Hperm. subst l'. reflexivity.
    + assert (Hne' : l' <> []).
      { intros ->. symmetry in Hperm. apply Permutation_nil in Hperm. discriminate. }
      rewrite !PublicKey_combine_spec by (exact Hne' || discriminate).
      rewrite (total_of_perm _ _ Hperm). reflexivity.
  - intros a [P HP]. pose proof (point_of_finite _ _ HP) as Hfin.
    exists (compressed_key P). rewrite PublicKey_combine_spec by discriminate.
    cbn [total_of]. rewrite HP, padd_infinity_r. rewrite decide_False by exact Hfin.
    split; [apply of_bytes_compressed, Hfin|].
    rewrite (PublicKey_eqb_spec _ _ _ _ (point_of_compressed_key _ Hfin) HP).
    rewrite bool_decide_eq_true_2 by reflexivity. reflexivity.
  - intros a b [P HP] [Q HQ]. rewrite PublicKey_combine_spec by discriminate.
    cbn [total_of]. rewrite HP, HQ, padd_infinity_r.
    rewrite (PublicKey_add_spec _ _ _ _ HP HQ).
    destruct (decide _) as [|Hne]; [reflexivity|]. apply of_bytes_compressed, Hne.
Qed.

(** *** Ordering *)

Lemma Z_of_byte_inj x y : Z_of_byte x = Z_of_byte y -> x = y.
Proof. intros H. rewrite <- (byte_of_Z_of_byte x), <- (byte_of_Z_of_byte y), H. reflexivity. Qed.

Lemma bytes_ltb_irrefl a : bytes_ltb a a = false.
Proof.
  induction a as [|x a IH]; [reflexivity|]. cbn [bytes_ltb].
  rewrite Z.ltb_irrefl. exact IH.
Qed.

Lemma bytes_ltb_trans a : forall b c,
  bytes_ltb a b = true -> bytes_ltb b c = true -> bytes_ltb a c = true.
Proof.
  induction a as [|x a IH]; intros [|y b] [|z c]; cbn [bytes_ltb];
    try (intros; reflexivity || discriminate).
  destruct (Z.ltb_spec (Z_of_byte x) (Z_of_byte y)), (Z.ltb_spec (Z_of_byte y) (Z_of_byte x)),
           (Z.ltb_spec (Z_of_byte y) (Z_of_byte z)), (Z.ltb_spec (Z_of_byte z) (Z_of_byte y)),
           (Z.ltb_spec (Z_of_byte x) (Z_of_byte z)), (Z.ltb_spec (Z_of_byte z) (Z_of_byte x));
    try lia; try (intros; reflexivity || discriminate).
  apply IH.
Qed.

Lemma bytes_ltb_total a : forall b,
  bytes_ltb a b = false -> bytes_ltb b a = false -> a = b.
Proof.
  induction a as [|x a IH]; intros [|y b]; cbn [bytes_ltb];
    try (intros; reflexivity || discriminate).
  destruct (Z.ltb_spec (Z_of_byte x) (Z_of_byte y)), (Z.ltb_spec (Z_of_byte y) (Z_of_byte x));
    try lia; try (intros; reflexivity || discriminate).
  intros H1 H2. f_equal; [apply Z_of_byte_inj; lia | apply IH; assumption].
Qed.

Lemma PublicKey_ltb_spec pk1 pk2 P1 P2 :
  point_of pk1 = Some P1 -> point_of pk2 = Some P2 ->
  PublicKey_.ltb pk1 pk2 = Ok (bytes_ltb (pubkey_data P1) (pubkey_data P2)).
Proof.
  unfold point_of, PublicKey_.ltb, PublicKey_.to_data. intros -> ->. reflexivity.
Qed.

(** X15 ([operator<] is a strict total order).  [operator<] compares
    the results of [to_data()], the internal representation of the
    point, lexicographically, so it does not depend on the format a key
    is stored in.  On keys that hold points it never raises, is
    irreflexive, asymmetric and transitive, and two keys neither of
    which is less than the other compare equal with [operator==]. *)
Theorem PublicKey_ltb_strict_order (a b c : PublicKey) :
  valid_point a -> valid_point b -> valid_point c ->
  (exists data1 data2,
     PublicKey_.to_data a = Ok data1 /\ PublicKey_.to_data b = Ok data2 /\
     PublicKey_.ltb a b = Ok (bytes_ltb data1 data2)) /\
  (point_of a = point_of b -> PublicKey_.ltb a b = Ok false) /\
  PublicKey_.ltb a a = Ok false /\
  (PublicKey_.ltb a b = Ok true -> PublicKey_.ltb b a = Ok false) /\
  (PublicKey_.ltb a b = Ok true -> PublicKey_.ltb b c = Ok true ->
   PublicKey_.ltb a c = Ok true) /\
  (PublicKey_.ltb a b = Ok false -> PublicKey_.ltb b a = Ok false ->
   PublicKey_.eqb a b = Ok true).
Proof.
  intros [P HP] [Q HQ] [R HR].
  assert (Hdata : forall pk T, point_of pk = Some T -> PublicKey_.to_data pk = Ok (pubkey_data T)).
  { intros pk T H. unfold point_of in H. unfold PublicKey_.to_data. rewrite H. reflexivity. }
  rewrite (PublicKey_ltb_spec _ _ _ _ HP HP), (PublicKey_ltb_spec _ _ _ _ HP HQ),
    (PublicKey_ltb_spec _ _ _ _ HQ HP), (PublicKey_ltb_spec _ _ _ _ HQ HR),
    (PublicKey_ltb_spec _ _ _ _ HP HR), (PublicKey_eqb_spec _ _ _ _ HP HQ).
  split.
  { exists (pubkey_data P), (pubkey_data Q).
    split; [apply Hdata, HP|]. split; [apply Hdata, HQ | reflexivity]. }
  split.
  { rewrite HP, HQ. intros [= ->]. rewrite bytes_ltb_irrefl. reflexivity. }
  split; [rewrite bytes_ltb_irrefl; reflexivity|].
  split; [intros [= H]; rewrite (bytes_ltb_asym _ _ H); reflexivity|].
  split; [intros [= H1] [= H2]; rewrite (bytes_ltb_trans _ _ _ H1 H2); reflexivity|].
  intros [= H1] [= H2]. f_equal. apply bool_decide_eq_true_2.
  apply pubkey_data_inj, bytes_ltb_total; assumption.
Qed.

End PublicKeyAlgebra.

Import secp256k1_const secp_utils.

(** * Further properties of b_dhke.cpp *)

(** ** base.cpp: the caller of [hash_to_curve] *)

(** [Proof::compute_Y], as a function of the fields [secret] and [Y] of
    the proof to the new content of [Y]. *)
Definition compute_Y `{OpenSSL} `{Secp256k1} (secret Y : string) : result string :=
  if negb (String.eqb secret "") then
    point ← b_dhke.hash_to_curve secret;
    PublicKey_.to_hex point true
  else Ok Y.

Section HashToCurveOutput.
Context {ssl : OpenSSL} {curve : Secp256k1}.
Import b_dhke.

Lemma try_point_shape hash_output Y :
  List.length hash_output = 32%nat -> try_point hash_output = Ok Y ->
  exists P, point_of Y = Some P /\ Y = compressed_key P /\ y_is_odd P = false /\
            point_data_ Y = x02 :: hash_output.
Proof.
  intros Hlen H. rewrite (try_point_spec _ Hlen) in H.
  destruct (pubkey_parse (x02 :: hash_output)) as [P|] eqn:HP; [|discriminate].
  injection H as <-. exists P.
  destruct (pubkey_parse_canonical _ _ _ HP Hlen (or_introl eq_refl)) as [Hprefix Hx].
  assert (Heven : y_is_odd P = false) by (destruct (y_is_odd P); [discriminate | reflexivity]).
  split; [exact HP|]. split; [|split; [exact Heven | reflexivity]].
  unfold compressed_key. cbn [secp256k1_ec_pubkey_serialize]. rewrite Heven, <- Hx. reflexivity.
Qed.

Lemma hash_to_curve_shape message Y :
  hash_to_curve message = Ok Y ->
  exists P, point_of Y = Some P /\ Y = compressed_key P /\ y_is_odd P = false.
Proof.
  unfold hash_to_curve, hash_to_curve_bytes.
  generalize (sha256 (concat_vectors DOMAIN_SEPARATOR (list_byte_of_string message))).
  generalize 0. generalize (Z.to_nat (Z.shiftl 1 16)).
  intros remaining. induction remaining as [|remaining IH]; intros counter msg; [discriminate|].
  cbn [hash_to_curve_loop].
  destruct (try_point _) as [P|e] eqn:Htry.
  - intros [= <-]. apply try_point_shape in Htry as (Q & H1 & H2 & H3 & _);
      [|apply SHA256_length]. exists Q. auto.
  - apply IH.
Qed.

Lemma compressed_hex_shape P :
  y_is_odd P = false ->
  String.length (bytes_to_hex (secp256k1_ec_pubkey_serialize P true)) = 66%nat /\
  substring 0 2 (bytes_to_hex (secp256k1_ec_pubkey_serialize P true)) = "02".
Proof.
  intros Heven. split.
  - rewrite bytes_to_hex_length, serialize_compressed_length. reflexivity.
  - cbn [secp256k1_ec_pubkey_serialize]. rewrite Heven, bytes_to_hex_cons.
    cbn [substring]. rewrite substring_0_0. reflexivity.
Qed.

(** X16 (what [hash_to_curve] returns).  A key returned by
    [hash_to_curve] is a curve point in compressed form with an even
    y-coordinate (prefix [0x02]); its compressed serialisation is the
    33 bytes it holds, and its hex form has 66 characters from which the
    hex constructor rebuilds the same key. *)
Theorem hash_to_curve_output (message : string) (Y : PublicKey) :
  hash_to_curve message = Ok Y ->
  valid_point Y /\ is_compressed_ Y = true /\
  head (point_data_ Y) = Some x02 /\
  PublicKey_.serialize Y true = Ok (point_data_ Y) /\
  exists hex, PublicKey_.to_hex Y true = Ok hex /\ String.length hex = 66%nat /\
              PublicKey_.of_hex hex = Ok Y.
Proof.
  intros H. apply hash_to_curve_shape in H as (P & HP & -> & Heven).
  pose proof (point_of_finite _ _ HP) as Hfin.
  split; [exists P; exact HP|]. split; [reflexivity|].
  split; [cbn; rewrite Heven; reflexivity|].
  split; [apply PublicKey_serialize_spec, HP|].
  exists (bytes_to_hex (secp256k1_ec_pubkey_serialize P true)).
  split; [unfold PublicKey_.to_hex; rewrite (PublicKey_serialize_spec _ _ _ HP); reflexivity|].
  split; [apply compressed_hex_shape, Heven|].
  unfold PublicKey_.of_hex. rewrite hex_to_bytes_to_hex. apply of_bytes_compressed, Hfin.
Qed.

(** X17 ([Proof::compute_Y]).  An empty secret leaves [Y] as it is.  For
    a non-empty secret [compute_Y] raises only when [hash_to_curve]
    does, and otherwise stores 66 hex characters that begin with ["02"]
    and from which the hex constructor rebuilds the key of
    [hash_to_curve]. *)
Theorem compute_Y_outcome (secret Y : string) :
  (secret = "" -> compute_Y secret Y = Ok Y) /\
  (secret <> "" ->
   (forall e, hash_to_curve secret = Throw e -> compute_Y secret Y = Throw e) /\
   (forall point, hash_to_curve secret = Ok point ->
      exists Y', compute_Y secret Y = Ok Y' /\ String.length Y' = 66%nat /\
                 substring 0 2 Y' = "02" /\ PublicKey_.of_hex Y' = Ok point)).
Proof.
  unfold compute_Y. split.
  - intros ->. reflexivity.
  - intros Hne. apply String.eqb_neq in Hne. rewrite Hne. cbn [negb].
    split; [intros e ->; reflexivity|].
    intros point Hpoint. rewrite Hpoint. cbn [mbind result_bind].
    apply hash_to_curve_shape in Hpoint as (P & HP & -> & Heven).
    exists (bytes_to_hex (secp256k1_ec_pubkey_serialize P true)).
    destruct (compressed_hex_shape P Heven) as [Hlen Hprefix].
    split; [unfold PublicKey_.to_hex; rewrite (PublicKey_serialize_spec _ _ _ HP);
            reflexivity|].
    split; [exact Hlen|]. split; [exact Hprefix|].
    unfold PublicKey_.of_hex. rewrite hex_to_bytes_to_hex.
    apply of_bytes_compressed, (point_of_finite _ _ HP).
Qed.

End HashToCurveOutput.

(** ** The protocol, end to end *)

Section ProtocolRuns.
Context {ssl : OpenSSL} {curve : Secp256k1}.
Import b_dhke.

(** An honestly built proof is accepted, whatever keys stand for the
    points. *)
Lemma dleq_accepts B_ C_ A PB (a p e s : PrivateKey) :
  point_of B_ = Some PB ->
  point_of C_ = Some (pmul (private_key_ a) PB) ->
  point_of A = Some (pmul (private_key_ a) generator) ->
  valid_scalar a -> valid_scalar p -> valid_scalar e -> valid_scalar s ->
  PrivateKey_.serialize e =
    dleq_challenge (pmul (private_key_ p) generator) (pmul (private_key_ p) PB)
                   (pmul (private_key_ a) generator) (pmul (private_key_ a) PB) ->
  private_key_ s =
    (private_key_ p + (private_key_ a * private_key_ e) mod CURVE_ORDER) mod CURVE_ORDER ->
  alice_verify_dleq B_ C_ e s A = Ok true.
Proof.
  intros HB HC HA Ha Hp He Hs Hebytes Hsval.
  pose proof (point_of_finite _ _ HB) as HBfin.
  assert (HpG : pmul (private_key_ p) generator <> infinity)
    by (apply pmul_finite; auto using generator_finite).
  assert (HpB : pmul (private_key_ p) PB <> infinity) by (apply pmul_finite; auto).
  assert (Hnn : 0 <= private_key_ p /\ 0 <= private_key_ a /\ 0 <= private_key_ e)
    by (unfold valid_scalar in *; lia).
  destruct Hnn as (Hnp & Hna & Hne).
  assert (HR1 : padd (pmul (private_key_ s) generator)
                  (pneg (pmul (private_key_ e) (pmul (private_key_ a) generator)))
                = pmul (private_key_ p) generator).
  { rewrite Hsval. apply dleq_algebra; assumption. }
  assert (HR2 : padd (pmul (private_key_ s) PB)
                  (pneg (pmul (private_key_ e) (pmul (private_key_ a) PB)))
                = pmul (private_key_ p) PB).
  { rewrite Hsval. apply dleq_algebra; assumption. }
  rewrite (alice_verify_dleq_spec _ _ _ _ _ _ _ _ HB HC HA He Hs).
  rewrite decide_False
    by (intros Heq; apply padd_pneg_eq_infinity in Heq; rewrite HR1 in Heq; contradiction).
  rewrite decide_False
    by (intros Heq; apply padd_pneg_eq_infinity in Heq; rewrite HR2 in Heq; contradiction).
  rewrite HR1, HR2, Hebytes. unfold bytes_eqb.
  rewrite bool_decide_eq_true_2 by reflexivity. reflexivity.
Qed.

(** What [step2_bob] returns, in terms of points. *)
Lemma step2_bob_spec B_ a src C_ e s src' PB :
  point_of B_ = Some PB -> valid_scalar a ->
  step2_bob B_ a src = Ok ((C_, e, s), src') ->
  C_ = compressed_key (pmul (private_key_ a) PB) /\
  exists p,
    valid_scalar p /\ valid_scalar e /\ valid_scalar s /\
    PrivateKey_.serialize e =
      dleq_challenge (pmul (private_key_ p) generator) (pmul (private_key_ p) PB)
                     (pmul (private_key_ a) generator) (pmul (private_key_ a) PB) /\
    private_key_ s =
      (private_key_ p + (private_key_ a * private_key_ e) mod CURVE_ORDER) mod CURVE_ORDER.
Proof.
  intros HB Ha H. rewrite step2_bob_unfold in H.
  apply rand_bind_Ok in H as (C1 & src1 & HC & H). apply lift_Ok in HC as [HC ->].
  apply rand_bind_Ok in H as ([e1 s1] & src2 & Hdleq & H).
  apply rand_ret_Ok in H as [[= <- <- <-] ->].
  rewrite (PublicKey_mult_spec _ _ _ HB Ha) in HC. injection HC as <-.
  split; [reflexivity|].
  destruct (step2_bob_dleq_spec _ _ _ _ _ _ _ _ HB Ha Hdleq)
    as (p & Hp & _ & He & Hs & Hebytes & Hsval).
  exists p. auto.
Qed.

(** X18 (a promise carries a proof that verifies).  For a valid
    blinded message [B_] and a valid mint scalar [a], when [step2_bob]
    returns [(C_, e, s)], [C_] is [a * B_] and Alice's check of the
    proof [(e, s)] against the public key of [a] returns [true]. *)
Theorem step2_bob_proof_verifies (B_ : PublicKey) (a : PrivateKey) (src src' : random_source)
    (C_ : PublicKey) (e s : PrivateKey) :
  valid_point B_ -> valid_scalar a ->
  step2_bob B_ a src = Ok ((C_, e, s), src') ->
  PublicKey_.mult B_ a = Ok C_ /\
  exists A, PublicKey_.pubkey a = Ok A /\ alice_verify_dleq B_ C_ e s A = Ok true.
Proof.
  intros [PB HB] Ha H.
  destruct (step2_bob_spec _ _ _ _ _ _ _ _ HB Ha H)
    as (-> & p & Hp & He & Hs & Hebytes & Hsval).
  pose proof (point_of_finite _ _ HB) as HBfin.
  assert (HaG : pmul (private_key_ a) generator <> infinity)
    by (apply pmul_finite; auto using generator_finite).
  assert (HaB : pmul (private_key_ a) PB <> infinity) by (apply pmul_finite; auto).
  split; [apply PublicKey_mult_spec; assumption|].
  exists (compressed_key (pmul (private_key_ a) generator)).
  split; [apply PublicKey_pubkey_spec, Ha|].
  apply (dleq_accepts _ _ _ PB a p); auto using point_of_compressed_key.
Qed.

(** X19 (Carol accepts an honest mint).  After [step1_alice],
    [step2_bob] on the blinded message and [step3_alice] on the promise,
    [carol_verify_dleq], which rebuilds [B_] and [C_] from the secret,
    the blinding factor and the unblinded signature, returns [true]
    without consulting the legacy variant. *)
Theorem carol_accepts_honest_mint (secret_msg : string) (a : PrivateKey)
    (blinding_factor : option PrivateKey) (src src1 src2 : random_source)
    (B_ : PublicKey) (r : PrivateKey) (C_ : PublicKey) (e s : PrivateKey)
    (A C : PublicKey) :
  valid_scalar a ->
  (forall r0, blinding_factor = Some r0 -> valid_scalar r0) ->
  step1_alice secret_msg blinding_factor src = Ok ((B_, r), src1) ->
  step2_bob B_ a src1 = Ok ((C_, e, s), src2) ->
  PublicKey_.pubkey a = Ok A ->
  step3_alice C_ r A = Ok C ->
  forall fuel, carol_verify_dleq fuel secret_msg r C e s A = Some (Ok true).
Proof.
  intros Ha Hbf H1 H2 HA H3 fuel.
  destruct (step1_alice_spec _ _ _ _ _ _ Hbf H1) as (Y & PY & HY & HPY & Hr & HB & ->).
  set (PB := padd PY (pmul (private_key_ r) generator)) in *.
  pose proof (point_of_compressed_key _ HB) as HpB.
  destruct (step2_bob_spec _ _ _ _ _ _ _ _ HpB Ha H2)
    as (-> & p & Hp & He & Hs & Hebytes & Hsval).
  rewrite (PublicKey_pubkey_spec _ Ha) in HA. injection HA as <-.
  pose proof (point_of_finite _ _ HPY) as HPYfin.
  assert (HaY : pmul (private_key_ a) PY <> infinity) by (apply pmul_finite; assumption).
  assert (HaG : pmul (private_key_ a) generator <> infinity)
    by (apply pmul_finite; [assumption | apply generator_finite]).
  assert (HaB : pmul (private_key_ a) PB <> infinity) by (apply pmul_finite; assumption).
  assert (HrA : pmul (private_key_ r) (pmul (private_key_ a) generator) <> infinity)
    by (apply pmul_finite; assumption).
  assert (Hnn : 0 <= private_key_ a /\ 0 <= private_key_ r)
    by (unfold valid_scalar in *; lia).
  destruct Hnn as [Hna Hnr].
  assert (Halg : padd (pmul (private_key_ a) PB)
                   (pneg (pmul (private_key_ r) (pmul (private_key_ a) generator)))
                 = pmul (private_key_ a) PY) by (apply unblind_algebra; assumption).
  unfold step3_alice in H3.
  rewrite (PublicKey_mult_spec _ _ _ (point_of_compressed_key _ HaG) Hr) in H3.
  cbn [mbind result_bind] in H3.
  rewrite (PublicKey_sub_spec _ _ _ _ (point_of_compressed_key _ HaB)
             (point_of_compressed_key _ HrA)) in H3.
  rewrite decide_False in H3
    by (intros Heq; apply padd_pneg_eq_infinity in Heq; rewrite Halg in Heq; contradiction).
  rewrite Halg in H3. injection H3 as <-.
  assert (Hback : padd (pmul (private_key_ a) PY)
                    (pmul (private_key_ r) (pmul (private_key_ a) generator))
                  = pmul (private_key_ a) PB).
  { rewrite <- Halg, <- padd_assoc, padd_pneg_l, padd_infinity_r. reflexivity. }
  rewrite carol_verify_dleq_unfold, HY, result_bind_ok. cbv beta.
  rewrite (carol_reconstruction _ _ _ _ _ _ _ _ _ HPY (point_of_compressed_key _ HaY)
             (point_of_compressed_key _ HaG) Hr).
  rewrite Hback. fold PB.
  rewrite decide_False by exact HaB. rewrite decide_False by exact HB.
  rewrite (dleq_accepts _ _ _ PB a p e s HpB (point_of_compressed_key _ HaB)
             (point_of_compressed_key _ HaG) Ha Hp He Hs Hebytes Hsval).
  reflexivity.
Qed.

(** *** Tokens minted with the legacy hash-to-curve *)

Lemma step1_alice_deprecated_spec fuel secret_msg blinding_factor run src B_ r src' :
  (forall r0, blinding_factor = Some r0 -> valid_scalar r0) ->
  step1_alice_deprecated fuel secret_msg blinding_factor = Some run ->
  run src = Ok ((B_, r), src') ->
  exists Y PY,
    hash_to_curve_deprecated fuel (list_byte_of_string secret_msg) = Some Y /\
    point_of Y = Some PY /\ valid_scalar r /\
    padd PY (pmul (private_key_ r) generator) <> infinity /\
    B_ = compressed_key (padd PY (pmul (private_key_ r) generator)).
Proof.
  intros Hbf Hrun H. unfold step1_alice_deprecated in Hrun.
  destruct (hash_to_curve_deprecated fuel (list_byte_of_string secret_msg)) as [Y|] eqn:HY;
    [|discriminate].
  apply (inj Some) in Hrun. rewrite <- Hrun in H. clear Hrun.
  apply rand_bind_Ok in H as (r1 & src2 & Hr & H).
  apply rand_bind_Ok in H as (B1 & src3 & HB & H).
  apply rand_ret_Ok in H as [[= <- <-] ->]. apply lift_Ok in HB as [HB ->].
  assert (Hvalid : valid_scalar r).
  { destruct blinding_factor as [r0|].
    - apply rand_ret_Ok in Hr as [-> _]. apply Hbf. reflexivity.
    - eapply PrivateKey_default_valid, Hr. }
  destruct (hash_to_curve_deprecated_valid _ _ _ HY) as [PY HPY].
  exists Y, PY. split; [reflexivity|]. split; [exact HPY|]. split; [exact Hvalid|].
  rewrite (PublicKey_pubkey_spec _ Hvalid) in HB. cbn [mbind result_bind] in HB.
  rewrite (PublicKey_add_spec _ _ PY (pmul (private_key_ r) generator) HPY) in HB
    by (apply point_of_compressed_key, pmul_finite; [exact Hvalid | apply generator_finite]).
  destruct (decide _) as [|Hne]; [discriminate|]. injection HB as <-.
  split; [exact Hne | reflexivity].
Qed.

(** X20 (tokens of the legacy variant still verify).  When the secret
    was blinded with [step1_alice_deprecated], signed by [step2_bob] and
    unblinded by [step3_alice], and the current [hash_to_curve] returns
    on the secret, [verify] returns [true] with the fuel that
    [step1_alice_deprecated] needed: directly, or through its fallback to
    the legacy variant. *)
Theorem legacy_tokens_verify (fuel : nat) (secret_msg : string) (a : PrivateKey)
    (blinding_factor : option PrivateKey)
    (run : rand (PublicKey * PrivateKey)) (src src1 src2 : random_source)
    (B_ : PublicKey) (r : PrivateKey) (C_ : PublicKey) (e s : PrivateKey)
    (A C Y : PublicKey) :
  valid_scalar a ->
  (forall r0, blinding_factor = Some r0 -> valid_scalar r0) ->
  step1_alice_deprecated fuel secret_msg blinding_factor = Some run ->
  run src = Ok ((B_, r), src1) ->
  step2_bob B_ a src1 = Ok ((C_, e, s), src2) ->
  PublicKey_.pubkey a = Ok A ->
  step3_alice C_ r A = Ok C ->
  hash_to_curve secret_msg = Ok Y ->
  verify_deprecated fuel a C secret_msg = Some (Ok true) /\
  verify fuel a C secret_msg = Some (Ok true).
Proof.
  intros Ha Hbf Hrun H1 H2 HA H3 HY.
  destruct (step1_alice_deprecated_spec _ _ _ _ _ _ _ _ Hbf Hrun H1)
    as (Y' & PY & HY' & HPY & Hr & HB & ->).
  set (PB := padd PY (pmul (private_key_ r) generator)) in *.
  pose proof (point_of_compressed_key _ HB) as HpB.
  destruct (step2_bob_spec _ _ _ _ _ _ _ _ HpB Ha H2) as (-> & _).
  rewrite (PublicKey_pubkey_spec _ Ha) in HA. injection HA as <-.
  pose proof (point_of_finite _ _ HPY) as HPYfin.
  assert (HaY : pmul (private_key_ a) PY <> infinity) by (apply pmul_finite; assumption).
  assert (HaG : pmul (private_key_ a) generator <> infinity)
    by (apply pmul_finite; [assumption | apply generator_finite]).
  assert (HaB : pmul (private_key_ a) PB <> infinity) by (apply pmul_finite; assumption).
  assert (HrA : pmul (private_key_ r) (pmul (private_key_ a) generator) <> infinity)
    by (apply pmul_finite; assumption).
  assert (Hnn : 0 <= private_key_ a /\ 0 <= private_key_ r)
    by (unfold valid_scalar in *; lia).
  destruct Hnn as [Hna Hnr].
  assert (Halg : padd (pmul (private_key_ a) PB)
                   (pneg (pmul (private_key_ r) (pmul (private_key_ a) generator)))
                 = pmul (private_key_ a) PY) by (apply unblind_algebra; assumption).
  unfold step3_alice in H3.
  rewrite (PublicKey_mult_spec _ _ _ (point_of_compressed_key _ HaG) Hr) in H3.
  cbn [mbind result_bind] in H3.
  rewrite (PublicKey_sub_spec _ _ _ _ (point_of_compressed_key _ HaB)
             (point_of_compressed_key _ HrA)) in H3.
  rewrite decide_False in H3
    by (intros Heq; apply padd_pneg_eq_infinity in Heq; rewrite Halg in Heq; contradiction).
  rewrite Halg in H3. injection H3 as <-.
  pose proof (point_of_compressed_key _ HaY) as HpC.
  assert (Hlegacy : verify_deprecated fuel a (compressed_key (pmul (private_key_ a) PY))
                      secret_msg = Some (Ok true)).
  { unfold verify_deprecated. rewrite HY'. f_equal.
    fold (signature_check a (compressed_key (pmul (private_key_ a) PY)) Y').
    rewrite (signature_check_spec _ _ _ _ _ Ha HpC HPY).
    rewrite bool_decide_eq_true_2 by reflexivity. reflexivity. }
  split; [exact Hlegacy|].
  unfold verify. rewrite HY, result_bind_ok. cbv beta.
  fold (signature_check a (compressed_key (pmul (private_key_ a) PY)) Y).
  destruct (signature_check_total a _ Y Ha (ex_intro _ _ HpC) (hash_to_curve_valid _ _ HY))
    as [-> | ->]; [reflexivity | exact Hlegacy].
Qed.

End ProtocolRuns.

Import secp256k1_const secp_utils.

(** * Further properties of keys.cpp *)

(** ** Versions *)

(** [VersionTuple::operator==] *)
Definition VersionTuple_eqb (v other : VersionTuple) : bool :=
  (major v =? major other) && (minor v =? minor other) && (patch v =? patch other).

(** X21 (order of versions).  [operator<] on version tuples is a strict
    total order, the lexicographic one: it is irreflexive and transitive,
    and of two versions exactly one is less than the other unless
    [operator==] holds, which it does exactly for equal tuples. *)
Theorem VersionTuple_strict_order (u v w : VersionTuple) :
  VersionTuple_ltb v v = false /\
  (VersionTuple_ltb u v = true -> VersionTuple_ltb v w = true -> VersionTuple_ltb u w = true) /\
  (VersionTuple_ltb u v = true -> VersionTuple_ltb v u = false) /\
  (VersionTuple_eqb u v = true <-> u = v) /\
  (VersionTuple_ltb u v = false -> VersionTuple_ltb v u = false -> VersionTuple_eqb u v = true) /\
  (VersionTuple_ltb u v = true <->
     major u < major v \/
     (major u = major v /\ (minor u < minor v \/ (minor u = minor v /\ patch u < patch v)))).
Proof.
  destruct u as [a1 b1 c1], v as [a2 b2 c2], w as [a3 b3 c3].
  unfold VersionTuple_ltb, VersionTuple_eqb. cbn [major minor patch].
  repeat split; intros;
    repeat match goal with
           | H : context [?x =? ?y] |- _ => destruct (Z.eqb_spec x y)
           | |- context [?x =? ?y] => destruct (Z.eqb_spec x y)
           | H : context [?x <? ?y] |- _ => destruct (Z.ltb_spec x y)
           | |- context [?x <? ?y] => destruct (Z.ltb_spec x y)
           end;
    cbn [negb andb] in *; try congruence; try lia.
Qed.

(** ** Decimal text *)

Lemma to_uint_not_nil n : Nat.to_uint n <> Nil.
Proof.
  rewrite <- (Unsigned.of_to n) at 1. rewrite Unsigned.to_of.
  unfold unorm. destruct (nzhead (Nat.to_uint n)); discriminate.
Qed.

Lemma to_string_uint i : cxx.to_string i = NilEmpty.string_of_uint (Nat.to_uint i).
Proof.
  unfold cxx.to_string, NilZero.string_of_uint.
  pose proof (to_uint_not_nil i). destruct (Nat.to_uint i); [contradiction | reflexivity ..].
Qed.

(** A text made of decimal digits only. *)
Fixpoint all_digits (s : string) : bool :=
  match s with
  | EmptyString => true
  | String c rest =>
      match cxx.decimal_digit c with
      | Some _ => all_digits rest
      | None => false
      end
  end.

Lemma string_of_uint_digits d : all_digits (NilEmpty.string_of_uint d) = true.
Proof. induction d; cbn; assumption || reflexivity. Qed.

Ltac read_digit :=
  cbn [NilEmpty.string_of_uint cxx.leading_digits Nat.of_uint_acc];
  match goal with
  | |- context [cxx.decimal_digit ?c] =>
      let v := eval vm_compute in (cxx.decimal_digit c) in
      change (cxx.decimal_digit c) with v
  end;
  cbv iota.

Lemma leading_digits_more d : forall v a,
  v = Z.of_nat a ->
  cxx.leading_digits (Some v) (NilEmpty.string_of_uint d) =
    Some (Z.of_nat (Nat.of_uint_acc d a)).
Proof.
  induction d; intros v a ->; [reflexivity | ..];
    read_digit; apply IHd; change (default 0 (Some (Z.of_nat a))) with (Z.of_nat a);
    rewrite Nat.tail_mul_spec; lia.
Qed.

Lemma leading_digits_uint d :
  d <> Nil ->
  cxx.leading_digits None (NilEmpty.string_of_uint d) = Some (Z.of_nat (Nat.of_uint d)).
Proof.
  unfold Nat.of_uint. destruct d; [contradiction | ..]; intros _;
    read_digit; apply leading_digits_more; reflexivity.
Qed.

Lemma string_of_uint_head d :
  d <> Nil ->
  exists c rest, NilEmpty.string_of_uint d = String c rest /\
                 is_space c = false /\ Ascii.eqb c "-" = false /\ Ascii.eqb c "+" = false /\
                 Ascii.eqb c "v" = false.
Proof.
  destruct d; [contradiction | ..]; intros _; cbn [NilEmpty.string_of_uint];
    eexists _, _; (split; [reflexivity|]); repeat split; reflexivity.
Qed.

Lemma signed_digits_to_string i :
  cxx.signed_digits (cxx.to_string i) = Some (false, Z.of_nat i).
Proof.
  rewrite to_string_uint. pose proof (to_uint_not_nil i) as Hne.
  destruct (string_of_uint_head _ Hne) as (c & rest & Hs & Hspace & Hminus & Hplus & _).
  pose proof (leading_digits_uint (Nat.to_uint i) Hne) as Hdigits.
  rewrite Unsigned.of_to in Hdigits.
  unfold cxx.signed_digits. rewrite Hs in *.
  cbn [cxx.skip_spaces]. rewrite Hspace, Hminus, Hplus. rewrite Hdigits. reflexivity.
Qed.

Lemma stoi_to_string i :
  Z.of_nat i <= 2 ^ 31 - 1 -> cxx.stoi (cxx.to_string i) = Ok (Z.of_nat i).
Proof.
  intros Hi. unfold cxx.stoi. rewrite signed_digits_to_string.
  replace (Z.of_nat i <? - 2 ^ 31) with false by lia.
  replace (Z.of_nat i >? 2 ^ 31 - 1) with false by lia. reflexivity.
Qed.

Lemma stoul_to_string i :
  Z.of_nat i <= 2 ^ 64 - 1 -> cxx.stoul (cxx.to_string i) = Ok (Z.of_nat i).
Proof.
  intros Hi. unfold cxx.stoul. rewrite signed_digits_to_string.
  replace (Z.of_nat i >? 2 ^ 64 - 1) with false by lia. reflexivity.
Qed.

(** ** Splitting a text at a delimiter *)

Fixpoint free_of (delim : ascii) (s : string) : bool :=
  match s with
  | EmptyString => true
  | String c rest => negb (Ascii.eqb c delim) && free_of delim rest
  end.

Lemma append_cons c (s t : string) : String c s ++ t = String c (s ++ t).
Proof. reflexivity. Qed.

Lemma append_nil_r (s : string) : s ++ "" = s.
Proof. induction s as [|c s IH]; [reflexivity|]. rewrite append_cons, IH. reflexivity. Qed.

Lemma getline_all_last delim s : forall segment,
  free_of delim s = true ->
  cxx.getline_all delim segment s =
    if String.eqb (segment ++ s) "" then [] else [segment ++ s].
Proof.
  induction s as [|c s IH]; intros segment Hfree.
  - cbn [cxx.getline_all]. rewrite append_nil_r.
    destruct (String.eqb segment ""); reflexivity.
  - cbn [free_of] in Hfree. apply andb_prop in Hfree as [Hc Hfree].
    apply negb_true_iff in Hc. cbn [cxx.getline_all]. rewrite Hc.
    rewrite IH by exact Hfree. rewrite string_append_assoc, append_cons, string_append_nil_l.
    reflexivity.
Qed.

Lemma getline_all_segment delim s rest : forall segment,
  free_of delim s = true ->
  cxx.getline_all delim segment (s ++ String delim rest) =
    (segment ++ s) :: cxx.getline_all delim "" rest.
Proof.
  induction s as [|c s IH]; intros segment Hfree.
  - rewrite string_append_nil_l, append_nil_r. cbn [cxx.getline_all].
    rewrite Ascii.eqb_refl. reflexivity.
  - cbn [free_of] in Hfree. apply andb_prop in Hfree as [Hc Hfree].
    apply negb_true_iff in Hc. rewrite append_cons. cbn [cxx.getline_all]. rewrite Hc.
    rewrite IH by exact Hfree. rewrite string_append_assoc, append_cons, string_append_nil_l.
    reflexivity.
Qed.

Lemma all_digits_free delim s :
  cxx.decimal_digit delim = None -> all_digits s = true -> free_of delim s = true.
Proof.
  intros Hdelim. induction s as [|c s IH]; [reflexivity|]. cbn [all_digits free_of].
  destruct (cxx.decimal_digit c) as [d|] eqn:Hc; [|discriminate]. intros Hs.
  rewrite (IH Hs), andb_true_r. apply negb_true_iff.
  destruct (Ascii.eqb_spec c delim) as [-> |]; [congruence | reflexivity].
Qed.

Lemma to_string_free delim i :
  cxx.decimal_digit delim = None -> free_of delim (cxx.to_string i) = true.
Proof.
  intros Hdelim. rewrite to_string_uint.
  apply all_digits_free; [exact Hdelim | apply string_of_uint_digits].
Qed.

Lemma to_string_nonempty i : cxx.to_string i <> "".
Proof.
  rewrite to_string_uint.
  destruct (string_of_uint_head _ (to_uint_not_nil i)) as (c & rest & -> & _). discriminate.
Qed.

(** ** parse_version *)

(** The decimal numbers [l] separated by dots. *)
Fixpoint dotted (l : list nat) : string :=
  match l with
  | [] => ""
  | [i] => cxx.to_string i
  | i :: rest => cxx.to_string i ++ String "." (dotted rest)
  end.

Lemma nonempty_eqb s : s <> "" -> String.eqb s "" = false.
Proof. intros H. apply String.eqb_neq, H. Qed.

Lemma dotted_segments l :
  filter (fun segment => segment <> "") (cxx.getline_all "." "" (dotted l)) =
    map cxx.to_string l.
Proof.
  induction l as [|i [|j rest] IH]; [reflexivity | |].
  - cbn [dotted map]. rewrite getline_all_last by (apply to_string_free; reflexivity).
    rewrite string_append_nil_l, (nonempty_eqb _ (to_string_nonempty i)).
    rewrite filter_cons_True by apply to_string_nonempty. reflexivity.
  - change (dotted (i :: j :: rest)) with (cxx.to_string i ++ String "." (dotted (j :: rest))).
    rewrite getline_all_segment by (apply to_string_free; reflexivity).
    rewrite string_append_nil_l.
    rewrite filter_cons_True by apply to_string_nonempty.
    rewrite IH. reflexivity.
Qed.

Lemma mapM_stoi l :
  Forall (fun i => Z.of_nat i <= 2 ^ 31 - 1) l ->
  mapM (M := result) cxx.stoi (map cxx.to_string l) = Ok (map Z.of_nat l).
Proof.
  induction 1 as [|i l Hi _ IH]; [reflexivity|].
  cbn [map mapM]. rewrite (stoi_to_string _ Hi). cbn [mbind result_bind].
  rewrite IH. reflexivity.
Qed.

Lemma parse_version_dotted l :
  Forall (fun i => Z.of_nat i <= 2 ^ 31 - 1) l ->
  keys.parse_version (dotted l) =
    Ok (mkVersionTuple (default 0 (map Z.of_nat l !! 0%nat))
                       (default 0 (map Z.of_nat l !! 1%nat))
                       (default 0 (map Z.of_nat l !! 2%nat))) /\
  keys.parse_version (String "v" (dotted l)) = keys.parse_version (dotted l).
Proof.
  intros Hl.
  assert (Hclean : match dotted l with
                   | String c rest => if Ascii.eqb c "v" then rest else dotted l
                   | EmptyString => dotted l
                   end = dotted l).
  { destruct l as [|i rest]; [reflexivity|].
    assert (Hhead : exists c tail, dotted (i :: rest) = String c tail /\ Ascii.eqb c "v" = false).
    { destruct (string_of_uint_head _ (to_uint_not_nil i)) as (c & tail & Hs & _ & _ & _ & Hv).
      rewrite <- to_string_uint in Hs.
      destruct rest as [|j rest]; cbn [dotted]; rewrite Hs.
      - exists c, tail. split; [reflexivity | exact Hv].
      - exists c, (tail ++ String "." (dotted (j :: rest))). split; [reflexivity | exact Hv]. }
    destruct Hhead as (c & tail & -> & ->). reflexivity. }
  assert (Hparse : keys.parse_version (dotted l) =
            Ok (mkVersionTuple (default 0 (map Z.of_nat l !! 0%nat))
                               (default 0 (map Z.of_nat l !! 1%nat))
                               (default 0 (map Z.of_nat l !! 2%nat)))).
  { unfold keys.parse_version. rewrite Hclean, dotted_segments, (mapM_stoi _ Hl). reflexivity. }
  split; [exact Hparse|].
  rewrite Hparse. unfold keys.parse_version. cbn [Ascii.eqb Bool.eqb].
  rewrite dotted_segments, (mapM_stoi _ Hl). reflexivity.
Qed.

(** X22 (reading a version).  The text ["major.minor.patch"] of three
    numbers that fit an [int], with or without a leading ["v"], parses to
    that tuple; parts that are missing count as zero, so ["major.minor"],
    ["major"] and the empty text parse too. *)
Theorem parse_version_round_trip (major_ minor_ patch_ : nat) :
  Z.of_nat major_ <= 2 ^ 31 - 1 -> Z.of_nat minor_ <= 2 ^ 31 - 1 ->
  Z.of_nat patch_ <= 2 ^ 31 - 1 ->
  let text := cxx.to_string major_ ++ "." ++ cxx.to_string minor_ ++ "." ++ cxx.to_string patch_ in
  let version := mkVersionTuple (Z.of_nat major_) (Z.of_nat minor_) (Z.of_nat patch_) in
  keys.parse_version text = Ok version /\
  keys.parse_version ("v" ++ text) = Ok version /\
  keys.parse_version (cxx.to_string major_ ++ "." ++ cxx.to_string minor_) =
    Ok (mkVersionTuple (Z.of_nat major_) (Z.of_nat minor_) 0) /\
  keys.parse_version (cxx.to_string major_) = Ok (mkVersionTuple (Z.of_nat major_) 0 0) /\
  keys.parse_version "" = Ok (mkVersionTuple 0 0 0).
Proof.
  intros H1 H2 H3. cbv zeta.
  assert (F3 : Forall (fun i => Z.of_nat i <= 2 ^ 31 - 1) [major_; minor_; patch_])
    by (repeat constructor; assumption).
  assert (F2 : Forall (fun i => Z.of_nat i <= 2 ^ 31 - 1) [major_; minor_])
    by (repeat constructor; assumption).
  assert (F1 : Forall (fun i => Z.of_nat i <= 2 ^ 31 - 1) [major_])
    by (repeat constructor; assumption).
  destruct (parse_version_dotted _ F3) as [P3 V3].
  destruct (parse_version_dotted _ F2) as [P2 _].
  destruct (parse_version_dotted _ F1) as [P1 _].
  split; [exact P3|]. split; [exact (eq_trans V3 P3)|].
  split; [exact P2|]. split; [exact P1|]. reflexivity.
Qed.

(** ** BIP32 paths *)

(** One level of a path: the index [entry.1], hardened when [entry.2]. *)
Definition path_level (entry : nat * bool) : string :=
  cxx.to_string entry.1 ++ (if entry.2 then "'" else "").

(** The levels [l], each behind a slash. *)
Fixpoint path_text (l : list (nat * bool)) : string :=
  match l with
  | [] => ""
  | entry :: rest => String "/" (path_level entry ++ path_text rest)
  end.

Lemma free_of_app delim s t :
  free_of delim s = true -> free_of delim t = true -> free_of delim (s ++ t) = true.
Proof.
  intros Hs Ht. induction s as [|c s IH]; [rewrite string_append_nil_l; exact Ht|].
  cbn [free_of] in Hs. apply andb_prop in Hs as [Hc Hs].
  rewrite append_cons. cbn [free_of]. rewrite Hc, (IH Hs). reflexivity.
Qed.

Lemma path_level_free entry : free_of "/" (path_level entry) = true.
Proof.
  unfold path_level. apply free_of_app; [apply to_string_free; reflexivity|].
  destruct entry.2; reflexivity.
Qed.

Lemma path_level_nonempty entry : path_level entry <> "".
Proof.
  unfold path_level. pose proof (to_string_nonempty entry.1) as Hne.
  destruct (cxx.to_string entry.1); [contradiction | discriminate].
Qed.

Lemma leading_slash rest :
  filter (fun segment => segment <> "") (cxx.getline_all "/" "" (String "/" rest)) =
  filter (fun segment => segment <> "") (cxx.getline_all "/" "" rest).
Proof.
  cbn [cxx.getline_all]. rewrite Ascii.eqb_refl. apply filter_cons_False. intros H. apply H. reflexivity.
Qed.

Lemma path_segments l :
  filter (fun segment => segment <> "") (cxx.getline_all "/" "" (path_text l)) =
    map path_level l.
Proof.
  induction l as [|entry rest IH]; [reflexivity|].
  cbn [path_text map]. rewrite leading_slash. destruct rest as [|next rest].
  - cbn [path_text map]. rewrite append_nil_r.
    rewrite getline_all_last by apply path_level_free.
    rewrite string_append_nil_l, (nonempty_eqb _ (path_level_nonempty entry)).
    rewrite filter_cons_True by apply path_level_nonempty. reflexivity.
  - cbn [path_text] in *. rewrite leading_slash in IH.
    rewrite getline_all_segment by apply path_level_free.
    rewrite string_append_nil_l, filter_cons_True by apply path_level_nonempty.
    rewrite IH. reflexivity.
Qed.

Lemma append_length (s t : string) :
  String.length (s ++ t) = (String.length s + String.length t)%nat.
Proof.
  induction s as [|c s IH]; [rewrite string_append_nil_l; reflexivity|].
  rewrite append_cons. cbn [String.length]. rewrite IH. reflexivity.
Qed.

Lemma get_last s c :
  String.get (String.length (s ++ String c "") - 1) (s ++ String c "") = Some c.
Proof.
  induction s as [|c' s IH]; [reflexivity|].
  rewrite append_cons. cbn [String.length].
  replace (S (String.length (s ++ String c "")) - 1)%nat
    with (S (String.length (s ++ String c "") - 1)) .
  - cbn [String.get]. exact IH.
  - rewrite append_length. cbn [String.length]. lia.
Qed.

Lemma substring_init s c :
  substring 0 (String.length (s ++ String c "") - 1) (s ++ String c "") = s.
Proof.
  induction s as [|c' s IH]; [reflexivity|].
  rewrite append_cons. cbn [String.length].
  replace (S (String.length (s ++ String c "")) - 1)%nat
    with (S (String.length (s ++ String c "") - 1)).
  - cbn [substring]. rewrite IH. reflexivity.
  - rewrite append_length. cbn [String.length]. lia.
Qed.

Lemma all_digits_get s : forall n c,
  all_digits s = true -> String.get n s = Some c -> cxx.decimal_digit c <> None.
Proof.
  induction s as [|c' s IH]; intros n c Hs Hget; [discriminate|].
  cbn [all_digits] in Hs. destruct (cxx.decimal_digit c') as [d|] eqn:Hc'; [|discriminate].
  destruct n as [|n]; cbn [String.get] in Hget.
  - injection Hget as <-. congruence.
  - exact (IH _ _ Hs Hget).
Qed.

Lemma hardened_bit i : 0 <= i < 2 ^ 31 -> Z.lor i 0x80000000 = i + 2 ^ 31.
Proof.
  intros Hi. change 0x80000000 with (2 ^ 31).
  assert (Hland : Z.land i (2 ^ 31) = 0).
  { apply Z.bits_inj'. intros n Hn. rewrite Z.land_spec, Z.bits_0, Z.pow2_bits_eqb by lia.
    destruct (Z.eqb_spec 31 n) as [<- |]; [|apply andb_false_r].
    rewrite andb_true_r. destruct (Z.eq_dec i 0) as [-> | Hnz]; [apply Z.bits_0|].
    apply Z.bits_above_log2; [lia|]. apply Z.log2_lt_pow2; lia. }
  rewrite (Z.add_nocarry_lxor _ _ Hland). symmetry. apply Z.lxor_lor, Hland.
Qed.

Lemma parse_segment_level entry :
  Z.of_nat entry.1 < 2 ^ 31 ->
  keys.parse_segment (path_level entry) =
    Ok (if entry.2 then Z.of_nat entry.1 + 2 ^ 31 else Z.of_nat entry.1).
Proof.
  intros Hi. destruct entry as [i hardened]. cbn [fst snd] in *.
  unfold keys.parse_segment, path_level. cbn [fst snd]. destruct hardened.
  - rewrite get_last, bool_decide_eq_true_2 by reflexivity.
    rewrite substring_init, stoul_to_string by lia. cbn [mbind result_bind].
    rewrite Z.mod_small by lia. rewrite hardened_bit by lia. reflexivity.
  - rewrite append_nil_r. rewrite bool_decide_eq_false_2.
    + rewrite stoul_to_string by lia. cbn [mbind result_bind].
      rewrite Z.mod_small by lia. reflexivity.
    + intros Hget. rewrite to_string_uint in Hget.
      apply all_digits_get in Hget; [|apply string_of_uint_digits]. apply Hget. reflexivity.
Qed.

Lemma parse_path_refused (path : string) :
  String.get 0 path <> Some "m"%char ->
  keys.parse_path path = Throw (invalid_argument "Path must start with 'm'").
Proof.
  intros Hm. unfold keys.parse_path. destruct path as [|c rest]; [reflexivity|].
  destruct (Ascii.eqb_spec c "m") as [-> |]; [|reflexivity].
  exfalso. apply Hm. reflexivity.
Qed.

(** X23 (reading a derivation path).  A path ["m/i1/i2'/..."] whose
    indices are below [2^31] parses to the list of these indices, each
    with bit 31 set when it is followed by an apostrophe (hardened);
    ["m"] alone parses to no index; a path that is empty or does not
    start with ['m'] is refused. *)
Theorem parse_path_outcome (l : list (nat * bool)) (path : string) :
  (Forall (fun entry : nat * bool => Z.of_nat entry.1 < 2 ^ 31) l ->
   keys.parse_path (String "m" (path_text l)) =
     Ok (map (fun entry : nat * bool =>
                if entry.2 then Z.of_nat entry.1 + 2 ^ 31 else Z.of_nat entry.1) l)) /\
  keys.parse_path "m" = Ok [] /\
  (String.get 0 path <> Some "m"%char ->
   keys.parse_path path = Throw (invalid_argument "Path must start with 'm'")).
Proof.
  split; [|split; [reflexivity|]].
  - intros Hl. unfold keys.parse_path. cbn [Ascii.eqb Bool.eqb negb].
    rewrite path_segments. induction Hl as [|entry rest Hentry _ IH]; [reflexivity|].
    cbn [map mapM]. rewrite (parse_segment_level _ Hentry). cbn [mbind result_bind].
    rewrite IH. reflexivity.
  - apply parse_path_refused.
Qed.

(** ** The derivation loops *)

Section KeyDerivationLoops.
Context {ssl : OpenSSL} {curve : Secp256k1}.
Import keys.

(** The digest [derive_keys_deprecated_pre_0_15] takes the key for
    index [i] from. *)
Definition pre_0_15_digest (seed derivation_path : string) (i : nat) : list byte :=
  SHA256 (list_byte_of_string (seed ++ derivation_path ++ cxx.to_string i)).

Lemma pre_0_15_loop seed derivation_path amounts : forall i result_ src,
  derive_keys_deprecated_pre_0_15_loop seed derivation_path i amounts result_ src =
    indexed_insert (fun i => PrivateKey_.of_bytes (pre_0_15_digest seed derivation_path i))
      i amounts result_ src.
Proof.
  induction amounts as [|amount rest IH]; intros i result_ src; [reflexivity|].
  cbn [derive_keys_deprecated_pre_0_15_loop indexed_insert]. cbv zeta.
  unfold sha256_string. fold (pre_0_15_digest seed derivation_path i).
  rewrite firstn_all2 by (unfold pre_0_15_digest; rewrite SHA256_length; lia).
  unfold mbind, rand_bind, lift.
  destruct (PrivateKey_.of_bytes _); [|reflexivity].
  destruct (operator_index result_ amount src) as [[result1 src1]|]; [apply IH | reflexivity].
Qed.

Lemma of_bytes_digest data k :
  List.length data = 32%nat ->
  PrivateKey_.of_bytes data = Ok k <->
  0 < be_int data < CURVE_ORDER /\ k = mkPrivateKey (be_int data).
Proof.
  intros Hlen. rewrite (of_bytes_spec _ Hlen), of_int_spec. split.
  - destruct (bool_decide_reflect (1 <= be_int data < CURVE_ORDER)); [|discriminate].
    intros [= <-]. split; [lia | reflexivity].
  - intros [Hrange ->]. rewrite bool_decide_eq_true_2 by lia. reflexivity.
Qed.

(** X24 (derivation of versions 0.12 to 0.14).  When
    [derive_keys_deprecated_pre_0_15] returns, its map is defined
    exactly on the requested amounts and holds, at the amount of (the
    last) index [i], the scalar that the digest
    [SHA256 (seed ++ path ++ decimal i)] encodes.  It returns when every
    one of these digests is a valid scalar and the default
    constructions [PrivateKey()] that [result[amounts[i]]] runs, at most
    one for each amount, draw valid scalars.  It raises the range error
    at the first digest that is not a valid scalar and, on distinct
    amounts, the error of the first draw that is not one. *)
Theorem derive_keys_pre_0_15_outcome (seed derivation_path : string) (amounts : list Z)
    (src : random_source) :
  let digest i := SHA256 (list_byte_of_string (seed ++ derivation_path ++ cxx.to_string i)) in
  (forall (keys_ : gmap Z PrivateKey) (src' : random_source),
     derive_keys_deprecated_pre_0_15 seed amounts derivation_path src = Ok (keys_, src') ->
     dom keys_ = list_to_set amounts /\
     forall i amount, amounts !! i = Some amount ->
       (forall i', (i < i')%nat -> amounts !! i' <> Some amount) ->
       keys_ !! amount = Some (mkPrivateKey (be_int (digest i)))) /\
  ((forall i, (i < List.length amounts)%nat -> 0 < be_int (digest i) < CURVE_ORDER) ->
   (forall i, (i < List.length amounts)%nat -> exists k, drawn_key (src i) = Ok k) ->
   exists keys_ src',
     derive_keys_deprecated_pre_0_15 seed amounts derivation_path src = Ok (keys_, src')) /\
  (forall i, (i < List.length amounts)%nat ->
     ~ 0 < be_int (digest i) < CURVE_ORDER ->
     (forall i', (i' < i)%nat -> 0 < be_int (digest i') < CURVE_ORDER) ->
     (forall i', (i' < i)%nat -> exists k, drawn_key (src i') = Ok k) ->
     derive_keys_deprecated_pre_0_15 seed amounts derivation_path src =
       Throw (invalid_argument "Private key must be in range [1, curve_order)")) /\
  (NoDup amounts ->
   forall i e, (i < List.length amounts)%nat -> drawn_key (src i) = Throw e ->
     (forall i', (i' <= i)%nat -> 0 < be_int (digest i') < CURVE_ORDER) ->
     (forall i', (i' < i)%nat -> exists k, drawn_key (src i') = Ok k) ->
     derive_keys_deprecated_pre_0_15 seed amounts derivation_path src = Throw e).
Proof.
  cbv zeta. fold (pre_0_15_digest seed derivation_path).
  unfold derive_keys_deprecated_pre_0_15. rewrite pre_0_15_loop.
  assert (Hlen : forall i, List.length (pre_0_15_digest seed derivation_path i) = 32%nat)
    by (intros i; apply SHA256_length).
  assert (Hvalid : forall i, 0 < be_int (pre_0_15_digest seed derivation_path i) < CURVE_ORDER ->
            exists key, PrivateKey_.of_bytes (pre_0_15_digest seed derivation_path i) = Ok key).
  { intros i Hi. eexists. apply (of_bytes_digest _ _ (Hlen i)). split; [exact Hi | reflexivity]. }
  split; [|split; [|split]].
  - intros keys_ src' H. apply indexed_insert_Ok in H as (Hdom & Hlast & _).
    split; [rewrite Hdom; set_solver|].
    intros i amount Hi Hlater. destruct (Hlast i amount Hi Hlater) as (key & Hkey & Hlookup).
    cbn [Nat.add] in Hkey. apply (of_bytes_digest _ _ (Hlen i)) in Hkey as [_ ->].
    exact Hlookup.
  - intros Hall Hdraws. apply indexed_insert_returns; [|exact Hdraws].
    intros j Hj. cbn [Nat.add]. apply Hvalid, Hall, Hj.
  - intros i Hi Hbad Hbefore Hdraws. apply (indexed_insert_throws _ _ _ _ _ _ i Hi).
    + cbn [Nat.add]. rewrite (of_bytes_spec _ (Hlen i)), of_int_spec.
      rewrite bool_decide_eq_false_2 by lia. reflexivity.
    + intros j Hj. cbn [Nat.add]. apply Hvalid, Hbefore, Hj.
    + exact Hdraws.
  - intros Hnodup i e Hi He Hdigests Hdraws.
    apply (indexed_insert_draw_throws _ _ _ _ _ _ i Hnodup).
    + intros amount _. apply lookup_empty.
    + exact Hi.
    + exact He.
    + intros j Hj. cbn [Nat.add]. apply Hvalid, Hdigests, Hj.
    + exact Hdraws.
Qed.

Lemma derive_keys_loop_indexed bip32 derivation_path amounts : forall i result_ src,
  derive_keys_loop bip32 derivation_path i amounts result_ src =
    indexed_insert
      (fun i => get_privkey_from_path bip32 (derivation_path ++ "/" ++ cxx.to_string i ++ "'"))
      i amounts result_ src.
Proof.
  induction amounts as [|amount rest IH]; intros i result_ src; [reflexivity|].
  cbn [derive_keys_loop indexed_insert]. cbv zeta.
  unfold mbind, rand_bind, lift.
  destruct (get_privkey_from_path _ _); [|reflexivity].
  destruct (operator_index result_ amount src) as [[result1 src1]|]; [apply IH | reflexivity].
Qed.

Lemma append_head (s t : string) c :
  String.get 0 s = Some c -> String.get 0 (s ++ t) = Some c.
Proof. destruct s as [|c' s]; [discriminate|]. intros H. exact H. Qed.

(** X25 (BIP32 derivation of the keys).  When [derive_keys] returns,
    its map is defined exactly on the requested amounts and holds, at
    the amount of (the last) index [i], the key of the hardened child
    path [derivation_path/i'].  Without amounts it returns the empty map
    whatever the path is and draws nothing; with amounts, a path that
    does not start with ['m'] is refused before anything is drawn.  It
    returns when every child key exists and the default constructions
    [PrivateKey()] that [result[amounts[i]]] runs, at most one for each
    amount, draw valid scalars; on distinct amounts it raises the error
    of the first draw that is not one. *)
Theorem derive_keys_outcome (mnemonic derivation_path : string) (amounts : list Z)
    (src : random_source) :
  let child i :=
    get_privkey_from_path (BIP32Helper_new mnemonic)
      (derivation_path ++ "/" ++ cxx.to_string i ++ "'") in
  (forall (keys_ : gmap Z PrivateKey) (src' : random_source),
     derive_keys mnemonic derivation_path amounts src = Ok (keys_, src') ->
     dom keys_ = list_to_set amounts /\
     forall i amount, amounts !! i = Some amount ->
       (forall i', (i < i')%nat -> amounts !! i' <> Some amount) ->
       exists key, child i = Ok key /\ keys_ !! amount = Some key) /\
  derive_keys mnemonic derivation_path [] src = Ok (∅, src) /\
  (amounts <> [] -> String.get 0 derivation_path <> Some "m"%char ->
   derive_keys mnemonic derivation_path amounts src =
     Throw (invalid_argument "Path must start with 'm'")) /\
  ((forall i, (i < List.length amounts)%nat -> exists key, child i = Ok key) ->
   (forall i, (i < List.length amounts)%nat -> exists k, drawn_key (src i) = Ok k) ->
   exists keys_ src', derive_keys mnemonic derivation_path amounts src = Ok (keys_, src')) /\
  (NoDup amounts ->
   forall i e, (i < List.length amounts)%nat -> drawn_key (src i) = Throw e ->
     (forall i', (i' <= i)%nat -> exists key, child i' = Ok key) ->
     (forall i', (i' < i)%nat -> exists k, drawn_key (src i') = Ok k) ->
     derive_keys mnemonic derivation_path amounts src = Throw e).
Proof.
  cbv zeta. split; [|split; [reflexivity|split; [|split]]].
  - intros keys_ src' H. unfold derive_keys in H. rewrite derive_keys_loop_indexed in H.
    apply indexed_insert_Ok in H as (Hdom & Hlast & _).
    split; [rewrite Hdom; set_solver|].
    intros i amount Hi Hlater. exact (Hlast i amount Hi Hlater).
  - intros Hne Hm. unfold derive_keys. rewrite derive_keys_loop_indexed.
    apply (indexed_insert_throws _ _ _ _ _ _ 0%nat).
    + destruct amounts; [contradiction | cbn; lia].
    + cbn [Nat.add]. unfold get_privkey_from_path.
      assert (Hpath : parse_path (derivation_path ++ "/" ++ cxx.to_string 0 ++ "'") =
                Throw (invalid_argument "Path must start with 'm'")).
      { apply parse_path_refused. destruct derivation_path as [|c rest].
        - discriminate.
        - rewrite append_cons. exact Hm. }
      rewrite Hpath. reflexivity.
    + intros j Hj. lia.
    + intros j Hj. lia.
  - intros Hall Hdraws. unfold derive_keys. rewrite derive_keys_loop_indexed.
    apply indexed_insert_returns; [|exact Hdraws].
    intros j Hj. cbn [Nat.add]. apply Hall, Hj.
  - intros Hnodup i e Hi He Hkeys Hdraws. unfold derive_keys.
    rewrite derive_keys_loop_indexed.
    apply (indexed_insert_draw_throws _ _ _ _ _ _ i Hnodup).
    + intros amount _. apply lookup_empty.
    + exact Hi.
    + exact He.
    + intros j Hj. cbn [Nat.add]. apply Hkeys, Hj.
    + exact Hdraws.
Qed.

(** *** Public keys of a keyset *)

Lemma derive_pubkeys_loop_Ok keys_ amounts : forall result_ pubkeys,
  derive_pubkeys_loop keys_ amounts result_ = Ok pubkeys ->
  dom pubkeys = dom result_ ∪ (list_to_set amounts ∩ dom keys_) /\
  (forall amount pk, pubkeys !! amount = Some pk ->
     result_ !! amount = Some pk \/
     exists key, keys_ !! amount = Some key /\ PublicKey_.pubkey key = Ok pk).
Proof.
  induction amounts as [|amount rest IH]; intros result_ pubkeys H.
  - injection H as <-. split; [set_solver | auto].
  - cbn [derive_pubkeys_loop] in H. destruct (keys_ !! amount) as [key|] eqn:Hkey.
    + apply result_bind_Ok in H as (pk & Hpk & H).
      destruct (IH _ _ H) as [Hdom Hvalues]. split.
      * rewrite Hdom, dom_insert_L. cbn [list_to_set].
        apply elem_of_dom_2 in Hkey. set_solver.
      * intros a pk' Hlookup. destruct (Hvalues a pk' Hlookup) as [Hins | Hnew]; [|auto].
        destruct (decide (amount = a)) as [<- | Hne].
        -- rewrite lookup_insert_eq in Hins. injection Hins as <-. right. eauto.
        -- rewrite lookup_insert_ne in Hins by exact Hne. auto.
    + destruct (IH _ _ H) as [Hdom Hvalues]. split; [|exact Hvalues].
      rewrite Hdom. cbn [list_to_set]. apply not_elem_of_dom in Hkey. set_solver.
Qed.

Lemma derive_pubkeys_loop_returns keys_ amounts : forall result_,
  (forall amount key, keys_ !! amount = Some key -> valid_scalar key) ->
  exists pubkeys, derive_pubkeys_loop keys_ amounts result_ = Ok pubkeys.
Proof.
  intros result_ Hvalid. revert result_.
  induction amounts as [|amount rest IH]; intros result_; [eexists; reflexivity|].
  cbn [derive_pubkeys_loop]. destruct (keys_ !! amount) as [key|] eqn:Hkey; [|apply IH].
  rewrite (PublicKey_pubkey_spec _ (Hvalid _ _ Hkey)), result_bind_ok. apply IH.
Qed.

(** X26 (public keys of a keyset).  [derive_pubkeys] returns a map
    defined exactly on the requested amounts that the private keyset
    has, silently leaving out the others, and holding at each the public
    key of the private key; it never raises on a keyset of valid
    scalars. *)
Theorem derive_pubkeys_outcome (keys_ : gmap Z PrivateKey) (amounts : list Z) :
  (forall pubkeys : gmap Z PublicKey,
     derive_pubkeys keys_ amounts = Ok pubkeys ->
     dom pubkeys = list_to_set amounts ∩ dom keys_ /\
     forall amount pk, pubkeys !! amount = Some pk ->
       exists key, keys_ !! amount = Some key /\ PublicKey_.pubkey key = Ok pk) /\
  ((forall amount key, keys_ !! amount = Some key -> valid_scalar key) ->
   exists pubkeys, derive_pubkeys keys_ amounts = Ok pubkeys).
Proof.
  unfold derive_pubkeys. split.
  - intros pubkeys H. apply derive_pubkeys_loop_Ok in H as [Hdom Hvalues].
    split; [rewrite Hdom; set_solver|].
    intros amount pk Hlookup. destruct (Hvalues _ _ Hlookup) as [Hempty | Hkey];
      [rewrite lookup_empty in Hempty; discriminate | exact Hkey].
  - apply derive_pubkeys_loop_returns.
Qed.

End KeyDerivationLoops.

(** ** Base64 *)

(** A property of every character of a text. *)
Fixpoint all_chars (p : ascii -> bool) (s : string) : bool :=
  match s with
  | EmptyString => true
  | String c rest => p c && all_chars p rest
  end.

(** The 64 characters of the standard alphabet. *)
Definition is_base64 (c : ascii) : bool :=
  let n := Z.of_N (N_of_ascii c) in
  ((65 <=? n) && (n <=? 90)) || ((97 <=? n) && (n <=? 122)) || ((48 <=? n) && (n <=? 57))
  || (n =? 43) || (n =? 47).

(** The characters of the URL-safe alphabet. *)
Definition is_urlsafe (c : ascii) : bool :=
  let n := Z.of_N (N_of_ascii c) in
  ((65 <=? n) && (n <=? 90)) || ((97 <=? n) && (n <=? 122)) || ((48 <=? n) && (n <=? 57))
  || (n =? 45) || (n =? 95).

(** [bytes_to_base64_urlsafe]: the two replacements, then
    [base64.erase(find(begin, end, '='), end)]. *)
Definition urlsafe_char (c : ascii) : ascii :=
  if Ascii.eqb c "+" then "-"%char else if Ascii.eqb c "/" then "_"%char else c.

Fixpoint map_chars (f : ascii -> ascii) (s : string) : string :=
  match s with
  | EmptyString => EmptyString
  | String c rest => String (f c) (map_chars f rest)
  end.

Fixpoint erase_from (c : ascii) (s : string) : string :=
  match s with
  | EmptyString => EmptyString
  | String c' rest => if Ascii.eqb c' c then EmptyString else String c' (erase_from c rest)
  end.

Definition bytes_to_base64_urlsafe (bytes : list byte) : string :=
  let base64 := keys.bytes_to_base64 bytes in
  let base64 := map_chars urlsafe_char base64 in
  erase_from "=" base64.

(** [random_hash]: the draw holds what [RAND_bytes] returned and the 30
    bytes it wrote. *)
Definition random_hash : rand string :=
  draw ← next_draw;
  if negb (RAND_bytes_return draw =? 1)
  then lift (Throw (runtime_error "Failed to generate random bytes"))
  else mret (bytes_to_base64_urlsafe (RAND_bytes_buffer draw)).

Lemma base64_char_alphabet v : is_base64 (keys.base64_char (Z.land v 63)) = true.
Proof.
  change 63 with (Z.ones 6). rewrite Z.land_ones by lia.
  pose proof (Z.mod_pos_bound v (2 ^ 6) ltac:(lia)) as Hr.
  assert (Hcases : Forall (fun i => is_base64 (keys.base64_char i) = true)
                     (map Z.of_nat (seq 0 64))) by (vm_compute; repeat constructor).
  rewrite Forall_forall in Hcases. apply Hcases.
  change (2 ^ 6) with 64 in *.
  apply list_elem_of_fmap. exists (Z.to_nat (v mod 64)).
  split; [symmetry; apply Z2Nat.id; lia|].
  apply list_elem_of_In, in_seq. lia.
Qed.

Lemma base64_three_step (P : list byte -> Prop) :
  P [] -> (forall b0, P [b0]) -> (forall b0 b1, P [b0; b1]) ->
  (forall b0 b1 b2 rest, P rest -> P (b0 :: b1 :: b2 :: rest)) ->
  forall bytes, P bytes.
Proof.
  intros H0 H1 H2 H3 bytes.
  assert (H : P bytes /\ (forall b, P (b :: bytes)) /\ (forall b b', P (b :: b' :: bytes))).
  { induction bytes as [|b bytes (IH0 & IH1 & IH2)]; [auto|].
    split; [apply IH1|]. split; [intros b'; apply IH2|]. intros b0 b1. apply H3, IH0. }
  exact (proj1 H).
Qed.

Lemma bytes_to_base64_length bytes :
  String.length (keys.bytes_to_base64 bytes) = (4 * ((List.length bytes + 2) / 3))%nat.
Proof.
  induction bytes as [| | |b0 b1 b2 rest IH] using base64_three_step; try reflexivity.
  cbn [keys.bytes_to_base64 String.length List.length]. rewrite IH.
  replace (S (S (S (List.length rest))) + 2)%nat with (List.length rest + 2 + 1 * 3)%nat by lia.
  rewrite Nat.div_add by lia. lia.
Qed.

Lemma bytes_to_base64_alphabet bytes :
  all_chars (fun c => is_base64 c || Ascii.eqb c "=") (keys.bytes_to_base64 bytes) = true /\
  ((List.length bytes mod 3 = 0)%nat ->
   all_chars is_base64 (keys.bytes_to_base64 bytes) = true).
Proof.
  induction bytes as [|b0|b0 b1|b0 b1 b2 rest [IH1 IH2]] using base64_three_step.
  - split; reflexivity.
  - split; [|discriminate]. cbn [keys.bytes_to_base64 all_chars].
    rewrite !base64_char_alphabet. reflexivity.
  - split; [|discriminate]. cbn [keys.bytes_to_base64 all_chars].
    rewrite !base64_char_alphabet. reflexivity.
  - cbn [keys.bytes_to_base64 all_chars]. rewrite !base64_char_alphabet. cbn [orb andb].
    split; [exact IH1|]. intros Hmod. apply IH2.
    cbn [List.length] in Hmod.
    replace (S (S (S (List.length rest)))) with (List.length rest + 1 * 3)%nat in Hmod by lia.
    rewrite Nat.Div0.mod_add in Hmod. exact Hmod.
Qed.

Lemma urlsafe_text s :
  all_chars is_base64 s = true ->
  erase_from "=" (map_chars urlsafe_char s) = map_chars urlsafe_char s /\
  all_chars is_urlsafe (map_chars urlsafe_char s) = true /\
  String.length (map_chars urlsafe_char s) = String.length s.
Proof.
  induction s as [|c s IH]; [repeat split|]. cbn [all_chars map_chars erase_from String.length].
  intros H. apply andb_prop in H as [Hc Hs]. destruct (IH Hs) as (IH1 & IH2 & IH3).
  assert (Hchar : Ascii.eqb (urlsafe_char c) "=" = false /\ is_urlsafe (urlsafe_char c) = true).
  { clear -Hc. unfold urlsafe_char.
    destruct (Ascii.eqb_spec c "+") as [-> |]; [split; reflexivity|].
    destruct (Ascii.eqb_spec c "/") as [-> |]; [split; reflexivity|].
    unfold is_base64 in Hc. unfold is_urlsafe.
    assert (Hn43 : Z.of_N (N_of_ascii c) <> 43).
    { intros H. apply n. rewrite <- (ascii_N_embedding c).
      replace (N_of_ascii c) with 43%N by lia. reflexivity. }
    assert (Hn47 : Z.of_N (N_of_ascii c) <> 47).
    { intros H. apply n0. rewrite <- (ascii_N_embedding c).
      replace (N_of_ascii c) with 47%N by lia. reflexivity. }
    split.
    - destruct (Ascii.eqb_spec c "=") as [-> |]; [discriminate Hc | reflexivity].
    - destruct (Z.eqb_spec (Z.of_N (N_of_ascii c)) 43); [contradiction|].
      destruct (Z.eqb_spec (Z.of_N (N_of_ascii c)) 47); [contradiction|].
      rewrite !orb_false_r in Hc. rewrite Hc. reflexivity. }
  destruct Hchar as [-> ->]. rewrite IH1, IH2, IH3. repeat split.
Qed.

(** X27 (base64 text and [random_hash]).  [bytes_to_base64] writes
    [4 * ceil (len / 3)] characters of the standard alphabet and ['='],
    and no ['='] when the length is a multiple of three.  [random_hash]
    raises ["Failed to generate random bytes"] when [RAND_bytes] fails;
    when it succeeds, with its 30 bytes, the result has 40 characters, all
    letters, digits, ['-'] or ['_']. *)
Theorem base64_and_random_hash (bytes : list byte) (src : random_source) :
  String.length (keys.bytes_to_base64 bytes) = (4 * ((List.length bytes + 2) / 3))%nat /\
  all_chars (fun c => is_base64 c || Ascii.eqb c "=") (keys.bytes_to_base64 bytes) = true /\
  ((List.length bytes mod 3 = 0)%nat ->
   all_chars is_base64 (keys.bytes_to_base64 bytes) = true) /\
  (RAND_bytes_return (src 0%nat) <> 1 ->
   random_hash src = Throw (runtime_error "Failed to generate random bytes")) /\
  (RAND_bytes_return (src 0%nat) = 1 ->
   List.length (RAND_bytes_buffer (src 0%nat)) = 30%nat ->
   exists hash src',
     random_hash src = Ok (hash, src') /\ String.length hash = 40%nat /\
     all_chars is_urlsafe hash = true).
Proof.
  split; [apply bytes_to_base64_length|].
  split; [apply bytes_to_base64_alphabet|]. split; [apply bytes_to_base64_alphabet|].
  unfold random_hash, mbind, rand_bind, next_draw. split.
  - intros Hfail. destruct (Z.eqb_spec (RAND_bytes_return (src 0%nat)) 1); [contradiction|].
    reflexivity.
  - intros Hok Hlen. rewrite Hok. cbn [Z.eqb Pos.eqb negb].
    destruct (bytes_to_base64_alphabet (RAND_bytes_buffer (src 0%nat))) as [_ Hplain].
    rewrite Hlen in Hplain. specialize (Hplain eq_refl).
    destruct (urlsafe_text _ Hplain) as (Herase & Hsafe & Hlength).
    exists (bytes_to_base64_urlsafe (RAND_bytes_buffer (src 0%nat))), (fun i => src (S i)).
    split; [reflexivity|]. unfold bytes_to_base64_urlsafe. cbv zeta. rewrite Herase.
    split; [|exact Hsafe]. rewrite Hlength, bytes_to_base64_length, Hlen. reflexivity.
Qed.

(** ** Keyset identifiers of all versions *)

Section KeysetIdVersions.
Context {ssl : OpenSSL} {curve : Secp256k1}.
Import keys.

Lemma bytes_to_hex_app (a b : list byte) :
  secp_utils.bytes_to_hex (a ++ b) = secp_utils.bytes_to_hex a ++ secp_utils.bytes_to_hex b.
Proof.
  induction a as [|x a IH]; [rewrite string_append_nil_l; reflexivity|].
  rewrite <- app_comm_cons, !bytes_to_hex_cons, IH. reflexivity.
Qed.

Lemma concat_hex_serialized entries :
  concat_hex entries =
    (pubkeys_concat ← concat_serialized entries; Ok (bytes_to_hex pubkeys_concat)).
Proof.
  induction entries as [|[amount pk] entries IH]; [reflexivity|].
  cbn [concat_hex concat_serialized].
  destruct (PublicKey_.serialize pk true) as [serialized|]; [|reflexivity].
  rewrite !result_bind_ok, IH.
  destruct (concat_serialized entries) as [tail|]; [|reflexivity].
  rewrite !result_bind_ok. unfold bytes_to_hex. rewrite bytes_to_hex_app. reflexivity.
Qed.

Lemma derive_keyset_id_deprecated_points (entries entries' : list (Z * PublicKey)) :
  NoDup (entries.*1) ->
  entry_point <$> entries ≡ₚ entry_point <$> entries' ->
  derive_keyset_id_deprecated entries' = derive_keyset_id_deprecated entries.
Proof.
  intros Hnd Hperm. unfold derive_keyset_id_deprecated.
  rewrite !concat_hex_serialized, !concat_serialized_points,
    (sorted_points_unique _ _ Hnd Hperm). reflexivity.
Qed.

(** X28 (identifier of the keysets before 0.15).  For a map from
    amounts to valid public keys, iterated in any order,
    [derive_keyset_id_deprecated] returns the first 12 characters of the
    base64 text of the SHA-256 digest of the hex text of the compressed
    encodings, concatenated by ascending amount; the identifier has 12
    characters, and a second map that holds the same points at the same
    amounts, iterated in any order, gets the same one. *)
Theorem keyset_id_deprecated_stability (keys_ : gmap Z PublicKey)
    (iteration : list (Z * PublicKey)) :
  iteration ≡ₚ map_to_list keys_ ->
  (forall amount pk, keys_ !! amount = Some pk -> valid_point pk) ->
  (exists (sorted_keys : list (Z * PublicKey)) (encodings : list (list byte)) (id : string),
     sorted_keys ≡ₚ map_to_list keys_ /\
     Sorted (fun x y => x.1 < y.1) sorted_keys /\
     Forall2 (fun entry encoding => PublicKey_.serialize entry.2 true = Ok encoding)
       sorted_keys encodings /\
     derive_keyset_id_deprecated iteration = Ok id /\
     id = substring 0 12 (bytes_to_base64 (SHA256 (list_byte_of_string
            (secp_utils.bytes_to_hex (concat encodings))))) /\
     String.length id = 12%nat) /\
  (forall (keys' : gmap Z PublicKey) (iteration' : list (Z * PublicKey)),
     iteration' ≡ₚ map_to_list keys' ->
     point_of <$> keys' = point_of <$> keys_ ->
     derive_keyset_id_deprecated iteration' = derive_keyset_id_deprecated iteration).
Proof.
  intros Hiter Hvalid.
  assert (Hnd : NoDup (iteration.*1)).
  { rewrite Hiter. apply NoDup_fst_map_to_list. }
  split.
  - assert (Hall : Forall (fun entry => valid_point entry.2) (sort_entries iteration)).
    { apply Forall_forall. intros [amount pk] Hin. cbn.
      apply (Hvalid amount). apply elem_of_map_to_list.
      rewrite <- Hiter, <- (sort_entries_perm iteration). exact Hin. }
    destruct (concat_serialized_valid _ Hall) as (encodings & Henc & Hconcat).
    exists (sort_entries iteration), encodings. eexists.
    split; [rewrite sort_entries_perm; exact Hiter|].
    split.
    { apply sorted_strictly; [|apply sort_entries_sorted].
      rewrite (sort_entries_perm iteration). exact Hnd. }
    split; [exact Henc|].
    split; [|split; [reflexivity|]].
    + unfold derive_keyset_id_deprecated.
      rewrite concat_hex_serialized, Hconcat, !result_bind_ok. reflexivity.
    + apply substring_length_le. rewrite bytes_to_base64_length, SHA256_length. cbn. lia.
  - intros keys' iteration' Hiter' Hpoints.
    apply derive_keyset_id_deprecated_points; [exact Hnd|].
    assert (Hlist : forall (m : gmap Z PublicKey) l, l ≡ₚ map_to_list m ->
              entry_point <$> l ≡ₚ map_to_list (point_of <$> m)).
    { intros m l Hl. rewrite map_to_list_fmap, Hl. reflexivity. }
    rewrite (Hlist _ _ Hiter), (Hlist _ _ Hiter'), Hpoints. reflexivity.
Qed.

(** X29 (identifier by version).  For a version text that parses:
    below [0.15.0] [derive_keyset_id_version_aware] is the legacy
    identifier, and from [0.15.0] on the current one; an identifier it
    returns has 12 characters in the first case and, in the second, 16
    characters that begin with ["00"]. *)
Theorem keyset_id_by_version (entries : list (Z * PublicKey)) (version : string)
    (version_tuple : VersionTuple) :
  parse_version version = Ok version_tuple ->
  derive_keyset_id_version_aware entries version =
    (if VersionTuple_ltb version_tuple (mkVersionTuple 0 15 0)
     then derive_keyset_id_deprecated entries else derive_keyset_id entries) /\
  (forall id, derive_keyset_id_version_aware entries version = Ok id ->
     if VersionTuple_ltb version_tuple (mkVersionTuple 0 15 0)
     then String.length id = 12%nat
     else String.length id = 16%nat /\ substring 0 2 id = "00").
Proof.
  intros Hversion. unfold derive_keyset_id_version_aware.
  rewrite Hversion, result_bind_ok. split; [reflexivity|]. intros id.
  destruct (VersionTuple_ltb version_tuple (mkVersionTuple 0 15 0)).
  - unfold derive_keyset_id_deprecated. intros H.
    apply result_bind_Ok in H as (text & _ & [= <-]).
    apply substring_length_le. unfold sha256_string.
    rewrite bytes_to_base64_length, SHA256_length. cbn. lia.
  - unfold derive_keyset_id. intros H.
    apply result_bind_Ok in H as (data & _ & [= <-]).
    change ("00" ++ ?s) with (String "0" (String "0" s)).
    cbn [String.length substring]. rewrite substring_0_0.
    split; [|reflexivity]. f_equal. f_equal.
    apply substring_length_le. unfold bytes_to_hex, sha256.
    rewrite bytes_to_hex_length, SHA256_length. lia.
Qed.

End KeysetIdVersions.

(** ** Standard amounts *)

(** The loop [for (cpp_int amount = 1; amount <= max_amount; amount *= 2)]
    of [generate_standard_amounts], run for at most [fuel] iterations. *)
Fixpoint standard_amounts_loop (fuel : nat) (amount max_amount : Z) : list Z :=
  match fuel with
  | O => []
  | S fuel' =>
      if amount <=? max_amount
      then amount :: standard_amounts_loop fuel' (amount * 2) max_amount
      else []
  end.

(** [generate_standard_amounts]; the loop stops by its condition within
    [log2 max_amount + 1] iterations (see [standard_amounts_fuel]). *)
Definition generate_standard_amounts (max_amount : Z) : list Z :=
  standard_amounts_loop (S (Z.to_nat (Z.log2 max_amount))) 1 max_amount.

Lemma standard_amounts_loop_spec max_amount fuel : forall k,
  0 <= k -> 2 ^ k <= max_amount -> (Z.to_nat (Z.log2 max_amount - k) < fuel)%nat ->
  standard_amounts_loop fuel (2 ^ k) max_amount =
    map (fun i => 2 ^ Z.of_nat i) (seq (Z.to_nat k) (S (Z.to_nat (Z.log2 max_amount - k)))).
Proof.
  induction fuel as [|fuel IH]; intros k Hk Hle Hfuel; [lia|].
  assert (Hmax : 0 < max_amount) by (pose proof (Z.pow_pos_nonneg 2 k); lia).
  pose proof (Z.log2_spec max_amount Hmax) as [Hlow Hhigh].
  assert (Hklog : k <= Z.log2 max_amount) by (apply Z.log2_le_pow2; lia).
  cbn [standard_amounts_loop]. replace (2 ^ k <=? max_amount) with true by lia.
  cbn [seq map]. rewrite Z2Nat.id by lia. f_equal.
  replace (2 ^ k * 2) with (2 ^ (k + 1)) by (rewrite Z.pow_add_r by lia; lia).
  destruct (Z.eq_dec k (Z.log2 max_amount)) as [-> | Hne].
  - rewrite Z.sub_diag. cbn [Z.to_nat seq map].
    destruct fuel as [|fuel']; [reflexivity|]. cbn [standard_amounts_loop].
    replace (Z.succ (Z.log2 max_amount)) with (Z.log2 max_amount + 1) in Hhigh by lia.
    replace (2 ^ (Z.log2 max_amount + 1) <=? max_amount) with false by lia. reflexivity.
  - rewrite IH.
    + replace (Z.to_nat (k + 1)) with (S (Z.to_nat k)) by lia.
      replace (S (Z.to_nat (Z.log2 max_amount - (k + 1))))
        with (Z.to_nat (Z.log2 max_amount - k)) by lia.
      reflexivity.
    + lia.
    + apply Z.log2_le_pow2; lia.
    + lia.
Qed.

(** X30 (standard amounts).  [generate_standard_amounts] returns no
    amount for a maximum below one and otherwise the powers of two
    [1, 2, ..., 2^k] with [2^k <= max_amount < 2^(k+1)], in ascending
    order; more iterations of the loop would add nothing. *)
Theorem generate_standard_amounts_powers (max_amount : Z) :
  (max_amount < 1 -> generate_standard_amounts max_amount = []) /\
  (1 <= max_amount ->
   let k := Z.log2 max_amount in
   generate_standard_amounts max_amount =
     map (fun i => 2 ^ Z.of_nat i) (seq 0 (S (Z.to_nat k))) /\
   2 ^ k <= max_amount < 2 ^ (k + 1) /\
   forall extra, standard_amounts_loop (S (Z.to_nat k) + extra) 1 max_amount =
                 generate_standard_amounts max_amount).
Proof.
  unfold generate_standard_amounts. split.
  - intros Hmax. cbn [standard_amounts_loop].
    replace (1 <=? max_amount) with false by lia. reflexivity.
  - intros Hmax. cbv zeta.
    pose proof (Z.log2_spec max_amount ltac:(lia)) as [Hlow Hhigh].
    pose proof (Z.log2_nonneg max_amount) as Hnn.
    assert (Hloop : forall fuel, (Z.to_nat (Z.log2 max_amount) < fuel)%nat ->
              standard_amounts_loop fuel 1 max_amount =
                map (fun i => 2 ^ Z.of_nat i) (seq 0 (S (Z.to_nat (Z.log2 max_amount))))).
    { intros fuel Hfuel.
      pose proof (standard_amounts_loop_spec max_amount fuel 0 ltac:(lia)) as H.
      rewrite Z.sub_0_r in H. apply H; [cbn; lia | exact Hfuel]. }
    split; [apply Hloop; lia|].
    split; [replace (Z.log2 max_amount + 1) with (Z.succ (Z.log2 max_amount)) by lia; lia|].
    intros extra. rewrite !Hloop by lia. reflexivity.
Qed.

Import secp256k1_const secp_utils.

(** ** A model of the libraries

    OpenSSL is modelled by the digests of [sha2].  The group of the curve
    is cyclic of the prime order [CURVE_ORDER]; the model represents a
    point by its discrete logarithm to the base [G], a residue modulo
    [CURVE_ORDER], the point at infinity by zero.  The two points [k] and
    [n - k] share the x-coordinate [min k (n - k)]; the one with the
    larger logarithm has the odd y-coordinate. *)

#[global] Instance sha2_openssl : OpenSSL.
Proof.
  refine {| SHA256 := sha2.SHA256; HMAC_SHA512 := sha2.HMAC_SHA512 |}.
  - intros data. apply (sha2.digest_length sha2.sha256_variant).
  - intros key data. apply (sha2.digest_length sha2.sha512_variant).
Defined.

Module model.

Definition residue : Type := dsig (fun k : Z => 0 <= k < CURVE_ORDER).

Lemma residue_range (k : Z) : 0 <= k mod CURVE_ORDER < CURVE_ORDER.
Proof. apply Z.mod_pos_bound. reflexivity. Qed.

Definition residue_of (k : Z) : residue := dexist (k mod CURVE_ORDER) (residue_range k).

Definition log (P : residue) : Z := `P.

Lemma log_range (P : residue) : 0 <= log P < CURVE_ORDER.
Proof. destruct P as [k Hk]. cbn. apply (bool_decide_unpack _ Hk). Qed.

Lemma log_residue_of k : log (residue_of k) = k mod CURVE_ORDER.
Proof. reflexivity. Qed.

Lemma residue_of_log P : residue_of (log P) = P.
Proof. apply dsig_eq. cbn. apply Z.mod_small, log_range. Qed.

Lemma residue_eq (P Q : residue) : log P = log Q -> P = Q.
Proof. apply dsig_eq. Qed.

Definition infinity : residue := residue_of 0.
Definition generator : residue := residue_of 1.
Definition padd (P Q : residue) : residue := residue_of (log P + log Q).
Definition pneg (P : residue) : residue := residue_of (- log P).

Lemma finite_log P : P <> infinity <-> 0 < log P < CURVE_ORDER.
Proof.
  pose proof (log_range P). split.
  - intros HP. assert (log P <> 0); [|lia].
    intros H0. apply HP, residue_eq. rewrite H0. reflexivity.
  - intros Hlog ->. assert (H0 : log infinity = 0) by reflexivity. lia.
Qed.

Lemma model_padd_assoc P Q R : padd P (padd Q R) = padd (padd P Q) R.
Proof.
  apply residue_eq. unfold padd. rewrite !log_residue_of.
  rewrite Z.add_mod_idemp_r, Z.add_mod_idemp_l by (unfold CURVE_ORDER; lia).
  f_equal. lia.
Qed.

Lemma iter_padd k P : Pos.iter_op padd k P = residue_of (Z.pos k * log P).
Proof.
  induction k as [|k IH] using Pos.peano_ind.
  - cbn [Pos.iter_op]. rewrite Z.mul_1_l. symmetry. apply residue_of_log.
  - rewrite Pos.iter_op_succ by (intros; apply model_padd_assoc).
    rewrite IH. apply residue_eq. unfold padd. rewrite !log_residue_of.
    rewrite Z.add_mod_idemp_r by (unfold CURVE_ORDER; lia). f_equal. lia.
Qed.

(** *** The SEC1 encodings *)

Definition half_order : Z := (CURVE_ORDER - 1) / 2.

Definition xcoord (P : residue) : list byte :=
  be_bytes 32 (Z.min (log P) (CURVE_ORDER - log P)).
Definition ycoord (P : residue) : list byte := be_bytes 32 (log P).
Definition y_is_odd (P : residue) : bool := CURVE_ORDER - log P <? log P.

Definition parse_x (x : list byte) : option Z :=
  let v := be_int x in
  if (1 <=? v) && (v <=? half_order) then Some v else None.

Definition pubkey_parse (data : list byte) : option residue :=
  match data with
  | [] => None
  | prefix :: rest =>
      if bool_decide (prefix = x02) && Nat.eqb (List.length rest) 32 then
        v ← parse_x rest; Some (residue_of v)
      else if bool_decide (prefix = x03) && Nat.eqb (List.length rest) 32 then
        v ← parse_x rest; Some (residue_of (CURVE_ORDER - v))
      else if bool_decide (prefix = x04) && Nat.eqb (List.length rest) 64 then
        let x := be_int (take 32 rest) in
        let y := be_int (drop 32 rest) in
        if (1 <=? y) && (y <? CURVE_ORDER) && (x =? Z.min y (CURVE_ORDER - y))
        then Some (residue_of y) else None
      else None
  end.

Definition pubkey_data (P : residue) : list byte := be_bytes 64 (log P).

Lemma min_range P :
  P <> infinity ->
  1 <= Z.min (log P) (CURVE_ORDER - log P) <= half_order.
Proof.
  intros HP. apply finite_log in HP.
  assert (Hhalf : 2 * half_order + 1 = CURVE_ORDER) by reflexivity. lia.
Qed.

Lemma parse_x_xcoord P :
  P <> infinity -> parse_x (xcoord P) = Some (Z.min (log P) (CURVE_ORDER - log P)).
Proof.
  intros HP. pose proof (min_range P HP) as Hm. apply finite_log in HP.
  unfold parse_x, xcoord. rewrite be_int_be_bytes_scalar by lia.
  replace (1 <=? _) with true by lia. replace (_ <=? half_order) with true by lia.
  reflexivity.
Qed.

Lemma model_pubkey_parse_compressed P :
  P <> infinity ->
  pubkey_parse ((if y_is_odd P then x03 else x02) :: xcoord P) = Some P.
Proof.
  intros HP. pose proof (parse_x_xcoord P HP) as Hx. apply finite_log in HP.
  assert (Hlen : List.length (xcoord P) = 32%nat) by apply be_bytes_length.
  unfold pubkey_parse, y_is_odd. rewrite Hlen.
  destruct (Z.ltb_spec (CURVE_ORDER - log P) (log P)) as [Hodd | Heven].
  - rewrite bool_decide_eq_false_2 by discriminate.
    rewrite bool_decide_eq_true_2 by reflexivity. cbn [andb Nat.eqb].
    rewrite Hx. cbn. f_equal. apply residue_eq. rewrite log_residue_of.
    rewrite Z.min_r by lia. rewrite Z.mod_small by lia. lia.
  - rewrite bool_decide_eq_true_2 by reflexivity. cbn [andb Nat.eqb].
    rewrite Hx. cbn. f_equal. apply residue_eq. rewrite log_residue_of.
    rewrite Z.min_l by lia. apply Z.mod_small. lia.
Qed.

Lemma model_pubkey_parse_uncompressed P :
  P <> infinity -> pubkey_parse (x04 :: xcoord P ++ ycoord P) = Some P.
Proof.
  intros HP. pose proof (min_range P HP) as Hm. apply finite_log in HP.
  unfold pubkey_parse.
  rewrite !bool_decide_eq_false_2 by discriminate.
  rewrite bool_decide_eq_true_2 by reflexivity. cbn [andb].
  rewrite length_app. unfold xcoord at 1, ycoord at 1. rewrite !be_bytes_length.
  cbn [Nat.add Nat.eqb].
  rewrite take_app_length' by (symmetry; apply be_bytes_length).
  rewrite drop_app_length' by (symmetry; apply be_bytes_length).
  unfold xcoord, ycoord. rewrite !be_int_be_bytes_scalar by lia.
  replace (1 <=? log P) with true by lia.
  replace (log P <? CURVE_ORDER) with true by lia.
  rewrite Z.eqb_refl. cbn [andb]. f_equal. apply residue_of_log.
Qed.

Lemma model_pubkey_parse_finite data P : pubkey_parse data = Some P -> P <> infinity.
Proof.
  assert (Hhalf : 2 * half_order + 1 = CURVE_ORDER) by reflexivity.
  assert (Hx : forall x v, parse_x x = Some v -> 1 <= v <= half_order).
  { intros x v. unfold parse_x.
    destruct (Z.leb_spec 1 (be_int x)), (Z.leb_spec (be_int x) half_order);
      cbn; intros [= <-]; lia. }
  assert (Hfin : forall v, 0 < v < CURVE_ORDER -> residue_of v <> infinity).
  { intros v Hv. apply finite_log. rewrite log_residue_of, Z.mod_small; lia. }
  unfold pubkey_parse. destruct data as [|prefix rest]; [discriminate|].
  destruct (_ && _).
  - destruct (parse_x rest) as [v|] eqn:E; [|discriminate]. cbn. intros [= <-].
    apply Hx in E. apply Hfin. lia.
  - destruct (_ && _).
    + destruct (parse_x rest) as [v|] eqn:E; [|discriminate]. cbn. intros [= <-].
      apply Hx in E. apply Hfin. lia.
    + destruct (_ && _); [|discriminate].
      destruct (Z.leb_spec 1 (be_int (drop 32 rest))),
        (Z.ltb_spec (be_int (drop 32 rest)) CURVE_ORDER); cbn; try discriminate.
      destruct (_ =? _); [|discriminate]. intros [= <-]. apply Hfin. lia.
Qed.

Lemma model_pubkey_parse_canonical prefix x P :
  pubkey_parse (prefix :: x) = Some P -> List.length x = 32%nat ->
  prefix = x02 \/ prefix = x03 ->
  prefix = (if y_is_odd P then x03 else x02) /\ x = xcoord P.
Proof.
  assert (Hhalf : 2 * half_order + 1 = CURVE_ORDER) by reflexivity.
  intros Hparse Hlen Hprefix. unfold pubkey_parse in Hparse. rewrite Hlen in Hparse.
  cbn [Nat.eqb] in Hparse. rewrite !andb_true_r in Hparse.
  assert (Hx : forall v, parse_x x = Some v -> 1 <= v <= half_order /\ x = be_bytes 32 v).
  { intros v. unfold parse_x.
    destruct (Z.leb_spec 1 (be_int x)), (Z.leb_spec (be_int x) half_order);
      cbn [andb]; try discriminate; intros [= <-]; (split; [lia|]).
    rewrite <- Hlen. symmetry. apply be_bytes_be_int. }
  destruct Hprefix as [-> | ->].
  - rewrite bool_decide_eq_true_2 in Hparse by reflexivity.
    destruct (parse_x x) as [v|] eqn:E; [|discriminate]. cbn in Hparse.
    injection Hparse as <-. destruct (Hx v eq_refl) as [Hv ->].
    unfold y_is_odd, xcoord. rewrite log_residue_of, Z.mod_small by lia.
    replace (CURVE_ORDER - v <? v) with false by lia.
    rewrite Z.min_l by lia. split; reflexivity.
  - rewrite bool_decide_eq_false_2 in Hparse by discriminate.
    rewrite bool_decide_eq_true_2 in Hparse by reflexivity.
    destruct (parse_x x) as [v|] eqn:E; [|discriminate]. cbn in Hparse.
    injection Hparse as <-. destruct (Hx v eq_refl) as [Hv ->].
    unfold y_is_odd, xcoord. rewrite log_residue_of, Z.mod_small by lia.
    replace (CURVE_ORDER - (CURVE_ORDER - v) <? CURVE_ORDER - v) with true by lia.
    rewrite Z.min_r by lia. split; [reflexivity | f_equal; lia].
Qed.

Lemma log_pneg P : P <> infinity -> log (pneg P) = CURVE_ORDER - log P.
Proof.
  intros HP. apply finite_log in HP. unfold pneg. rewrite log_residue_of.
  symmetry. apply Z.mod_unique with (q := -1); lia.
Qed.

Lemma model_xcoord_pneg P : xcoord (pneg P) = xcoord P.
Proof.
  destruct (decide (P = infinity)) as [-> | HP]; [reflexivity|].
  unfold xcoord. rewrite log_pneg by exact HP. f_equal. lia.
Qed.

Lemma model_y_is_odd_pneg P : P <> infinity -> y_is_odd (pneg P) = negb (y_is_odd P).
Proof.
  intros HP. unfold y_is_odd. rewrite log_pneg by exact HP. apply finite_log in HP.
  assert (Hhalf : 2 * half_order + 1 = CURVE_ORDER) by reflexivity.
  destruct (Z.ltb_spec (CURVE_ORDER - log P) (log P)),
    (Z.ltb_spec (CURVE_ORDER - (CURVE_ORDER - log P)) (CURVE_ORDER - log P));
    cbn; lia || reflexivity.
Qed.

End model.

#[global] Instance model_curve : Secp256k1.
Proof.
  refine {| point := model.residue; infinity := model.infinity;
            generator := model.generator; padd := model.padd; pneg := model.pneg;
            xcoord := model.xcoord; ycoord := model.ycoord; y_is_odd := model.y_is_odd;
            pubkey_parse := model.pubkey_parse; pubkey_data := model.pubkey_data |}.
  - apply model.model_padd_assoc.
  - intros P Q. apply model.residue_eq. unfold model.padd. rewrite !model.log_residue_of. f_equal. lia.
  - intros P. apply model.residue_eq. unfold model.padd. rewrite model.log_residue_of.
    assert (H0 : model.log model.infinity = 0) by reflexivity.
    rewrite H0, Z.add_0_l. exact (Z.mod_small _ _ (model.log_range P)).
  - intros P. apply model.residue_eq. unfold model.padd, model.pneg. rewrite !model.log_residue_of.
    rewrite Z.add_mod_idemp_r by (unfold CURVE_ORDER; lia).
    rewrite Z.add_opp_diag_r. reflexivity.
  - intros H. apply (f_equal model.log) in H. discriminate H.
  - intros P. rewrite model.iter_padd. apply model.residue_eq. rewrite model.log_residue_of.
    rewrite Z2Pos.id by reflexivity.
    rewrite Z.mul_comm. apply Z.mod_mul. unfold CURVE_ORDER. lia.
  - intros k P Hk HP. rewrite model.iter_padd. apply model.finite_log in HP.
    intros H. apply (f_equal model.log) in H. rewrite model.log_residue_of in H.
    apply (scalar_product_nonzero (Z.pos k) (model.log P)); [|exact HP | exact H].
    pose proof (Z2Pos.id CURVE_ORDER eq_refl). lia.
  - intros P. apply be_bytes_length.
  - intros P. apply be_bytes_length.
  - apply model.model_xcoord_pneg.
  - apply model.model_y_is_odd_pneg.
  - apply model.model_pubkey_parse_finite.
  - apply model.model_pubkey_parse_compressed.
  - apply model.model_pubkey_parse_uncompressed.
  - apply model.model_pubkey_parse_canonical.
  - intros P Q H. apply model.residue_eq.
    pose proof (model.log_range P). pose proof (model.log_range Q).
    apply (f_equal be_int) in H. unfold model.pubkey_data in H.
    assert (Hwide : CURVE_ORDER < 256 ^ Z.of_nat 64) by reflexivity.
    rewrite !be_int_be_bytes_small in H by lia. exact H.
Defined.

Import secp256k1_const secp_utils b_dhke keys.

(** ** The protocol run in the model *)

(** A random source whose every draw succeeds with the scalar [k]. *)
Definition fixed_draw (k : Z) : random_source :=
  fun _ => {| RAND_bytes_return := 1; RAND_bytes_buffer := be_bytes 32 k; mt19937_bytes := [] |}.

(** The compressed key of the model point with logarithm [k] or [n - k]. *)
Definition even_key (k : Z) : PublicKey := mkPublicKey (x02 :: be_bytes 32 k) true.
Definition odd_key (k : Z) : PublicKey := mkPublicKey (x03 :: be_bytes 32 k) true.

(** [run m k] evaluates the closed computation [m] and hands its normal
    form, with the proof that [m] equals it, to [k]. *)
Ltac run m k :=
  let v := eval vm_compute in m in
  let H := fresh "Hrun" in
  assert (H : m = v) by (vm_compute; reflexivity);
  k v H.

(** [parse key k] reads the point that [key] holds and hands it, with the
    proof that [key] parses to it, to [k]. *)
Ltac parse key k :=
  let v := eval vm_compute in (option_map model.log (point_of key)) in
  lazymatch v with
  | Some ?l =>
      let H := fresh "Hpoint" in
      assert (H : point_of key = Some (model.residue_of l)) by reflexivity;
      k (model.residue_of l) H
  end.

Ltac small_scalar := unfold valid_scalar; cbn [private_key_]; split; reflexivity.

Lemma bdhke_round_trip_witness :
  exists (B_ C_ : PublicKey) (r e s : PrivateKey) (src1 src2 : random_source),
    step1_alice "test_message" None (fixed_draw 7) = Ok ((B_, r), src1) /\
    step2_bob B_ (mkPrivateKey 11) src1 = Ok ((C_, e, s), src2) /\
    exists Y A C a_times_Y,
      hash_to_curve "test_message" = Ok Y /\
      PublicKey_.pubkey (mkPrivateKey 11) = Ok A /\
      step3_alice C_ r A = Ok C /\
      PublicKey_.mult Y (mkPrivateKey 11) = Ok a_times_Y /\
      PublicKey_.eqb C a_times_Y = Ok true /\
      forall fuel, verify fuel (mkPrivateKey 11) C "test_message" = Some (Ok true).
Proof.
  assert (Ha : valid_scalar (mkPrivateKey 11)) by small_scalar.
  assert (Hr : forall r0 : PrivateKey, None = Some r0 -> valid_scalar r0) by discriminate.
  run (step1_alice "test_message" None (fixed_draw 7)) ltac:(fun v1 H1 =>
    lazymatch v1 with
    | Ok (?B_, ?r, ?src1) =>
        run (step2_bob B_ (mkPrivateKey 11) src1) ltac:(fun v2 H2 =>
          lazymatch v2 with
          | Ok (?C_, ?e, ?s, ?src2) =>
              exists B_, C_, r, e, s, src1, src2;
              exact (conj H1 (conj H2
                (bdhke_round_trip "test_message" (mkPrivateKey 11) None (fixed_draw 7)
                   src1 src2 B_ r C_ e s Ha Hr H1 H2)))
          end)
    end).
Defined.

Lemma verify_fallback_witness :
  exists Y C : PublicKey,
    hash_to_curve "test_message" = Ok Y /\
    PublicKey_.mult Y (mkPrivateKey 11) = Ok C /\
    ((exists fuel, verify fuel (mkPrivateKey 11) C "test_message" = Some (Ok true)) <->
       signature_check (mkPrivateKey 11) C Y = Ok true \/
       exists fuel Y',
         hash_to_curve_deprecated fuel (list_byte_of_string "test_message") = Some Y' /\
         signature_check (mkPrivateKey 11) C Y' = Ok true) /\
    (signature_check (mkPrivateKey 11) C Y = Ok true ->
       forall fuel, verify fuel (mkPrivateKey 11) C "test_message" = Some (Ok true)) /\
    (signature_check (mkPrivateKey 11) C Y <> Ok true ->
       forall fuel, verify fuel (mkPrivateKey 11) C "test_message" =
                      verify_deprecated fuel (mkPrivateKey 11) C "test_message").
Proof.
  assert (Ha : valid_scalar (mkPrivateKey 11)) by small_scalar.
  run (hash_to_curve "test_message") ltac:(fun v1 H1 =>
    lazymatch v1 with
    | Ok ?Y =>
        run (PublicKey_.mult Y (mkPrivateKey 11)) ltac:(fun v2 H2 =>
          lazymatch v2 with
          | Ok ?C =>
              parse C ltac:(fun P H3 =>
                exists Y, C;
                exact (conj H1 (conj H2
                  (verify_fallback (mkPrivateKey 11) C "test_message" Y Ha
                     (ex_intro _ P H3) H1))))
          end)
    end).
Defined.

Lemma dleq_completeness_witness :
  exists (e s : PrivateKey) (src' : random_source),
    step2_bob_dleq (even_key 5) (mkPrivateKey 11) [] (fixed_draw 7) = Ok ((e, s), src') /\
    exists (p : PrivateKey) (R1 R2 A C_ : PublicKey) (u1 u2 u3 u4 : list byte),
      valid_scalar p /\
      (@nil byte <> [] -> PrivateKey_.of_bytes [] = Ok p) /\
      PublicKey_.pubkey p = Ok R1 /\ PublicKey_.mult (even_key 5) p = Ok R2 /\
      PublicKey_.pubkey (mkPrivateKey 11) = Ok A /\
      PublicKey_.mult (even_key 5) (mkPrivateKey 11) = Ok C_ /\
      PublicKey_.serialize R1 false = Ok u1 /\ PublicKey_.serialize R2 false = Ok u2 /\
      PublicKey_.serialize A false = Ok u3 /\ PublicKey_.serialize C_ false = Ok u4 /\
      PrivateKey_.serialize e =
        SHA256 (list_byte_of_string
                  (bytes_to_hex u1 ++ bytes_to_hex u2 ++ bytes_to_hex u3 ++ bytes_to_hex u4)) /\
      private_key_ s =
        (private_key_ p + (11 * private_key_ e) mod CURVE_ORDER) mod CURVE_ORDER /\
      alice_verify_dleq (even_key 5) C_ e s A = Ok true.
Proof.
  assert (Ha : valid_scalar (mkPrivateKey 11)) by small_scalar.
  parse (even_key 5) ltac:(fun P H0 =>
    run (step2_bob_dleq (even_key 5) (mkPrivateKey 11) [] (fixed_draw 7)) ltac:(fun v1 H1 =>
      lazymatch v1 with
      | Ok (?e, ?s, ?src') =>
          exists e, s, src';
          exact (conj H1
            (dleq_completeness (even_key 5) (mkPrivateKey 11) [] (fixed_draw 7) src' e s
               (ex_intro _ P H0) Ha H1))
      end)).
Defined.

Lemma pubkey_homomorphism_witness :
  exists A B,
    PublicKey_.pubkey (mkPrivateKey 3) = Ok A /\ PublicKey_.pubkey (mkPrivateKey 5) = Ok B /\
    ((3 + 5) mod CURVE_ORDER <> 0 ->
       exists sum ab R,
         PublicKey_.add A B = Ok sum /\
         PrivateKey_.tweak_add (mkPrivateKey 3) (PrivateKey_.raw_value (mkPrivateKey 5)) = Ok ab /\
         private_key_ ab = (3 + 5) mod CURVE_ORDER /\
         PublicKey_.pubkey ab = Ok R /\
         PublicKey_.eqb sum R = Ok true) /\
    ((3 + 5) mod CURVE_ORDER = 0 ->
       PublicKey_.add A B = Throw (runtime_error "Failed to combine public keys") /\
       PrivateKey_.tweak_add (mkPrivateKey 3) (PrivateKey_.raw_value (mkPrivateKey 5)) =
         Throw (invalid_argument "Private key must be in range [1, curve_order)")).
Proof.
  apply (pubkey_homomorphism (mkPrivateKey 3) (mkPrivateKey 5)); small_scalar.
Defined.

(** The scalars [1] and [n - 1] are valid and their public keys are
    opposite points: adding the keys raises. *)
Lemma pubkey_sum_at_infinity :
  valid_scalar (mkPrivateKey 1) /\ valid_scalar (mkPrivateKey (CURVE_ORDER - 1)) /\
  PublicKey_.pubkey (mkPrivateKey 1) = Ok (even_key 1) /\
  PublicKey_.pubkey (mkPrivateKey (CURVE_ORDER - 1)) = Ok (odd_key 1) /\
  PublicKey_.add (even_key 1) (odd_key 1) =
    Throw (runtime_error "Failed to combine public keys").
Proof.
  split; [small_scalar|]. split; [small_scalar|].
  split; [vm_compute; reflexivity|]. split; vm_compute; reflexivity.
Qed.




Definition two_keys : gmap Z PublicKey := <[1 := even_key 3]> (<[2 := odd_key 5]> ∅).

Lemma keyset_id_stability_witness :
  let iteration := [(2, odd_key 5); (1, even_key 3)] in
  (exists (sorted_keys : list (Z * PublicKey)) (encodings : list (list byte)),
     sorted_keys ≡ₚ map_to_list two_keys /\
     Sorted (fun x y => x.1 < y.1) sorted_keys /\
     Forall2 (fun entry encoding => PublicKey_.serialize entry.2 true = Ok encoding)
       sorted_keys encodings /\
     derive_keyset_id iteration =
       Ok ("00" ++ substring 0 14 (bytes_to_hex (SHA256 (concat encodings))))) /\
  (forall (keys' : gmap Z PublicKey) (iteration' : list (Z * PublicKey)),
     iteration' ≡ₚ map_to_list keys' ->
     point_of <$> keys' = point_of <$> two_keys ->
     derive_keyset_id iteration' = derive_keyset_id iteration).
Proof.
  apply (keyset_id_stability two_keys [(2, odd_key 5); (1, even_key 3)]).
  - unfold two_keys. rewrite map_to_list_insert by reflexivity.
    rewrite insert_empty, map_to_list_singleton. apply perm_swap.
  - intros amount pk Hlookup. unfold two_keys in Hlookup.
    apply lookup_insert_Some in Hlookup as [[_ <-] | [_ Hlookup]].
    + parse (even_key 3) ltac:(fun P H => exact (ex_intro _ P H)).
    + apply lookup_insert_Some in Hlookup as [[_ <-] | [_ Hlookup]].
      * parse (odd_key 5) ltac:(fun P H => exact (ex_intro _ P H)).
      * rewrite lookup_empty in Hlookup. discriminate Hlookup.
Defined.



Import secp256k1_const secp_utils b_dhke keys.

(** ** The further properties at concrete inputs *)

Lemma PrivateKey_round_trip_witness :
  List.length (PrivateKey_.serialize (mkPrivateKey 5)) = 32%nat /\
  String.length (PrivateKey_.to_hex (mkPrivateKey 5)) = 64%nat /\
  PrivateKey_.of_bytes (PrivateKey_.serialize (mkPrivateKey 5)) = Ok (mkPrivateKey 5) /\
  PrivateKey_.of_hex (PrivateKey_.to_hex (mkPrivateKey 5)) = Ok (mkPrivateKey 5) /\
  (forall key_data, PrivateKey_.of_bytes key_data = Ok (mkPrivateKey 5) ->
                    PrivateKey_.serialize (mkPrivateKey 5) = key_data).
Proof. apply (PrivateKey_round_trip (mkPrivateKey 5)). small_scalar. Defined.

Lemma PrivateKey_tweak_add_outcome_witness :
  (0 <= 5 + 7 ->
   PrivateKey_.tweak_add (mkPrivateKey 5) 7 =
     if decide ((5 + 7) mod CURVE_ORDER = 0)
     then Throw (invalid_argument "Private key must be in range [1, curve_order)")
     else Ok (mkPrivateKey ((5 + 7) mod CURVE_ORDER))) /\
  (5 + 7 < 0 ->
   PrivateKey_.tweak_add (mkPrivateKey 5) 7 =
     Throw (invalid_argument "Private key must be in range [1, curve_order)")).
Proof. apply (PrivateKey_tweak_add_outcome (mkPrivateKey 5) 7). small_scalar. Defined.

Lemma PrivateKey_tweak_mul_valid_witness :
  exists c,
    PrivateKey_.tweak_mul (mkPrivateKey 3) (PrivateKey_.raw_value (mkPrivateKey 5)) = Ok c /\
    PrivateKey_.tweak_mul (mkPrivateKey 5) (PrivateKey_.raw_value (mkPrivateKey 3)) = Ok c /\
    valid_scalar c /\ private_key_ c = (3 * 5) mod CURVE_ORDER.
Proof. apply (PrivateKey_tweak_mul_valid (mkPrivateKey 3) (mkPrivateKey 5)); small_scalar. Defined.

Ltac model_point key := parse key ltac:(fun P H => exact (ex_intro _ P H)).

Lemma PublicKey_round_trip_witness :
  exists (data : list byte) (pk' : PublicKey),
    PublicKey_.serialize (even_key 5) false = Ok data /\
    List.length data = 65%nat /\
    PublicKey_.to_hex (even_key 5) false = Ok (bytes_to_hex data) /\
    PublicKey_.of_bytes data false = Ok pk' /\
    PublicKey_.of_hex (bytes_to_hex data) = Ok pk' /\
    point_data_ pk' = data /\ is_compressed_ pk' = false /\
    PublicKey_.eqb (even_key 5) pk' = Ok true.
Proof. apply (PublicKey_round_trip (even_key 5) false). model_point (even_key 5). Defined.

Lemma PublicKey_results_valid_witness :
  valid_point (even_key 3) /\ PublicKey_.is_valid (even_key 3) = true /\
  is_compressed_ (even_key 3) = true /\ List.length (point_data_ (even_key 3)) = 33%nat.
Proof.
  apply (proj2 (PublicKey_results_valid (even_key 3))).
  do 7 right. exists (mkPrivateKey 3). vm_compute. reflexivity.
Defined.

Lemma PublicKey_neg_sub_witness :
  (exists n a', PublicKey_.neg (even_key 5) = Ok n /\ PublicKey_.neg n = Ok a' /\
                PublicKey_.eqb a' (even_key 5) = Ok true /\
                PublicKey_.add (even_key 5) n =
                  Throw (runtime_error "Failed to combine public keys")) /\
  PublicKey_.sub (even_key 5) (even_key 5) =
    Throw (runtime_error "Failed to combine public keys") /\
  (forall b ab, PublicKey_.add (even_key 5) b = Ok ab ->
     exists a', PublicKey_.sub ab b = Ok a' /\ PublicKey_.eqb a' (even_key 5) = Ok true).
Proof. apply (PublicKey_neg_sub (even_key 5)). model_point (even_key 5). Defined.

Lemma PublicKey_mult_shared_secret_witness :
  exists (A B K : PublicKey) (ab : PrivateKey),
    PublicKey_.pubkey (mkPrivateKey 3) = Ok A /\ PublicKey_.pubkey (mkPrivateKey 5) = Ok B /\
    PublicKey_.mult A (mkPrivateKey 5) = Ok K /\ PublicKey_.mult B (mkPrivateKey 3) = Ok K /\
    PrivateKey_.tweak_mul (mkPrivateKey 3) (PrivateKey_.raw_value (mkPrivateKey 5)) = Ok ab /\
    PublicKey_.pubkey ab = Ok K.
Proof.
  apply (PublicKey_mult_shared_secret (mkPrivateKey 3) (mkPrivateKey 5)); small_scalar.
Defined.

Lemma PublicKey_mult_add_witness :
  exists ka kb kab,
    PublicKey_.mult (even_key 3) (mkPrivateKey 2) = Ok ka /\
    PublicKey_.mult (even_key 5) (mkPrivateKey 2) = Ok kb /\
    PublicKey_.mult (even_key 8) (mkPrivateKey 2) = Ok kab /\
    PublicKey_.add ka kb = Ok kab.
Proof.
  apply (PublicKey_mult_add (even_key 3) (even_key 5) (even_key 8) (mkPrivateKey 2));
    [vm_compute; reflexivity | small_scalar].
Defined.

Lemma PublicKey_tweak_mul_scalar_witness :
  (CURVE_ORDER mod CURVE_ORDER = 0 ->
   PublicKey_.tweak_mul (even_key 3) CURVE_ORDER =
     Throw (runtime_error "Failed to multiply public key by scalar")) /\
  (CURVE_ORDER mod CURVE_ORDER <> 0 ->
   exists pk', PublicKey_.tweak_mul (even_key 3) CURVE_ORDER = Ok pk' /\
               PublicKey_.tweak_mul (even_key 3) (CURVE_ORDER mod CURVE_ORDER) = Ok pk').
Proof.
  apply (PublicKey_tweak_mul_scalar (even_key 3) CURVE_ORDER);
    [model_point (even_key 3) | discriminate].
Defined.

Lemma PublicKey_tweak_add_scalar_witness :
  exists A,
    PublicKey_.pubkey (mkPrivateKey 3) = Ok A /\
    (forall c, PrivateKey_.tweak_add (mkPrivateKey 3) 4 = Ok c ->
               PublicKey_.tweak_add A 4 = PublicKey_.pubkey c) /\
    ((3 + 4) mod CURVE_ORDER = 0 ->
     PublicKey_.tweak_add A 4 = Throw (runtime_error "Failed to add scalar to public key")) /\
    (4 mod CURVE_ORDER = 0 ->
     exists A', PublicKey_.tweak_add A 4 = Ok A' /\ PublicKey_.eqb A' A = Ok true).
Proof.
  apply (PublicKey_tweak_add_scalar (mkPrivateKey 3) 4); [small_scalar | discriminate].
Defined.

Lemma PublicKey_ltb_strict_order_witness :
  (exists data1 data2,
     PublicKey_.to_data (even_key 1) = Ok data1 /\ PublicKey_.to_data (even_key 2) = Ok data2 /\
     PublicKey_.ltb (even_key 1) (even_key 2) = Ok (bytes_ltb data1 data2)) /\
  (point_of (even_key 1) = point_of (even_key 2) ->
   PublicKey_.ltb (even_key 1) (even_key 2) = Ok false) /\
  PublicKey_.ltb (even_key 1) (even_key 1) = Ok false /\
  (PublicKey_.ltb (even_key 1) (even_key 2) = Ok true ->
   PublicKey_.ltb (even_key 2) (even_key 1) = Ok false) /\
  (PublicKey_.ltb (even_key 1) (even_key 2) = Ok true ->
   PublicKey_.ltb (even_key 2) (even_key 3) = Ok true ->
   PublicKey_.ltb (even_key 1) (even_key 3) = Ok true) /\
  (PublicKey_.ltb (even_key 1) (even_key 2) = Ok false ->
   PublicKey_.ltb (even_key 2) (even_key 1) = Ok false ->
   PublicKey_.eqb (even_key 1) (even_key 2) = Ok true).
Proof.
  apply (PublicKey_ltb_strict_order (even_key 1) (even_key 2) (even_key 3));
    [model_point (even_key 1) | model_point (even_key 2) | model_point (even_key 3)].
Defined.

Lemma hash_to_curve_output_witness :
  exists Y,
    hash_to_curve "test_message" = Ok Y /\
    valid_point Y /\ is_compressed_ Y = true /\
    head (point_data_ Y) = Some x02 /\
    PublicKey_.serialize Y true = Ok (point_data_ Y) /\
    exists hex, PublicKey_.to_hex Y true = Ok hex /\ String.length hex = 66%nat /\
                PublicKey_.of_hex hex = Ok Y.
Proof.
  run (hash_to_curve "test_message") ltac:(fun v H =>
    lazymatch v with
    | Ok ?Y => exists Y; exact (conj H (hash_to_curve_output "test_message" Y H))
    end).
Defined.

Lemma step2_bob_proof_verifies_witness :
  exists (C_ : PublicKey) (e s : PrivateKey) (src' : random_source),
    step2_bob (even_key 5) (mkPrivateKey 11) (fixed_draw 7) = Ok ((C_, e, s), src') /\
    PublicKey_.mult (even_key 5) (mkPrivateKey 11) = Ok C_ /\
    exists A, PublicKey_.pubkey (mkPrivateKey 11) = Ok A /\
              alice_verify_dleq (even_key 5) C_ e s A = Ok true.
Proof.
  assert (Ha : valid_scalar (mkPrivateKey 11)) by small_scalar.
  parse (even_key 5) ltac:(fun P HP =>
    run (step2_bob (even_key 5) (mkPrivateKey 11) (fixed_draw 7)) ltac:(fun v H =>
      lazymatch v with
      | Ok (?C_, ?e, ?s, ?src') =>
          exists C_, e, s, src';
          exact (conj H (step2_bob_proof_verifies (even_key 5) (mkPrivateKey 11)
                           (fixed_draw 7) src' C_ e s (ex_intro _ P HP) Ha H))
      end)).
Defined.

Lemma carol_accepts_honest_mint_witness :
  exists (B_ C_ A C : PublicKey) (r e s : PrivateKey) (src1 src2 : random_source),
    step1_alice "test_message" None (fixed_draw 7) = Ok ((B_, r), src1) /\
    step2_bob B_ (mkPrivateKey 11) src1 = Ok ((C_, e, s), src2) /\
    PublicKey_.pubkey (mkPrivateKey 11) = Ok A /\
    step3_alice C_ r A = Ok C /\
    forall fuel, carol_verify_dleq fuel "test_message" r C e s A = Some (Ok true).
Proof.
  assert (Ha : valid_scalar (mkPrivateKey 11)) by small_scalar.
  assert (Hr : forall r0 : PrivateKey, None = Some r0 -> valid_scalar r0) by discriminate.
  run (step1_alice "test_message" None (fixed_draw 7)) ltac:(fun v1 H1 =>
    lazymatch v1 with
    | Ok (?B_, ?r, ?src1) =>
        run (step2_bob B_ (mkPrivateKey 11) src1) ltac:(fun v2 H2 =>
          lazymatch v2 with
          | Ok (?C_, ?e, ?s, ?src2) =>
              run (PublicKey_.pubkey (mkPrivateKey 11)) ltac:(fun v3 H3 =>
                lazymatch v3 with
                | Ok ?A =>
                    run (step3_alice C_ r A) ltac:(fun v4 H4 =>
                      lazymatch v4 with
                      | Ok ?C =>
                          exists B_, C_, A, C, r, e, s, src1, src2;
                          exact (conj H1 (conj H2 (conj H3 (conj H4
                            (carol_accepts_honest_mint "test_message" (mkPrivateKey 11) None
                               (fixed_draw 7) src1 src2 B_ r C_ e s A C Ha Hr H1 H2 H3 H4)))))
                      end)
                end)
          end)
    end).
Defined.

Lemma legacy_tokens_verify_witness :
  exists (run_ : rand (PublicKey * PrivateKey)) (B_ C_ A C Y : PublicKey) (e s : PrivateKey)
         (src1 src2 : random_source),
    step1_alice_deprecated 16 "test_message" (Some (mkPrivateKey 5)) = Some run_ /\
    run_ (fixed_draw 7) = Ok ((B_, mkPrivateKey 5), src1) /\
    step2_bob B_ (mkPrivateKey 11) src1 = Ok ((C_, e, s), src2) /\
    PublicKey_.pubkey (mkPrivateKey 11) = Ok A /\
    step3_alice C_ (mkPrivateKey 5) A = Ok C /\
    hash_to_curve "test_message" = Ok Y /\
    verify_deprecated 16 (mkPrivateKey 11) C "test_message" = Some (Ok true) /\
    verify 16 (mkPrivateKey 11) C "test_message" = Some (Ok true).
Proof.
  assert (Ha : valid_scalar (mkPrivateKey 11)) by small_scalar.
  assert (Hr : forall r0 : PrivateKey, Some (mkPrivateKey 5) = Some r0 -> valid_scalar r0)
    by (intros r0 [= <-]; small_scalar).
  run (step1_alice_deprecated 16 "test_message" (Some (mkPrivateKey 5))) ltac:(fun v0 H0 =>
    lazymatch v0 with
    | Some ?run_ =>
        run (run_ (fixed_draw 7)) ltac:(fun v1 H1 =>
          lazymatch v1 with
          | Ok (?B_, _, ?src1) =>
              run (step2_bob B_ (mkPrivateKey 11) src1) ltac:(fun v2 H2 =>
                lazymatch v2 with
                | Ok (?C_, ?e, ?s, ?src2) =>
                    run (PublicKey_.pubkey (mkPrivateKey 11)) ltac:(fun v3 H3 =>
                      lazymatch v3 with
                      | Ok ?A =>
                          run (step3_alice C_ (mkPrivateKey 5) A) ltac:(fun v4 H4 =>
                            lazymatch v4 with
                            | Ok ?C =>
                                run (hash_to_curve "test_message") ltac:(fun v5 H5 =>
                                  lazymatch v5 with
                                  | Ok ?Y =>
                                      exists run_, B_, C_, A, C, Y, e, s, src1, src2;
                                      exact (conj H0 (conj H1 (conj H2 (conj H3 (conj H4 (conj H5
                                        (legacy_tokens_verify 16 "test_message" (mkPrivateKey 11)
                                           (Some (mkPrivateKey 5)) run_ (fixed_draw 7) src1 src2
                                           B_ (mkPrivateKey 5) C_ e s A C Y
                                           Ha Hr H0 H1 H2 H3 H4 H5)))))))
                                  end)
                            end)
                      end)
                end)
          end)
    end).
Defined.

Lemma parse_version_round_trip_witness :
  let text := cxx.to_string 0 ++ "." ++ cxx.to_string 15 ++ "." ++ cxx.to_string 2 in
  let version := mkVersionTuple (Z.of_nat 0) (Z.of_nat 15) (Z.of_nat 2) in
  keys.parse_version text = Ok version /\
  keys.parse_version ("v" ++ text) = Ok version /\
  keys.parse_version (cxx.to_string 0 ++ "." ++ cxx.to_string 15) =
    Ok (mkVersionTuple (Z.of_nat 0) (Z.of_nat 15) 0) /\
  keys.parse_version (cxx.to_string 0) = Ok (mkVersionTuple (Z.of_nat 0) 0 0) /\
  keys.parse_version "" = Ok (mkVersionTuple 0 0 0).
Proof. apply (parse_version_round_trip 0 15 2); vm_compute; discriminate. Defined.

Lemma keyset_id_deprecated_stability_witness :
  let iteration := [(2, odd_key 5); (1, even_key 3)] in
  (exists (sorted_keys : list (Z * PublicKey)) (encodings : list (list byte)) (id : string),
     sorted_keys ≡ₚ map_to_list two_keys /\
     Sorted (fun x y => x.1 < y.1) sorted_keys /\
     Forall2 (fun entry encoding => PublicKey_.serialize entry.2 true = Ok encoding)
       sorted_keys encodings /\
     derive_keyset_id_deprecated iteration = Ok id /\
     id = substring 0 12 (bytes_to_base64 (SHA256 (list_byte_of_string
            (secp_utils.bytes_to_hex (concat encodings))))) /\
     String.length id = 12%nat) /\
  (forall (keys' : gmap Z PublicKey) (iteration' : list (Z * PublicKey)),
     iteration' ≡ₚ map_to_list keys' ->
     point_of <$> keys' = point_of <$> two_keys ->
     derive_keyset_id_deprecated iteration' = derive_keyset_id_deprecated iteration).
Proof.
  apply (keyset_id_deprecated_stability two_keys [(2, odd_key 5); (1, even_key 3)]).
  - unfold two_keys. rewrite map_to_list_insert by reflexivity.
    rewrite insert_empty, map_to_list_singleton. apply perm_swap.
  - intros amount pk Hlookup. unfold two_keys in Hlookup.
    apply lookup_insert_Some in Hlookup as [[_ <-] | [_ Hlookup]].
    + model_point (even_key 3).
    + apply lookup_insert_Some in Hlookup as [[_ <-] | [_ Hlookup]].
      * model_point (odd_key 5).
      * rewrite lookup_empty in Hlookup. discriminate Hlookup.
Defined.

Lemma keyset_id_by_version_witness :
  let entries := [(2, odd_key 5); (1, even_key 3)] in
  derive_keyset_id_version_aware entries "0.14.2" =
    (if VersionTuple_ltb (mkVersionTuple 0 14 2) (mkVersionTuple 0 15 0)
     then derive_keyset_id_deprecated entries else derive_keyset_id entries) /\
  (forall id, derive_keyset_id_version_aware entries "0.14.2" = Ok id ->
     if VersionTuple_ltb (mkVersionTuple 0 14 2) (mkVersionTuple 0 15 0)
     then String.length id = 12%nat
     else String.length id = 16%nat /\ substring 0 2 id = "00").
Proof.
  apply (keyset_id_by_version [(2, odd_key 5); (1, even_key 3)] "0.14.2" (mkVersionTuple 0 14 2)).
  vm_compute. reflexivity.
Defined.

Import secp256k1_const secp_utils b_dhke keys.

Lemma PublicKey_add_comm_assoc_witness :
  exists ab bc,
    PublicKey_.add (even_key 3) (even_key 5) = Ok ab /\
    PublicKey_.add (even_key 5) (even_key 8) = Ok bc /\
    PublicKey_.add (even_key 3) (even_key 5) = PublicKey_.add (even_key 5) (even_key 3) /\
    PublicKey_.add ab (even_key 8) = PublicKey_.add (even_key 3) bc.
Proof.
  run (PublicKey_.add (even_key 3) (even_key 5)) ltac:(fun v1 H1 =>
    lazymatch v1 with
    | Ok ?ab =>
        run (PublicKey_.add (even_key 5) (even_key 8)) ltac:(fun v2 H2 =>
          lazymatch v2 with
          | Ok ?bc =>
              exists ab, bc;
              exact (conj H1 (conj H2 (conj
                (proj1 (PublicKey_add_comm_assoc (even_key 3) (even_key 5) (even_key 8)))
                (proj2 (PublicKey_add_comm_assoc (even_key 3) (even_key 5) (even_key 8))
                   ab bc H1 H2))))
          end)
    end).
Defined.

Lemma PublicKey_combine_properties_witness :
  PublicKey_.combine [even_key 3; even_key 5] = PublicKey_.add (even_key 3) (even_key 5) /\
  PublicKey_.combine [even_key 5; even_key 3] = PublicKey_.combine [even_key 3; even_key 5] /\
  exists a', PublicKey_.combine [even_key 3] = Ok a' /\
             PublicKey_.eqb a' (even_key 3) = Ok true.
Proof.
  assert (H3 : valid_point (even_key 3)) by model_point (even_key 3).
  assert (H5 : valid_point (even_key 5)) by model_point (even_key 5).
  destruct (@PublicKey_combine_properties model_curve) as (_ & Hperm & Hone & Htwo).
  split; [exact (Htwo _ _ H3 H5) |].
  split; [exact (Hperm _ _ (perm_swap _ _ [])) | exact (Hone _ H3)].
Defined.

Lemma compute_Y_outcome_witness :
  exists point Y',
    hash_to_curve "test_message" = Ok point /\
    compute_Y "test_message" "" = Ok Y' /\ String.length Y' = 66%nat /\
    substring 0 2 Y' = "02" /\ PublicKey_.of_hex Y' = Ok point.
Proof.
  run (hash_to_curve "test_message") ltac:(fun v H =>
    lazymatch v with
    | Ok ?point =>
        exists point;
        destruct (proj2 (proj2 (@compute_Y_outcome sha2_openssl model_curve "test_message" "")
                           ltac:(discriminate)) point H) as [Y' HY'];
        exists Y'; exact (conj H HY')
    end).
Defined.

Lemma VersionTuple_strict_order_witness :
  VersionTuple_ltb (mkVersionTuple 0 14 2) (mkVersionTuple 1 0 0) = true /\
  VersionTuple_ltb (mkVersionTuple 0 15 0) (mkVersionTuple 0 14 2) = false.
Proof.
  destruct (VersionTuple_strict_order (mkVersionTuple 0 14 2) (mkVersionTuple 0 15 0)
              (mkVersionTuple 1 0 0)) as (_ & Htrans & Hasym & _).
  split; [apply Htrans | apply Hasym]; reflexivity.
Defined.

Lemma parse_path_outcome_witness :
  keys.parse_path (String "m" (path_text [(0%nat, true); (5%nat, false)])) =
    Ok [Z.of_nat 0 + 2 ^ 31; Z.of_nat 5].
Proof.
  apply (proj1 (parse_path_outcome [(0%nat, true); (5%nat, false)] "")).
  repeat constructor.
Defined.

Lemma derive_keys_pre_0_15_outcome_witness :
  (exists (keys_ : gmap Z PrivateKey) (src' : random_source),
     derive_keys_deprecated_pre_0_15 "seed" [1; 2] "m/0'/0'/0'" (fixed_draw 7) =
       Ok (keys_, src') /\
     dom keys_ = list_to_set [1; 2]) /\
  derive_keys_deprecated_pre_0_15 "seed" [1; 2] "m/0'/0'/0'" (fixed_draw 0) =
    Throw (invalid_argument "Private key must be in range [1, curve_order)").
Proof.
  assert (Hnodup : NoDup [1; 2])
    by (repeat (apply NoDup_cons; split; [set_solver|]); apply NoDup_nil_2).
  split.
  - pose proof (@derive_keys_pre_0_15_outcome sha2_openssl "seed" "m/0'/0'/0'" [1; 2]
                  (fixed_draw 7)) as Hthm.
    cbv zeta in Hthm. destruct Hthm as (Hok & Hreturns & _).
    destruct Hreturns as (keys_ & src' & Hkeys).
    + intros i Hi. destruct i as [|[|i]]; [vm_compute; split; reflexivity .. |].
      cbn [List.length] in Hi. lia.
    + intros i _. exists (mkPrivateKey 7). vm_compute. reflexivity.
    + exists keys_, src'. exact (conj Hkeys (proj1 (Hok keys_ src' Hkeys))).
  - pose proof (@derive_keys_pre_0_15_outcome sha2_openssl "seed" "m/0'/0'/0'" [1; 2]
                  (fixed_draw 0)) as Hthm.
    cbv zeta in Hthm. destruct Hthm as (_ & _ & _ & Hdraw).
    apply (Hdraw Hnodup 0%nat).
    + cbn [List.length]. lia.
    + vm_compute. reflexivity.
    + intros i Hi. assert (i = 0%nat) as -> by lia. vm_compute. split; reflexivity.
    + intros i Hi. lia.
Defined.

Lemma derive_keys_outcome_witness :
  (exists (keys_ : gmap Z PrivateKey) (src' : random_source),
     derive_keys "seed" "m/0'" [1; 2] (fixed_draw 7) = Ok (keys_, src') /\
     dom keys_ = list_to_set [1; 2]) /\
  derive_keys "seed" "x/0'" [1; 2] (fixed_draw 7) =
    Throw (invalid_argument "Path must start with 'm'").
Proof.
  split.
  - pose proof (@derive_keys_outcome sha2_openssl model_curve "seed" "m/0'" [1; 2]
                  (fixed_draw 7)) as Hthm.
    cbv zeta in Hthm. destruct Hthm as (Hok & _ & _ & Hreturns & _).
    destruct Hreturns as (keys_ & src' & Hkeys).
    + intros i Hi. destruct i as [|[|i]]; [eexists; vm_compute; reflexivity .. |].
      cbn [List.length] in Hi. lia.
    + intros i _. exists (mkPrivateKey 7). vm_compute. reflexivity.
    + exists keys_, src'. exact (conj Hkeys (proj1 (Hok keys_ src' Hkeys))).
  - pose proof (@derive_keys_outcome sha2_openssl model_curve "seed" "x/0'" [1; 2]
                  (fixed_draw 7)) as Hthm.
    cbv zeta in Hthm. destruct Hthm as (_ & _ & Hpath & _).
    apply Hpath; discriminate.
Defined.

Lemma derive_pubkeys_outcome_witness :
  let keys_ : gmap Z PrivateKey := <[1 := mkPrivateKey 3]> (<[2 := mkPrivateKey 5]> ∅) in
  exists pubkeys : gmap Z PublicKey,
    derive_pubkeys keys_ [1; 2; 4] = Ok pubkeys /\
    dom pubkeys = list_to_set [1; 2; 4] ∩ dom keys_.
Proof.
  intros keys_.
  destruct (@derive_pubkeys_outcome model_curve keys_ [1; 2; 4]) as [Hok Hreturns].
  destruct Hreturns as [pubkeys Hpubkeys].
  - intros amount key Hlookup. unfold keys_ in Hlookup.
    apply lookup_insert_Some in Hlookup as [[_ <-] | [_ Hlookup]]; [small_scalar |].
    apply lookup_insert_Some in Hlookup as [[_ <-] | [_ Hlookup]]; [small_scalar |].
    rewrite lookup_empty in Hlookup. discriminate Hlookup.
  - exists pubkeys. exact (conj Hpubkeys (proj1 (Hok pubkeys Hpubkeys))).
Defined.

Lemma base64_and_random_hash_witness :
  let src : random_source :=
    fun _ => {| RAND_bytes_return := 1; RAND_bytes_buffer := repeat x00 30;
                mt19937_bytes := [] |} in
  all_chars is_base64 (keys.bytes_to_base64 [x01; x02; x03]) = true /\
  exists hash src',
    random_hash src = Ok (hash, src') /\ String.length hash = 40%nat /\
    all_chars is_urlsafe hash = true.
Proof.
  intros src.
  destruct (base64_and_random_hash [x01; x02; x03] src) as (_ & _ & Hplain & _ & Hhash).
  split; [apply Hplain | apply Hhash]; reflexivity.
Defined.

Lemma generate_standard_amounts_powers_witness :
  generate_standard_amounts 1000 = map (fun i => 2 ^ Z.of_nat i) (seq 0 10) /\
  generate_standard_amounts 0 = [].
Proof.
  split.
  - apply (proj1 (proj2 (generate_standard_amounts_powers 1000) ltac:(lia))).
  - apply (proj1 (generate_standard_amounts_powers 0)). lia.
Defined.
